(** * Colour and tone analysis of next-enterprise: a shallow embedding

    The analysis engine under [src/app/api] turns the pixels of an image into
    Lab colours, hue histograms, tone curves, 3x3 colour matrices and a
    32x32x32 lookup table.  This file embeds those functions and proves the
    properties the specification states about them, and then further
    properties of the code: of the estimators on channel statistics, the
    channel histogram, the matrices and curves of the XMP application, and
    the path from an image to its lookup table.

    Numbers.  A JavaScript [number] that the code keeps finite is a real
    number here ([R]); rounding error, overflow and signed zeros are outside
    the model.  Where the source can form a quotient whose divisor is zero, the
    model says so explicitly: [jsdiv] returns [None] for it, and the functions
    that can meet it return an [option].  An integer produced by [Math.round]
    or [Math.floor], or used as an array index, is a [Z] or a [nat]. *)

From Stdlib Require Import Reals Lra Lia ZArith List Bool.
From Stdlib Require Import Strings.Byte.
From Stdlib Require Import Zfloor Sorted.
Import ListNotations.

Open Scope R_scope.

(* ================================================================= *)
(** ** The numeric library of the host language *)

Definition Rgtb (x y : R) : bool := if Rlt_dec y x then true else false.
Definition Rltb (x y : R) : bool := if Rlt_dec x y then true else false.
Definition Rgeb (x y : R) : bool := if Rle_dec y x then true else false.
Definition Rleb (x y : R) : bool := if Rle_dec x y then true else false.
Definition Reqb (x y : R) : bool := if Req_dec_T x y then true else false.

Infix ">?" := Rgtb (at level 70, no associativity) : R_scope.
Infix "<?" := Rltb (at level 70, no associativity) : R_scope.
Infix ">=?" := Rgeb (at level 70, no associativity) : R_scope.
Infix "<=?" := Rleb (at level 70, no associativity) : R_scope.
Infix "=?" := Reqb (at level 70, no associativity) : R_scope.

(** [Math.round] rounds to the nearest integer, halves towards plus infinity. *)
Definition Math_round (x : R) : Z := Zfloor (x + / 2).

Definition Math_floor (x : R) : Z := Zfloor x.

Definition Math_ceil (x : R) : Z := Zceil x.

(** [Math.pow] on a positive base. *)
Definition Math_pow (x y : R) : R := Rpower x y.

(** [Math.atan2 (y, x)]: the angle of the point [(x, y)], in the interval
    from [- PI] (excluded) to [PI] (included); [Math.atan2 (0, 0)] is [0]. *)
Definition Math_atan2 (y x : R) : R :=
  if Rlt_dec 0 x then atan (y / x)
  else if Rlt_dec x 0 then
    (if Rle_dec 0 y then atan (y / x) + PI else atan (y / x) - PI)
  else if Rlt_dec 0 y then PI / 2
  else if Rlt_dec y 0 then - (PI / 2)
  else 0.

(** A quotient of the host language: [None] when the divisor is zero, where
    the language yields [NaN] or an infinity instead of a finite number. *)
Definition jsdiv (x y : R) : option R :=
  if Req_dec_T y 0 then None else Some (x / y).

Definition bind {A B : Type} (m : option A) (k : A -> option B) : option B :=
  match m with
  | Some v => k v
  | None => None
  end.

Notation "x <- m ;; k" := (bind m (fun x => k))
  (at level 61, m at next level, right associativity).

(** The number a byte of a raw channel buffer stands for. *)
Definition byteR (c : byte) : R := IZR (Z.of_N (Byte.to_N c)).

(* ================================================================= *)
(** ** Data model (types.ts) *)

Module LabColor.
Record t : Type := mk { l : R; a : R; b : R }.
End LabColor.

Inductive ColorChannel : Type :=
  | red | orange | yellow | green | aqua | blue | purple | magenta.

Module ColorRange.
Record t : Type := mk { start : R; end_ : R; center : R }.
End ColorRange.

Module HistogramPeak.
Record t : Type := mk { position : nat; height : R; width : R }.
End HistogramPeak.

(** A cell of the 360-bin hue histogram: [Some c] is the count [c]; [None] is
    a cell that holds no finite number ([NaN], or a hole of the array). *)
Definition Bin : Type := option R.

Module ColorDistribution.
Record t : Type := mk {
  mean : LabColor.t;
  peaks : list LabColor.t;
  histogram : list Bin;
  weight : R
}.
End ColorDistribution.

Module TonePoint.
Record t : Type := mk { input : R; output : R; weight : R }.
End TonePoint.

(** A tone curve is an array of points, each an array of numbers
    ([number[][]]); a well-formed point has exactly two. *)
Definition ToneCurve : Type := list (list R).

(** [Matrix3x3] (declared by the image library): three rows of three
    numbers. *)
Definition Row3 : Type := (R * R * R)%type.

Definition Matrix3x3 : Type := (Row3 * Row3 * Row3)%type.

Definition nth3 {A : Type} (t : A * A * A) (i : nat) : A :=
  match i with
  | O => fst (fst t)
  | S O => snd (fst t)
  | _ => snd t
  end.

(** Entry [m[i][j]] of a matrix. *)
Definition at_ (m : Matrix3x3) (i j : nat) : R := nth3 (nth3 m i) j.

(* ================================================================= *)
(** ** Colour-space conversion (color-analysis.ts, image-utils.ts) *)

Definition gammaDecode (c : R) : R :=
  if c >? 0.04045 then Math_pow ((c + 0.055) / 1.055) 2.4 else c / 12.92.

Definition labF (t : R) : R :=
  if t >? 0.008856 then Math_pow t (1 / 3) else 7.787 * t + 16 / 116.

Definition rgbToLab (r g b : R) : LabColor.t :=
  let rr := gammaDecode (r / 255) in
  let gg := gammaDecode (g / 255) in
  let bb := gammaDecode (b / 255) in
  let x := (rr * 0.4124 + gg * 0.3576 + bb * 0.1805) * 100 in
  let y := (rr * 0.2126 + gg * 0.7152 + bb * 0.0722) * 100 in
  let z := (rr * 0.0193 + gg * 0.1192 + bb * 0.9505) * 100 in
  let xn := 95.047 in
  let yn := 100.0 in
  let zn := 108.883 in
  let fx := labF (x / xn) in
  let fy := labF (y / yn) in
  let fz := labF (z / zn) in
  LabColor.mk (116 * fy - 16) (500 * (fx - fy)) (200 * (fy - fz)).

(** The hue angle the analysis derives from the chrominance pair: the
    expression [(Math.atan2(lab.b, lab.a) * 180) / Math.PI + 180]. *)
Definition hueFromLab (a b : R) : R := (Math_atan2 b a * 180) / PI + 180.

Definition hueOf (lab : LabColor.t) : R :=
  hueFromLab (LabColor.a lab) (LabColor.b lab).

(* ================================================================= *)
(** ** Hue bands (constants.ts) *)

Definition COLOR_RANGES (color : ColorChannel) : ColorRange.t :=
  match color with
  | red => ColorRange.mk 345 15 0
  | orange => ColorRange.mk 15 45 30
  | yellow => ColorRange.mk 45 75 60
  | green => ColorRange.mk 75 165 120
  | aqua => ColorRange.mk 165 195 180
  | blue => ColorRange.mk 195 255 225
  | purple => ColorRange.mk 255 285 270
  | magenta => ColorRange.mk 285 345 315
  end.

(** The membership test of [analyzeColorDistribution]. *)
Definition inRange (range : ColorRange.t) (hue : R) : bool :=
  if ColorRange.start range >? ColorRange.end_ range
  then (hue >=? ColorRange.start range) || (hue <=? ColorRange.end_ range)
  else (hue >=? ColorRange.start range) && (hue <=? ColorRange.end_ range).

(* ================================================================= *)
(** ** Matrices (image-utils.ts) *)

Definition IDENTITY_MATRIX : Matrix3x3 :=
  ((1, 0, 0), (0, 1, 0), (0, 0, 1)).

Definition multiplyMatrices (a b : Matrix3x3) : Matrix3x3 :=
  ( ( at_ a 0 0 * at_ b 0 0 + at_ a 0 1 * at_ b 1 0 + at_ a 0 2 * at_ b 2 0,
      at_ a 0 0 * at_ b 0 1 + at_ a 0 1 * at_ b 1 1 + at_ a 0 2 * at_ b 2 1,
      at_ a 0 0 * at_ b 0 2 + at_ a 0 1 * at_ b 1 2 + at_ a 0 2 * at_ b 2 2 ),
    ( at_ a 1 0 * at_ b 0 0 + at_ a 1 1 * at_ b 1 0 + at_ a 1 2 * at_ b 2 0,
      at_ a 1 0 * at_ b 0 1 + at_ a 1 1 * at_ b 1 1 + at_ a 1 2 * at_ b 2 1,
      at_ a 1 0 * at_ b 0 2 + at_ a 1 1 * at_ b 1 2 + at_ a 1 2 * at_ b 2 2 ),
    ( at_ a 2 0 * at_ b 0 0 + at_ a 2 1 * at_ b 1 0 + at_ a 2 2 * at_ b 2 0,
      at_ a 2 0 * at_ b 0 1 + at_ a 2 1 * at_ b 1 1 + at_ a 2 2 * at_ b 2 1,
      at_ a 2 0 * at_ b 0 2 + at_ a 2 1 * at_ b 1 2 + at_ a 2 2 * at_ b 2 2 ) ).

Definition calculateHueSaturationMatrix (hue saturation : R) : Matrix3x3 :=
  let hueRad := (hue * PI) / 180 in
  let cosH := cos hueRad in
  let sinH := sin hueRad in
  let satFactor := 1 + saturation / 100 in
  ( ( 0.213 + cosH * 0.787 * satFactor,
      0.213 - cosH * 0.213 * satFactor + sinH * 0.143,
      0.213 - cosH * 0.213 * satFactor - sinH * 0.787 ),
    ( 0.715 - cosH * 0.715 * satFactor - sinH * 0.715,
      0.715 + cosH * 0.285 * satFactor,
      0.715 - cosH * 0.715 * satFactor + sinH * 0.715 ),
    ( 0.072 - cosH * 0.072 * satFactor + sinH * 0.928,
      0.072 - cosH * 0.072 * satFactor - sinH * 0.283,
      0.072 + cosH * 0.928 * satFactor ) ).

(* ================================================================= *)
(** ** Histogram engine (histogram-analysis.ts) *)

(** What a call does when the code can raise an exception. *)
Inductive Outcome (A : Type) : Type :=
  | Returns (v : A)
  | Throws.
Arguments Returns {A} v.
Arguments Throws {A}.

(** The integers [lo, lo + 1, ..., hi] of a loop
    [for (j = lo; j <= hi; j++)]. *)
Definition zrange (lo hi : Z) : list Z :=
  map (fun k => (lo + Z.of_nat k)%Z) (seq 0 (Z.to_nat (hi - lo + 1))).

(** The loop body of [smoothArray] for one position [i]: cells that hold no
    finite number are skipped. *)
Definition smoothAt (arr : list Bin) (sigma : R) (windowSize i : Z) : R :=
  let '(sum, weightSum) :=
    fold_left
      (fun '(sum, weightSum) j =>
         match nth_error arr (Z.to_nat j) with
         | Some (Some value) =>
             let distance := IZR (i - j) in
             let weight := exp (- (distance * distance) / (2 * sigma * sigma)) in
             (sum + value * weight, weightSum + weight)
         | _ => (sum, weightSum)
         end)
      (zrange (Z.max 0 (i - windowSize))
              (Z.min (Z.of_nat (length arr) - 1) (i + windowSize)))
      (0, 0) in
  if weightSum >? 0 then sum / weightSum else 0.

(** [smoothArray(arr, sigma)]; every call in the repository leaves [sigma] at
    its default 2. *)
Definition smoothArray (arr : list Bin) (sigma : R) : list R :=
  let windowSize := Math_ceil (sigma * 6) in
  map (fun i => smoothAt arr sigma windowSize (Z.of_nat i)) (seq 0 (length arr)).

(** [Math.max(...histogram)].  On the empty array it is minus infinity in the
    source; no loop of [findHistogramPeaks] runs then, so the value is never
    read. *)
Definition maxHeightOf (histogram : list R) : R :=
  match histogram with
  | [] => 0
  | h0 :: rest => fold_left Rmax rest h0
  end.

(** Derivative mode: the peak, if any, at index [i]. *)
Definition derivativePeak (histogram : list R) (maxHeight mean stdev : R)
    (i : nat) : list HistogramPeak.t :=
  let minPeakHeight := maxHeight * 0.01 in
  let firstDerivative (k : nat) := nth (k + 1) histogram 0 - nth k histogram 0 in
  let secondDerivative (k : nat) := firstDerivative (k + 1)%nat - firstDerivative k in
  let secondLength := (length histogram - 2)%nat in
  let current := nth i histogram 0 in
  if (current >? minPeakHeight) && (firstDerivative (i - 1)%nat >? 0)
     && (firstDerivative i <? 0)
  then
    let leftWidth :=
      match find (fun j => secondDerivative j >? 0) (rev (seq 0 i)) with
      | Some j => (i - j)%nat
      | None => O
      end in
    let rightWidth :=
      match find (fun j => secondDerivative j >? 0) (seq i (secondLength - i)) with
      | Some j => (j - i)%nat
      | None => O
      end in
    let width := INR (Nat.max leftWidth rightWidth) * 2 in
    let distanceFromMean := Rabs (INR i - mean) in
    (* With [stdev = 0] the quotient is an infinity or NaN, the significance
       is 0 or NaN, and the comparison below is false. *)
    match jsdiv distanceFromMean stdev with
    | None => []
    | Some q =>
        let significance := (current / maxHeight) * exp (- 0.5 * (q * q)) in
        if significance >? 0.1
        then [HistogramPeak.mk i (current / maxHeight) width]
        else []
    end
  else [].

(** Fallback mode: the peak, if any, at index [i]. *)
Definition localPeak (histogram : list R) (maxHeight : R) (i : nat)
    : list HistogramPeak.t :=
  let minPeakHeight := maxHeight * 0.01 in
  let current := nth i histogram 0 in
  let prev := nth (i - 1) histogram 0 in
  let next := nth (i + 1) histogram 0 in
  if (current >? minPeakHeight) && (current >? prev) && (current >? next)
  then
    let localWindow := 10%Z in
    let window :=
      zrange (Z.max 0 (Z.of_nat i - localWindow))
             (Z.min (Z.of_nat (length histogram) - 1) (Z.of_nat i + localWindow)) in
    let '(localSum, localCount) :=
      fold_left
        (fun '(localSum, localCount) j =>
           let value := nth (Z.to_nat j) histogram 0 in
           (localSum + IZR j * value, localCount + value))
        window (0, 0) in
    if localCount >? 0 then
      let localMean := localSum / localCount in
      let localVariance :=
        fold_left
          (fun localVariance j =>
             let value := nth (Z.to_nat j) histogram 0 in
             localVariance + value * ((IZR j - localMean) * (IZR j - localMean)))
          window 0 in
      let peakWidth := sqrt (localVariance / localCount) in
      [HistogramPeak.mk i (current / maxHeight) peakWidth]
    else []
  else [].

(** [findHistogramPeaks(histogram, mean?, stdev?)] on an array of finite
    numbers (what [smoothArray] returns), so that the [typeof] and [isNaN]
    tests of the source all pass.  In derivative mode the source allocates
    [new Array(histogram.length - 2)], which raises a RangeError when the
    histogram has fewer than two cells.  The quotients by [localCount] are
    guarded by the test [localCount > 0]; the quotient by [maxHeight] is only
    formed for a cell above one percent of the maximum, which makes the
    maximum positive (lemma [peak_height_unit]). *)
Definition findHistogramPeaks (histogram : list R) (mean stdev : option R)
    : Outcome (list HistogramPeak.t) :=
  let maxHeight := maxHeightOf histogram in
  let indices := seq 1 (length histogram - 2) in
  match mean, stdev with
  | Some mean, Some stdev =>
      if (length histogram <? 2)%nat then Throws
      else Returns (flat_map (derivativePeak histogram maxHeight mean stdev) indices)
  | _, _ => Returns (flat_map (localPeak histogram maxHeight) indices)
  end.

(* ================================================================= *)
(** ** Hue-distribution analyzer (color-analysis.ts) *)

(** The image decoder: [sharp(buffer).extractChannel(k).raw().toBuffer()]
    yields the bytes of channel [k], or fails ([None]) and the failure is
    raised as an exception. *)
Class Sharp (Buffer : Type) : Type :=
  extractChannel : Buffer -> nat -> option (list byte).

(** A decoder for images that are already three raw planes. *)
#[export] Instance rawPlanes : Sharp (list byte * list byte * list byte) :=
  fun buffer k => Some (nth3 buffer k).

(** A one-pixel image, black. *)
Definition blackPixel : list byte * list byte * list byte :=
  ([x00], [x00], [x00]).

(** [histogram[k]++]: a count is incremented; NaN stays NaN; an index past
    the end extends the array, the new cell holding NaN. *)
Fixpoint incrementBin (histogram : list Bin) (k : nat) : list Bin :=
  match histogram, k with
  | c :: rest, O => option_map (fun v => v + 1) c :: rest
  | c :: rest, S k' => c :: incrementBin rest k'
  | [], O => [None]
  | [], S k' => None :: incrementBin [] k'
  end.

(** The pixel loop of [analyzeColorDistribution]: the Lab values of the
    pixels in range, in order, and the hue histogram. *)
Definition scanPixels (range : ColorRange.t) (ch0 ch1 ch2 : list byte)
    : list LabColor.t * list Bin :=
  fold_left
    (fun '(pixels, histogram) i =>
       match nth_error ch0 i, nth_error ch1 i, nth_error ch2 i with
       | Some r, Some g, Some b =>
           let lab := rgbToLab (byteR r) (byteR g) (byteR b) in
           let hue := hueOf lab in
           if inRange range hue
           then (pixels ++ [lab],
                 incrementBin histogram (Z.to_nat (Math_floor hue)))
           else (pixels, histogram)
       | _, _, _ => (pixels, histogram)
       end)
    (seq 0 (length ch0))
    ([], repeat (Some 0) 360).

Definition labSum (pixels : list LabColor.t) : LabColor.t :=
  fold_left
    (fun acc lab =>
       LabColor.mk (LabColor.l acc + LabColor.l lab)
                   (LabColor.a acc + LabColor.a lab)
                   (LabColor.b acc + LabColor.b lab))
    pixels (LabColor.mk 0 0 0).

(** The sum of the Lab values, each component divided by their number. *)
Definition labMean (pixels : list LabColor.t) : option LabColor.t :=
  let acc := labSum pixels in
  let n := INR (length pixels) in
  l <- jsdiv (LabColor.l acc) n ;;
  a <- jsdiv (LabColor.a acc) n ;;
  b <- jsdiv (LabColor.b acc) n ;;
  Some (LabColor.mk l a b).

(** The representative Lab value of one histogram peak. *)
Definition peakLab (pixels : list LabColor.t) (mean : LabColor.t)
    (peak : HistogramPeak.t) : option LabColor.t :=
  let peakPixels :=
    filter
      (fun lab =>
         Rabs (hueOf lab - INR (HistogramPeak.position peak))
         <? HistogramPeak.width peak / 2)
      pixels in
  match peakPixels with
  | [] => Some mean
  | _ :: _ => labMean peakPixels
  end.

Fixpoint mapM {A B : Type} (f : A -> option B) (xs : list A) : option (list B) :=
  match xs with
  | [] => Some []
  | x :: rest => y <- f x ;; ys <- mapM f rest ;; Some (y :: ys)
  end.

(** The Lab value [{ l: 0, a: 0, b: 0 }]. *)
Definition zeroLab : LabColor.t := LabColor.mk 0 0 0.

Definition zeroDistribution (histogram : list Bin) : ColorDistribution.t :=
  ColorDistribution.mk zeroLab [] histogram 0.

(** [analyzeColorDistribution(buffer, range)].  The result is [None] when a
    quotient with a zero divisor would put a non-finite number into the mean,
    a peak or the weight of the record; an exception is caught and answered
    with a zeroed record and a fresh histogram. *)
Definition analyzeColorDistribution {Buffer : Type} `{Sharp Buffer}
    (buffer : Buffer) (range : ColorRange.t) : option ColorDistribution.t :=
  match extractChannel buffer 0%nat, extractChannel buffer 1%nat,
        extractChannel buffer 2%nat with
  | Some ch0, Some ch1, Some ch2 =>
      let '(pixels, histogram) := scanPixels range ch0 ch1 ch2 in
      match pixels with
      | [] => Some (zeroDistribution histogram)
      | _ :: _ =>
          mean <- labMean pixels ;;
          let smoothedHistogram := smoothArray histogram 2 in
          match findHistogramPeaks smoothedHistogram None None with
          | Returns histogramPeaks =>
              peaks <- mapM (peakLab pixels mean) histogramPeaks ;;
              weight <- jsdiv (INR (length pixels)) (INR (length ch0)) ;;
              Some (ColorDistribution.mk mean peaks histogram weight)
          | Throws => Some (zeroDistribution (repeat (Some 0) 360))
          end
      end
  | _, _, _ => Some (zeroDistribution (repeat (Some 0) 360))
  end.

(* ================================================================= *)
(** ** Colour-adjustment estimator (color-analysis.ts) *)

Definition chroma (lab : LabColor.t) : R :=
  sqrt (LabColor.a lab * LabColor.a lab + LabColor.b lab * LabColor.b lab).

(** The signed difference between the hue of [lab] and the band centre. *)
Definition hueDiff (center : R) (lab : LabColor.t) : R :=
  let d := hueOf lab - center in
  let d := if d >? 180 then d - 360 else d in
  if d <? -180 then d + 360 else d.

(** The confidence weight of one term of the hue estimate. *)
Definition hueWeight (lab : LabColor.t) : R := Rmin 1 (chroma lab / 128).

(** [totalAdjustment] and [totalWeight] of [calculateColorHue], over the mean
    and then every peak. *)
Definition hueTotals (center : R) (distribution : ColorDistribution.t) : R * R :=
  fold_left
    (fun '(totalAdjustment, totalWeight) lab =>
       (totalAdjustment + hueDiff center lab * hueWeight lab,
        totalWeight + hueWeight lab))
    (ColorDistribution.mean distribution :: ColorDistribution.peaks distribution)
    (0, 0).

(** [calculateColorHue(color, buffer)]; [None] is a NaN result.  Every
    [ColorChannel] has a range, so the test [!colorRange] never fires. *)
Definition calculateColorHue {Buffer : Type} `{Sharp Buffer}
    (color : ColorChannel) (buffer : Buffer) : option Z :=
  let colorRange := COLOR_RANGES color in
  distribution <- analyzeColorDistribution buffer colorRange ;;
  if ColorDistribution.weight distribution =? 0 then Some 0%Z
  else
    let '(totalAdjustment, totalWeight) :=
      hueTotals (ColorRange.center colorRange) distribution in
    if totalWeight =? 0 then Some 0%Z
    else
      let scaleFactor := 0.75 * ColorDistribution.weight distribution in
      Some (Math_round ((totalAdjustment / totalWeight) * scaleFactor)).

(** The luminance-centring weight of the saturation estimate. *)
Definition luminanceWeight (lab : LabColor.t) : R :=
  1 - Rabs (LabColor.l lab - 50) / 50.

(** The weight of one term of the saturation estimate. *)
Definition saturationWeight (distribution : ColorDistribution.t)
    (lab : LabColor.t) : R :=
  luminanceWeight lab * ColorDistribution.weight distribution.

Definition saturationTotals (distribution : ColorDistribution.t) : R * R :=
  let targetChroma := 60 in
  fold_left
    (fun '(totalAdjustment, totalWeight) lab =>
       (totalAdjustment + (chroma lab - targetChroma) * saturationWeight distribution lab,
        totalWeight + saturationWeight distribution lab))
    (ColorDistribution.mean distribution :: ColorDistribution.peaks distribution)
    (0, 0).

Definition calculateColorSaturation {Buffer : Type} `{Sharp Buffer}
    (color : ColorChannel) (buffer : Buffer) : option Z :=
  let colorRange := COLOR_RANGES color in
  distribution <- analyzeColorDistribution buffer colorRange ;;
  if ColorDistribution.weight distribution =? 0 then Some 0%Z
  else
    let '(totalAdjustment, totalWeight) := saturationTotals distribution in
    if totalWeight =? 0 then Some 0%Z
    else
      let scaleFactor := 1.25 in
      Some (Math_round ((totalAdjustment / totalWeight) * scaleFactor)).

(* ================================================================= *)
(** ** Tone-curve synthesizer (tone-analysis.ts) *)

(** [points.sort((a, b) => a.input - b.input)]: a stable sort by input. *)
Fixpoint insertByInput (p : TonePoint.t) (sorted : list TonePoint.t)
    : list TonePoint.t :=
  match sorted with
  | [] => [p]
  | q :: rest =>
      if TonePoint.input p <=? TonePoint.input q
      then p :: q :: rest
      else q :: insertByInput p rest
  end.

Definition sortByInput (points : list TonePoint.t) : list TonePoint.t :=
  fold_right insertByInput [] points.

(** [points.reduce((sum, p) => sum + f(p), 0)]. *)
Definition sumOf (f : TonePoint.t -> R) (points : list TonePoint.t) : R :=
  fold_left (fun sum p => sum + f p) points 0.

(** The shoulder point, if any, that [smoothToneCurve] adds for [point]. *)
Definition shoulderPoint (point : TonePoint.t) : list TonePoint.t :=
  let shadowThreshold := 64 in
  let highlightThreshold := 192 in
  if TonePoint.input point <? shadowThreshold then
    let shoulderPos :=
      TonePoint.input point + TonePoint.weight point * shadowThreshold in
    [TonePoint.mk shoulderPos
       (shoulderPos + (TonePoint.output point - TonePoint.input point) * 0.5)
       (TonePoint.weight point * 0.5)]
  else if TonePoint.input point >? highlightThreshold then
    let shoulderPos :=
      TonePoint.input point - (255 - TonePoint.input point) * TonePoint.weight point in
    [TonePoint.mk shoulderPos
       (shoulderPos + (TonePoint.output point - TonePoint.input point) * 0.5)
       (TonePoint.weight point * 0.5)]
  else [].

(** The Gaussian influence of [point] at [position].  When [sigma] is 0 (a
    point of weight -1) the exponent is [-0 / 0 = NaN] at distance 0 ([None])
    and minus infinity otherwise, whose exponential is 0. *)
Definition influenceAt (numPoints : Z) (position : R) (point : TonePoint.t)
    : option R :=
  let distance := Rabs (position - TonePoint.input point) in
  let sigma := (255 / (IZR numPoints * 2)) * (1 + TonePoint.weight point) in
  match jsdiv (- distance * distance) (2 * sigma * sigma) with
  | Some e => Some (exp e)
  | None => if distance =? 0 then None else Some 0
  end.

(** [weightedSum] and [totalWeight] at [position]; [None] when both are NaN. *)
Definition blendAt (numPoints : Z) (allPoints : list TonePoint.t) (position : R)
    : option (R * R) :=
  fold_left
    (fun acc point =>
       sums <- acc ;;
       influence <- influenceAt numPoints position point ;;
       let weight := TonePoint.weight point * influence in
       Some (fst sums + (TonePoint.output point - TonePoint.input point) * weight,
             snd sums + weight))
    allPoints (Some (0, 0)).

(** The curve point of index [i]: the body of the generating loop. *)
Definition curvePointAt (numPoints : Z) (sCurveStrength : R)
    (allPoints : list TonePoint.t) (i : nat) : list R :=
  let position := (INR i / (IZR numPoints - 1)) * 255 in
  let adjustment :=
    match blendAt numPoints allPoints position with
    | Some (weightedSum, totalWeight) =>
        if totalWeight >? 0 then weightedSum / totalWeight else 0
    | None => 0
    end in
  let normalizedPos := position / 255 in
  let sCurve := normalizedPos + sCurveStrength * sin (PI * normalizedPos) in
  let blendFactor := 4 * normalizedPos * (1 - normalizedPos) in
  let blendedCurve := normalizedPos * (1 - blendFactor) + sCurve * blendFactor in
  let output :=
    Rmax 0 (Rmin 255 (position + adjustment + (blendedCurve - normalizedPos) * 255 * 0.1)) in
  [IZR (Math_round position); IZR (Math_round output)].

(** The number of curve points [smoothToneCurve] chooses for a non-empty
    array. *)
Definition numPointsOf (points : list TonePoint.t) : Z :=
  let totalWeight := sumOf TonePoint.weight points in
  let weightedPoints := filter (fun point => TonePoint.weight point >? 0.1) points in
  let basePoints := 5 in
  let complexityFactor :=
    Rmin ((INR (length weightedPoints) * totalWeight) / INR (length points)) 3 in
  Z.min 20 (Z.max 5 (Math_round (basePoints + complexityFactor * 5))).

(** [smoothToneCurve(points)].  On the empty array every average of the source
    is [0 / 0 = NaN], so [numPoints] is NaN, the loop test [i < numPoints] is
    false at once and the result is the empty array. *)
Definition smoothToneCurve (points : list TonePoint.t) : ToneCurve :=
  match points with
  | [] => []
  | first :: others =>
      let count := INR (length points) in
      let meanBrightness := sumOf TonePoint.input points / count in
      let contrastFactor :=
        sumOf (fun p => Rabs (TonePoint.input p - meanBrightness)) points / count in
      let inputs := map TonePoint.input others in
      let dynamicRange :=
        fold_left Rmax inputs (TonePoint.input first)
        - fold_left Rmin inputs (TonePoint.input first) in
      let sCurveStrength :=
        Rmin 0.8
          (Rmax 0.2
             (0.4 + (contrastFactor / 128) * 0.2 + (1 - dynamicRange / 255) * 0.2)) in
      let numPoints := numPointsOf points in
      let shoulderPoints := flat_map shoulderPoint points in
      let allPoints := sortByInput (points ++ shoulderPoints) in
      map (curvePointAt numPoints sCurveStrength allPoints)
          (seq 0 (Z.to_nat numPoints))
  end.

(** The input values of a curve, in order. *)
Definition curveInputs (curve : ToneCurve) : list R :=
  map (fun point => nth 0 point 0) curve.

Definition strictlyIncreasing (xs : list R) : Prop := StronglySorted Rlt xs.

(* ================================================================= *)
(** ** Tone curve as a matrix row (image-utils.ts) *)

(** [!x] for an optional number: true for [undefined] and for 0. *)
Definition falsy (x : option R) : bool :=
  match x with
  | Some v => v =? 0
  | None => true
  end.

(** [convertToneCurveToMatrix(curve)]; [None] is a row whose slope is not a
    finite number.  A curve of at least two points has a first and a last
    point; [point?.[k]] is [undefined] when the point has no such entry. *)
Definition convertToneCurveToMatrix (curve : option ToneCurve) : option Row3 :=
  match curve with
  | None => Some (1, 0, 0)
  | Some curve =>
      if (length curve <? 2)%nat then Some (1, 0, 0)
      else
        let firstPoint := nth 0 curve [] in
        let lastPoint := nth (length curve - 1) curve [] in
        if falsy (nth_error firstPoint 0) || falsy (nth_error firstPoint 1)
           || falsy (nth_error lastPoint 0) || falsy (nth_error lastPoint 1)
        then Some (1, 0, 0)
        else
          avgSlope <- jsdiv (nth 1 lastPoint 0 - nth 1 firstPoint 0)
                            (nth 0 lastPoint 0 - nth 0 firstPoint 0) ;;
          Some (avgSlope, 0, 0)
  end.

(* ================================================================= *)
(** ** Lookup table (extract-xmp-cube-core.ts) *)

Module ColorPoint.
Record t (N : Type) : Type := mk { r : N; g : N; b : N }.
Arguments mk {N} r g b.
Arguments r {N} t.
Arguments g {N} t.
Arguments b {N} t.
End ColorPoint.

Module ProcessingFactors.
Record t : Type := mk { exposure : R; contrast : R }.
End ProcessingFactors.

(** A property of a JavaScript object: [None] when the object has no such
    key, [Some None] when the key is there and holds [undefined]. *)
Definition Field (A : Type) : Type := option (option A).

Definition present {A : Type} (f : Field A) : bool :=
  match f with
  | Some _ => true
  | None => false
  end.

Definition valueOf {A : Type} (f : Field A) : option A :=
  match f with
  | Some v => v
  | None => None
  end.

(** The properties of [ImageProperties] that the lookup table reads. *)
Module ImageProperties.
Record t : Type := mk {
  exposure : Field R;
  contrast : Field R;
  toneCurveRed : Field ToneCurve;
  toneCurveGreen : Field ToneCurve;
  toneCurveBlue : Field ToneCurve;
  redHue : R; redSaturation : R;
  orangeHue : R; orangeSaturation : R;
  yellowHue : R; yellowSaturation : R;
  greenHue : R; greenSaturation : R;
  aquaHue : R; aquaSaturation : R;
  blueHue : R; blueSaturation : R;
  purpleHue : R; purpleSaturation : R;
  magentaHue : R; magentaSaturation : R
}.
End ImageProperties.

Definition DEFAULT_TONE_CURVE : ToneCurve := [[0; 0]; [255; 255]].
Definition LUT_SIZE : nat := 32.
Definition MAX_CONTRAST_FACTOR : R := 5.0.

(** [validateToneCurvePoints]: every point is an array of two numbers. *)
Definition validateToneCurvePoints (points : ToneCurve) : bool :=
  forallb (fun point => (length point =? 2)%nat) points.

(** [validateImageProperties]: [true] when it returns, [false] when it
    throws for a missing required property. *)
Definition validateImageProperties (properties : ImageProperties.t) : bool :=
  present (ImageProperties.exposure properties)
  && present (ImageProperties.contrast properties)
  && present (ImageProperties.toneCurveRed properties)
  && present (ImageProperties.toneCurveGreen properties)
  && present (ImageProperties.toneCurveBlue properties).

(** The curve [applyToneCurve] interpolates: the given one when it is there
    and valid, the default otherwise. *)
Definition effectiveCurve (curve : option ToneCurve) : ToneCurve :=
  match curve with
  | Some c => if validateToneCurvePoints c then c else DEFAULT_TONE_CURVE
  | None => DEFAULT_TONE_CURVE
  end.

(** The segment loop of [applyToneCurve]; [None] is the NaN of [0 / 0]. *)
Fixpoint applySegments (value : R) (toneCurve : ToneCurve) : option R :=
  match toneCurve with
  | p1 :: rest =>
      match rest with
      | p2 :: _ =>
          let x1 := nth 0 p1 0 in
          let y1 := nth 1 p1 0 in
          let x2 := nth 0 p2 0 in
          let y2 := nth 1 p2 0 in
          if (value >=? x1 / 255) && (value <=? x2 / 255) then
            t <- jsdiv (value - x1 / 255) (x2 / 255 - x1 / 255) ;;
            Some (y1 / 255 + t * (y2 / 255 - y1 / 255))
          else applySegments value rest
      | [] => Some value
      end
  | [] => Some value
  end.

Definition applyToneCurve (value : R) (curve : option ToneCurve) : option R :=
  applySegments value (effectiveCurve curve).

Definition applyColorMatrix (point : ColorPoint.t R) (matrix : Matrix3x3)
    : ColorPoint.t R :=
  ColorPoint.mk
    (ColorPoint.r point * at_ matrix 0 0 + ColorPoint.g point * at_ matrix 0 1
     + ColorPoint.b point * at_ matrix 0 2)
    (ColorPoint.r point * at_ matrix 1 0 + ColorPoint.g point * at_ matrix 1 1
     + ColorPoint.b point * at_ matrix 1 2)
    (ColorPoint.r point * at_ matrix 2 0 + ColorPoint.g point * at_ matrix 2 1
     + ColorPoint.b point * at_ matrix 2 2).

Definition applyToneCurves (point : ColorPoint.t R)
    (properties : ImageProperties.t) : ColorPoint.t (option R) :=
  ColorPoint.mk
    (applyToneCurve (ColorPoint.r point)
       (valueOf (ImageProperties.toneCurveRed properties)))
    (applyToneCurve (ColorPoint.g point)
       (valueOf (ImageProperties.toneCurveGreen properties)))
    (applyToneCurve (ColorPoint.b point)
       (valueOf (ImageProperties.toneCurveBlue properties))).

(** [x || 0] for an optional number. *)
Definition orZero (x : option R) : R :=
  match x with
  | Some v => v
  | None => 0
  end.

(** [calculateProcessingFactors].  A contrast of 100 puts the tangent at
    [PI / 2], where the floating-point tangent is a huge finite number and the
    minimum is [MAX_CONTRAST_FACTOR]. *)
Definition calculateProcessingFactors (properties : ImageProperties.t)
    : ProcessingFactors.t :=
  let exposure := orZero (valueOf (ImageProperties.exposure properties)) in
  let contrast := orZero (valueOf (ImageProperties.contrast properties)) in
  let normalizedExposure := Rmax (-10) (Rmin 10 exposure) in
  let normalizedContrast := Rmax (-100) (Rmin 100 contrast) in
  ProcessingFactors.mk
    (Math_pow 2 (normalizedExposure / 2))
    (if normalizedContrast =? 100 then MAX_CONTRAST_FACTOR
     else Rmin MAX_CONTRAST_FACTOR (tan (((normalizedContrast + 100) * PI) / 400))).

(** [Math.max(0, Math.min(1, value * exposure * contrast))]; NaN stays NaN. *)
Definition applyFactor (factors : ProcessingFactors.t) (value : option R)
    : option R :=
  option_map
    (fun v =>
       Rmax 0 (Rmin 1 (v * ProcessingFactors.exposure factors
                         * ProcessingFactors.contrast factors)))
    value.

Definition applyFactors (point : ColorPoint.t (option R))
    (factors : ProcessingFactors.t) : ColorPoint.t (option R) :=
  ColorPoint.mk (applyFactor factors (ColorPoint.r point))
                (applyFactor factors (ColorPoint.g point))
                (applyFactor factors (ColorPoint.b point)).

(** The hue and saturation of the eight bands, in the order of the source. *)
Definition colorRangesOf (properties : ImageProperties.t) : list (R * R) :=
  [ (ImageProperties.redHue properties, ImageProperties.redSaturation properties);
    (ImageProperties.orangeHue properties, ImageProperties.orangeSaturation properties);
    (ImageProperties.yellowHue properties, ImageProperties.yellowSaturation properties);
    (ImageProperties.greenHue properties, ImageProperties.greenSaturation properties);
    (ImageProperties.aquaHue properties, ImageProperties.aquaSaturation properties);
    (ImageProperties.blueHue properties, ImageProperties.blueSaturation properties);
    (ImageProperties.purpleHue properties, ImageProperties.purpleSaturation properties);
    (ImageProperties.magentaHue properties, ImageProperties.magentaSaturation properties) ].

Definition calculateColorMatrixFromProperties (properties : ImageProperties.t)
    : Matrix3x3 :=
  fold_left
    (fun resultMatrix '(hue, saturation) =>
       if negb (hue =? 0) || negb (saturation =? 0)
       then multiplyMatrices resultMatrix
              (calculateHueSaturationMatrix hue saturation)
       else resultMatrix)
    (colorRangesOf properties) IDENTITY_MATRIX.

(** The table entry of the grid point [(r, g, b)]: the body of the innermost
    loop of [generateCUBELUT]. *)
Definition lutPoint (properties : ImageProperties.t) (r g b : nat)
    : ColorPoint.t (option R) :=
  let step := 1 / (INR LUT_SIZE - 1) in
  (* [colorMatrix || IDENTITY_MATRIX]: the matrix is an array, never falsy *)
  let finalColorMatrix := calculateColorMatrixFromProperties properties in
  let factors := calculateProcessingFactors properties in
  let point := ColorPoint.mk (INR r * step) (INR g * step) (INR b * step) in
  let point := applyColorMatrix point finalColorMatrix in
  let point := applyToneCurves point properties in
  applyFactors point factors.

(** [generateCUBELUT(properties, filename)]: the entries of the table in the
    order in which they are appended to the file, after its header; each is
    then printed by [formatLUTPoint].  It throws when a required property is
    missing. *)
Definition generateCUBELUT (properties : ImageProperties.t)
    : Outcome (list (ColorPoint.t (option R))) :=
  if validateImageProperties properties then
    Returns
      (flat_map
         (fun b =>
            flat_map
              (fun g => map (fun r => lutPoint properties r g b) (seq 0 LUT_SIZE))
              (seq 0 LUT_SIZE))
         (seq 0 LUT_SIZE))
  else Throws.

(** The two anchor points every list of tone points starts from. *)
Definition anchorPoints : list TonePoint.t :=
  [TonePoint.mk 0 0 1; TonePoint.mk 255 255 1].

(** A record with no adjustment and the default curve on every channel. *)
Definition neutralProperties : ImageProperties.t :=
  ImageProperties.mk
    (Some (Some 0)) (Some (Some 0))
    (Some (Some DEFAULT_TONE_CURVE)) (Some (Some DEFAULT_TONE_CURVE))
    (Some (Some DEFAULT_TONE_CURVE))
    0 0 0 0 0 0 0 0 0 0 0 0 0 0 0 0.

(** A record that drives values out of the unit interval before the clamp:
    the red band at saturation 100 gives the colour matrix negative entries
    and entries above 1, and an exposure of 2 doubles every value. *)
Definition overdrivenProperties : ImageProperties.t :=
  ImageProperties.mk
    (Some (Some 2)) (Some (Some 0))
    (Some (Some DEFAULT_TONE_CURVE)) (Some (Some DEFAULT_TONE_CURVE))
    (Some (Some DEFAULT_TONE_CURVE))
    0 100 0 0 0 0 0 0 0 0 0 0 0 0 0 0.

(** The lightness of a Lab value lies between 0 and 100. *)
Definition lightnessInRange (lab : LabColor.t) : Prop :=
  0 <= LabColor.l lab <= 100.

(** A component of a table entry that is a number between 0 and 1. *)
Definition inDomain (x : option R) : Prop :=
  exists v, x = Some v /\ 0 <= v <= 1.

(* ================================================================= *)
(** ** Channel statistics (types.ts) *)

Module SharpChannel.
Record t : Type := mk {
  mean : option R;
  stdev : option R;
  min : option R;
  max : option R
}.
End SharpChannel.

(** [const [r, g, b] = channels], once [channels.length] is at least 3. *)
Definition firstThree (channels : list SharpChannel.t)
    : option (SharpChannel.t * SharpChannel.t * SharpChannel.t) :=
  match channels with
  | r :: g :: b :: _ => Some (r, g, b)
  | _ => None
  end.

(** The numbers [x], [y], [z] when none of them is missing or 0, that is,
    when the test [!x || !y || !z] is false. *)
Definition truthy3 (x y z : option R) : option (R * R * R) :=
  if falsy x || falsy y || falsy z then None
  else Some (orZero x, orZero y, orZero z).

(** The means of the first three channels, when the guard
    [channels.length < 3] and the guard [!r?.mean || !g?.mean || !b?.mean]
    both let the call through. *)
Definition meansOf (channels : list SharpChannel.t) : option (R * R * R) :=
  rgb <- firstThree channels ;;
  let '(r, g, b) := rgb in
  truthy3 (SharpChannel.mean r) (SharpChannel.mean g) (SharpChannel.mean b).

Definition stdevsOf (channels : list SharpChannel.t) : option (R * R * R) :=
  rgb <- firstThree channels ;;
  let '(r, g, b) := rgb in
  truthy3 (SharpChannel.stdev r) (SharpChannel.stdev g) (SharpChannel.stdev b).

Definition minsOf (channels : list SharpChannel.t) : option (R * R * R) :=
  rgb <- firstThree channels ;;
  let '(r, g, b) := rgb in
  truthy3 (SharpChannel.min r) (SharpChannel.min g) (SharpChannel.min b).

Definition maxsOf (channels : list SharpChannel.t) : option (R * R * R) :=
  rgb <- firstThree channels ;;
  let '(r, g, b) := rgb in
  truthy3 (SharpChannel.max r) (SharpChannel.max g) (SharpChannel.max b).

(** [Math.max(...xs)] and [Math.min(...xs)]; [None] on the empty array, where
    they are minus and plus infinity. *)
Definition maxOfList (xs : list R) : option R :=
  match xs with
  | [] => None
  | x :: rest => Some (fold_left Rmax rest x)
  end.

Definition minOfList (xs : list R) : option R :=
  match xs with
  | [] => None
  | x :: rest => Some (fold_left Rmin rest x)
  end.

(* ================================================================= *)
(** ** Global colour estimators (color-analysis.ts) *)

(** In the estimators below [None] is a result that is not a finite number. *)

Definition calculateColorTemperature (channels : list SharpChannel.t) : option R :=
  match meansOf channels with
  | None => Some 5500
  | Some (r, g, b) =>
      blueRatio <- jsdiv b ((r + g) / 2) ;;
      Some (5500 + (blueRatio - 1) * 1000)
  end.

Definition calculateTint (channels : list SharpChannel.t) : option Z :=
  match meansOf channels with
  | None => Some 0%Z
  | Some (r, g, b) =>
      greenRatio <- jsdiv g ((r + b) / 2) ;;
      Some (Math_round ((greenRatio - 1) * 20))
  end.

(** [calculateSaturation]: the largest of three non-zero means is not zero,
    so its quotient has no zero divisor. *)
Definition calculateSaturation (channels : list SharpChannel.t) : Z :=
  match meansOf channels with
  | None => 0%Z
  | Some (r, g, b) =>
      let maxChannel := Rmax (Rmax r g) b in
      let minChannel := Rmin (Rmin r g) b in
      Math_round (((maxChannel - minChannel) / maxChannel) * 100)
  end.

Definition calculateVibrance (channels : list SharpChannel.t) : Z :=
  match meansOf channels with
  | None => 0%Z
  | Some (r, g, b) =>
      let avgSaturation := calculateSaturation channels in
      let maxChannel := Rmax (Rmax r g) b in
      let minChannel := Rmin (Rmin r g) b in
      let colorfulness := ((maxChannel - minChannel) / maxChannel) * 100 in
      Math_round (colorfulness - IZR avgSaturation)
  end.

(** The reducer of [calculateVignetteAmount]. *)
Definition vignetteStep (acc : option R) (channel : SharpChannel.t) : option R :=
  match SharpChannel.mean channel, SharpChannel.min channel with
  | Some centerWeight, Some edgeWeight =>
      a <- acc ;;
      q <- jsdiv (centerWeight - edgeWeight) centerWeight ;;
      Some (a + q)
  | _, _ => acc
  end.

Definition calculateVignetteAmount (channels : list SharpChannel.t) : option Z :=
  sum <- fold_left vignetteStep channels (Some 0) ;;
  edgeDarkening <- jsdiv sum (INR (length channels)) ;;
  Some (Math_round (edgeDarkening * 50)).

(* ================================================================= *)
(** ** Tonal estimators (tone-analysis.ts) *)

Definition calculateExposure (channels : list SharpChannel.t) : R :=
  match meansOf channels with
  | None => 0
  | Some (r, g, b) =>
      let meanLuminance := (r + g + b) / 3 in
      ((meanLuminance - 128) / 128) * 5
  end.

Definition calculateContrast (channels : list SharpChannel.t) : Z :=
  match stdevsOf channels with
  | None => 0%Z
  | Some (r, g, b) =>
      let stdDev := (r + g + b) / 3 in
      Math_round ((stdDev / 128) * 50)
  end.

Definition calculateBrightness (channels : list SharpChannel.t) : Z :=
  match meansOf channels with
  | None => 0%Z
  | Some (r, g, b) =>
      let meanLuminance := (r + g + b) / 3 in
      Math_round ((meanLuminance / 255) * 100)
  end.

Definition calculateShadows (channels : list SharpChannel.t) : option Z :=
  let shadowThreshold := 64 in
  let shadowValues :=
    map
      (fun channel =>
         match SharpChannel.mean channel with
         | Some m =>
             if m <? shadowThreshold
             then (shadowThreshold - m) / shadowThreshold
             else 0
         | None => 0
         end)
      channels in
  largest <- maxOfList shadowValues ;;
  Some (Math_round (largest * 50)).

Definition calculateHighlights (channels : list SharpChannel.t) : option Z :=
  let highlightThreshold := 192 in
  let highlightValues :=
    map
      (fun channel =>
         match SharpChannel.mean channel with
         | Some m =>
             if m >? highlightThreshold
             then (m - highlightThreshold) / (255 - highlightThreshold)
             else 0
         | None => 0
         end)
      channels in
  largest <- maxOfList highlightValues ;;
  Some (Math_round (largest * 50)).

(** The three split estimators round [base + (meanLuminance / 255 - 0.5) * 20].
    The rounded number sits near a half-integer for ordinary means, where the
    rounding error of the binary64 evaluation decides the result; and the
    three sums lie in different binades, so their errors differ.  The error
    is therefore a parameter [err] of these three functions: the source
    returns the value at the error of its own evaluation, exact arithmetic is
    [err = 0]. *)
Definition calculateParametricShadowSplit (channels : list SharpChannel.t)
    (err : R) : Z :=
  match meansOf channels with
  | None => 25%Z
  | Some (r, g, b) =>
      let meanLuminance := (r + g + b) / 3 in
      Math_round (25 + (meanLuminance / 255 - 0.5) * 20 + err)
  end.

Definition calculateParametricMidtoneSplit (channels : list SharpChannel.t)
    (err : R) : Z :=
  match meansOf channels with
  | None => 50%Z
  | Some (r, g, b) =>
      let meanLuminance := (r + g + b) / 3 in
      Math_round (50 + (meanLuminance / 255 - 0.5) * 20 + err)
  end.

Definition calculateParametricHighlightSplit (channels : list SharpChannel.t)
    (err : R) : Z :=
  match meansOf channels with
  | None => 75%Z
  | Some (r, g, b) =>
      let meanLuminance := (r + g + b) / 3 in
      Math_round (75 + (meanLuminance / 255 - 0.5) * 20 + err)
  end.

Definition calculateToneMapStrength (channels : list SharpChannel.t) : Z :=
  match meansOf channels, maxsOf channels, minsOf channels, stdevsOf channels with
  | Some _, Some (rmax, gmax, bmax), Some (rmin, gmin, bmin), Some (rs, gs, bs) =>
      let maxLum := Rmax (Rmax rmax gmax) bmax in
      let minLum := Rmin (Rmin rmin gmin) bmin in
      let dynamicRange := maxLum - minLum in
      let contrastVar := (rs + gs + bs) / 3 in
      let strength := Math_round ((dynamicRange / 255 + contrastVar / 128) * 50) in
      Z.min (Z.max strength 0) 100
  | _, _, _, _ => 0%Z
  end.

(** [channels.map((channel) => channel.min || 0)]. *)
Definition shadowColorsOf (channels : list SharpChannel.t) : list R :=
  map (fun channel => orZero (SharpChannel.min channel)) channels.

Definition calculateSplitToningShadowSaturation (channels : list SharpChannel.t)
    : option Z :=
  let shadowColors := shadowColorsOf channels in
  maxShadow <- maxOfList shadowColors ;;
  minShadow <- minOfList shadowColors ;;
  q <- jsdiv (maxShadow - minShadow) maxShadow ;;
  Some (Math_round (q * 100)).

(** Statistics of 8-bit samples: every value that is there lies between 0
    and 255, and a standard deviation is at most 128. *)
Definition eightBit (channel : SharpChannel.t) : Prop :=
  (forall m, SharpChannel.mean channel = Some m -> 0 <= m <= 255) /\
  (forall s, SharpChannel.stdev channel = Some s -> 0 <= s <= 128) /\
  (forall v, SharpChannel.min channel = Some v -> 0 <= v <= 255) /\
  (forall v, SharpChannel.max channel = Some v -> 0 <= v <= 255).

(** A channel of mean 128 and deviation 0: flat mid-gray. *)
Definition grayChannel : SharpChannel.t :=
  SharpChannel.mk (Some 128) (Some 0) (Some 128) (Some 128).

(** A channel whose samples are all 0. *)
Definition blackChannel : SharpChannel.t :=
  SharpChannel.mk (Some 0) (Some 0) (Some 0) (Some 0).

(** Statistics of a channel that spans the full range. *)
Definition fullChannel : SharpChannel.t :=
  SharpChannel.mk (Some 100) (Some 50) (Some 0) (Some 255).


(* ================================================================= *)
(** ** Reference behaviour of the lookup table *)

(** The band matrices applied one after the other, the last band first. *)
Definition applyBands (bands : list (R * R)) (point : ColorPoint.t R)
    : ColorPoint.t R :=
  fold_right
    (fun '(hue, saturation) q =>
       applyColorMatrix q (calculateHueSaturationMatrix hue saturation))
    point bands.

(** A record without adjustment: every band at hue 0 and saturation 0, an
    exposure and a contrast of 0 (or undefined), and on each channel a curve
    that is missing, invalid or the default one. *)
Definition neutral (properties : ImageProperties.t) : Prop :=
  Forall (fun band => band = (0, 0)) (colorRangesOf properties) /\
  orZero (valueOf (ImageProperties.exposure properties)) = 0 /\
  orZero (valueOf (ImageProperties.contrast properties)) = 0 /\
  effectiveCurve (valueOf (ImageProperties.toneCurveRed properties))
  = DEFAULT_TONE_CURVE /\
  effectiveCurve (valueOf (ImageProperties.toneCurveGreen properties))
  = DEFAULT_TONE_CURVE /\
  effectiveCurve (valueOf (ImageProperties.toneCurveBlue properties))
  = DEFAULT_TONE_CURVE.

(** The table that maps every grid point to itself. *)
Definition identityLUT : list (ColorPoint.t (option R)) :=
  flat_map
    (fun b =>
       flat_map
         (fun g =>
            map (fun r =>
                   ColorPoint.mk (Some (INR r / 31)) (Some (INR g / 31))
                                 (Some (INR b / 31)))
                (seq 0 LUT_SIZE))
         (seq 0 LUT_SIZE))
    (seq 0 LUT_SIZE).


(* ================================================================= *)
(** ** Matrices and curves of the XMP application (image-utils.ts,
       apply-xmp-core.ts) *)

(** [Math.trunc]: rounding towards zero. *)
Definition Math_trunc (x : R) : Z := if x <? 0 then Zceil x else Zfloor x.

(** [x % y] for a divisor that is not zero: the remainder of the division
    truncated towards zero; it has the sign of [x]. *)
Definition jsmod (x y : R) : R := x - y * IZR (Math_trunc (x / y)).

Definition hueToRGB (hue : R) : ColorPoint.t R :=
  let h := jsmod (jsmod hue 360 + 360) 360 / 60 in
  let c := 1 in
  let x := c * (1 - Rabs (jsmod h 2 - 1)) in
  if (h >=? 0) && (h <? 1) then ColorPoint.mk c x 0
  else if (h >=? 1) && (h <? 2) then ColorPoint.mk x c 0
  else if (h >=? 2) && (h <? 3) then ColorPoint.mk 0 c x
  else if (h >=? 3) && (h <? 4) then ColorPoint.mk 0 x c
  else if (h >=? 4) && (h <? 5) then ColorPoint.mk x 0 c
  else if (h >=? 5) && (h <=? 6) then ColorPoint.mk c 0 x
  else ColorPoint.mk 0 0 0.

Definition createSplitToningMatrix
    (shadowHue shadowSaturation highlightHue highlightSaturation balance : R)
    : Matrix3x3 :=
  let shadowColor := hueToRGB shadowHue in
  let highlightColor := hueToRGB highlightHue in
  let shadowStrength := (shadowSaturation / 100) * ((100 - balance) / 100) in
  let highlightStrength := (highlightSaturation / 100) * (balance / 100) in
  ( ( 1 + ColorPoint.r shadowColor * shadowStrength
        + ColorPoint.r highlightColor * highlightStrength,
      ColorPoint.g shadowColor * shadowStrength
        + ColorPoint.g highlightColor * highlightStrength,
      ColorPoint.b shadowColor * shadowStrength
        + ColorPoint.b highlightColor * highlightStrength ),
    ( ColorPoint.r shadowColor * shadowStrength
        + ColorPoint.r highlightColor * highlightStrength,
      1 + ColorPoint.g shadowColor * shadowStrength
        + ColorPoint.g highlightColor * highlightStrength,
      ColorPoint.b shadowColor * shadowStrength
        + ColorPoint.b highlightColor * highlightStrength ),
    ( ColorPoint.r shadowColor * shadowStrength
        + ColorPoint.r highlightColor * highlightStrength,
      ColorPoint.g shadowColor * shadowStrength
        + ColorPoint.g highlightColor * highlightStrength,
      1 + ColorPoint.b shadowColor * shadowStrength
        + ColorPoint.b highlightColor * highlightStrength ) ).

(** The argument of [createParametricCurve]: each property may be missing. *)
Module ParametricAdjustments.
Record t : Type := mk {
  parametricShadows : option R;
  parametricDarks : option R;
  parametricLights : option R;
  parametricHighlights : option R;
  parametricShadowSplit : option R;
  parametricMidtoneSplit : option R;
  parametricHighlightSplit : option R
}.
End ParametricAdjustments.

(** A destructuring default: [{ x = d } = object]. *)
Definition withDefault (d : R) (x : option R) : R :=
  match x with
  | Some v => v
  | None => d
  end.

(** The inner function [mapValue] of [createParametricCurve]; [None] is a
    NaN from a quotient by zero. *)
Definition mapValue (adjustments : ParametricAdjustments.t) (x : R) : option R :=
  let parametricShadows :=
    withDefault 0 (ParametricAdjustments.parametricShadows adjustments) in
  let parametricDarks :=
    withDefault 0 (ParametricAdjustments.parametricDarks adjustments) in
  let parametricLights :=
    withDefault 0 (ParametricAdjustments.parametricLights adjustments) in
  let parametricHighlights :=
    withDefault 0 (ParametricAdjustments.parametricHighlights adjustments) in
  let parametricShadowSplit :=
    withDefault 25 (ParametricAdjustments.parametricShadowSplit adjustments) in
  let parametricMidtoneSplit :=
    withDefault 50 (ParametricAdjustments.parametricMidtoneSplit adjustments) in
  let parametricHighlightSplit :=
    withDefault 75 (ParametricAdjustments.parametricHighlightSplit adjustments) in
  y <-
    (if x <=? parametricShadowSplit then
       let strength := parametricShadows / 100 in
       Some (x + x * strength)
     else if x <=? parametricMidtoneSplit then
       t <- jsdiv (x - parametricShadowSplit)
                  (parametricMidtoneSplit - parametricShadowSplit) ;;
       let strength := parametricDarks / 100 in
       Some (x + x * strength * (1 - t))
     else if x <=? parametricHighlightSplit then
       t <- jsdiv (x - parametricMidtoneSplit)
                  (parametricHighlightSplit - parametricMidtoneSplit) ;;
       let strength := parametricLights / 100 in
       Some (x + x * strength * t)
     else
       let strength := parametricHighlights / 100 in
       Some (x + x * strength)) ;;
  Some (IZR (Z.max 0 (Z.min 255 (Math_round y)))).

Definition createParametricCurve (adjustments : ParametricAdjustments.t)
    : option ToneCurve :=
  let parametricShadowSplit :=
    withDefault 25 (ParametricAdjustments.parametricShadowSplit adjustments) in
  let parametricMidtoneSplit :=
    withDefault 50 (ParametricAdjustments.parametricMidtoneSplit adjustments) in
  let parametricHighlightSplit :=
    withDefault 75 (ParametricAdjustments.parametricHighlightSplit adjustments) in
  y0 <- mapValue adjustments 0 ;;
  y1 <- mapValue adjustments parametricShadowSplit ;;
  y2 <- mapValue adjustments parametricMidtoneSplit ;;
  y3 <- mapValue adjustments parametricHighlightSplit ;;
  y4 <- mapValue adjustments 255 ;;
  Some [ [0; y0];
         [parametricShadowSplit; y1];
         [parametricMidtoneSplit; y2];
         [parametricHighlightSplit; y3];
         [255; y4] ].

(** The row that [applyXMPToImage] passes three times to [recomb] for the
    parametric adjustments. *)
Definition parametricRow (adjustments : ParametricAdjustments.t) : option Row3 :=
  parametricCurve <- createParametricCurve adjustments ;;
  convertToneCurveToMatrix (Some parametricCurve).

(** Adjustments with every property missing. *)
Definition noAdjustments : ParametricAdjustments.t :=
  ParametricAdjustments.mk None None None None None None None.

(* ================================================================= *)
(** ** Channel histogram (histogram-analysis.ts) *)

(** [sharp(buffer).stats()]: the statistics of the channels, or [None] when
    the result has no [channels]. *)
Class SharpStats (Buffer : Type) : Type :=
  stats : Buffer -> option (list SharpChannel.t).

(** In a [Histogram] the mean and the deviation are numbers that may be NaN
    ([None]). *)
Module Histogram.
Record t : Type := mk {
  counts : list Bin;
  total : nat;
  mean : option R;
  stdev : option R;
  peaks : list HistogramPeak.t
}.
End Histogram.

(** [peaks.sort((a, b) => b.height - a.height)]: a stable sort, the highest
    peak first. *)
Fixpoint insertByHeight (p : HistogramPeak.t) (sorted : list HistogramPeak.t)
    : list HistogramPeak.t :=
  match sorted with
  | [] => [p]
  | q :: rest =>
      if HistogramPeak.height p >=? HistogramPeak.height q
      then p :: q :: rest
      else q :: insertByHeight p rest
  end.

Definition sortByHeight (peaks : list HistogramPeak.t) : list HistogramPeak.t :=
  fold_right insertByHeight [] peaks.

(** The index of a byte. *)
Definition byteIndex (c : byte) : nat := N.to_nat (Byte.to_N c).

(** [getChannelHistogram(buffer, channelIndex)].  Every sample of the raw
    channel is a byte, so the test [value >= 0 && value < 256] passes.  The
    mean and the deviation are those of the statistics when they are there;
    otherwise they are computed, and are NaN for an empty channel or a
    negative variance.  With a NaN mean or deviation the significance of
    every candidate peak is NaN and no peak is kept. *)
Definition getChannelHistogram {Buffer : Type} `{Sharp Buffer} `{SharpStats Buffer}
    (buffer : Buffer) (channelIndex : nat) : Outcome Histogram.t :=
  match stats buffer with
  | None => Throws
  | Some channels =>
      match nth_error channels channelIndex with
      | None => Throws
      | Some channelStats =>
          match extractChannel buffer channelIndex with
          | None => Throws
          | Some channelData =>
              let counts :=
                fold_left (fun counts value => incrementBin counts (byteIndex value))
                          channelData (repeat (Some 0) 256) in
              let sum := fold_left (fun sum value => sum + byteR value) channelData 0 in
              let sumSquares :=
                fold_left (fun sum value => sum + byteR value * byteR value)
                          channelData 0 in
              let total := length channelData in
              let mean :=
                match SharpChannel.mean channelStats with
                | Some m => Some m
                | None => jsdiv sum (INR total)
                end in
              let stdev :=
                match SharpChannel.stdev channelStats with
                | Some s => Some s
                | None =>
                    m <- mean ;;
                    q <- jsdiv sumSquares (INR total) ;;
                    if q - m * m <? 0 then None else Some (sqrt (q - m * m))
                end in
              let smoothedCounts := smoothArray counts 2 in
              let found :=
                match mean, stdev with
                | Some m, Some s => findHistogramPeaks smoothedCounts (Some m) (Some s)
                | _, _ =>
                    if (length smoothedCounts <? 2)%nat then Throws else Returns []
                end in
              match found with
              | Throws => Throws
              | Returns peaks =>
                  Returns (Histogram.mk counts total mean stdev (sortByHeight peaks))
              end
          end
      end
  end.

(* ================================================================= *)
(** ** Tone points and tone curves (tone-analysis.ts) *)

(** The points that [findSignificantTonePointsFromHistogram] pushes for one
    peak: the main point and up to two shoulder points. *)
Definition peakTonePoints (peak : HistogramPeak.t) : list TonePoint.t :=
  let input := INR (HistogramPeak.position peak) in
  let output :=
    if input <? 128 then
      let shadowRecovery := Rmax 0 ((128 - input) * 0.3) in
      Rmax 0 (input + shadowRecovery * (1 - HistogramPeak.height peak))
    else
      let highlightRecovery := Rmax 0 ((input - 128) * 0.2) in
      Rmin 255 (input - highlightRecovery * (1 - HistogramPeak.height peak)) in
  let shoulderWidth := HistogramPeak.width peak in
  [TonePoint.mk input output (HistogramPeak.height peak)]
  ++ (if input - shoulderWidth >? 0
      then [TonePoint.mk (input - shoulderWidth) (output - shoulderWidth)
                         (HistogramPeak.height peak * 0.5)]
      else [])
  ++ (if input + shoulderWidth <? 255
      then [TonePoint.mk (input + shoulderWidth) (output + shoulderWidth)
                         (HistogramPeak.height peak * 0.5)]
      else []).

Definition findSignificantTonePointsFromHistogram (histogram : Histogram.t)
    : list TonePoint.t :=
  sortByInput (anchorPoints ++ flat_map peakTonePoints (Histogram.peaks histogram)).

(** [typeof x === "number"] for each of the four statistics of a channel. *)
Definition hasAllStatistics (channel : SharpChannel.t) : bool :=
  match SharpChannel.mean channel, SharpChannel.stdev channel,
        SharpChannel.min channel, SharpChannel.max channel with
  | Some _, Some _, Some _, Some _ => true
  | _, _, _, _ => false
  end.

Definition luminanceWeights : list R := [0.299; 0.587; 0.114].

(** The [reduce] of [calculateToneCurveFromPoints]: the points of every
    channel, their weights scaled by the luminance weight of the channel. *)
Definition luminancePointsOf (channelPoints : list (list TonePoint.t))
    : list TonePoint.t :=
  fold_left
    (fun acc '(index, points) =>
       let weight := nth index luminanceWeights 0 in
       acc ++ map (fun point =>
                     TonePoint.mk (TonePoint.input point) (TonePoint.output point)
                                  (TonePoint.weight point * weight))
                  points)
    (combine (seq 0 (length channelPoints)) channelPoints) [].

Definition calculateToneCurveFromPoints (channelPoints : list (list TonePoint.t))
    (channels : list SharpChannel.t) : ToneCurve :=
  let defaultCurve := [[0; 0]; [255; 255]] in
  if (length channels <? 3)%nat then defaultCurve
  else if negb (forallb hasAllStatistics channels) then defaultCurve
  else smoothToneCurve (luminancePointsOf channelPoints).

Definition calculateChannelToneCurveFromPoints (points : list TonePoint.t)
    : ToneCurve :=
  smoothToneCurve points.

Module ToneCurves.
Record t : Type := mk {
  toneCurve : ToneCurve;
  toneCurveRed : ToneCurve;
  toneCurveGreen : ToneCurve;
  toneCurveBlue : ToneCurve
}.
End ToneCurves.

(** [calculateAllToneCurves(channels, buffer)].  The three lists of points
    are arrays, so the test [!channelPoints[k]] never fires. *)
Definition calculateAllToneCurves {Buffer : Type} `{Sharp Buffer} `{SharpStats Buffer}
    (channels : list SharpChannel.t) (buffer : Buffer) : Outcome ToneCurves.t :=
  match getChannelHistogram buffer 0, getChannelHistogram buffer 1,
        getChannelHistogram buffer 2 with
  | Returns h0, Returns h1, Returns h2 =>
      let p0 := findSignificantTonePointsFromHistogram h0 in
      let p1 := findSignificantTonePointsFromHistogram h1 in
      let p2 := findSignificantTonePointsFromHistogram h2 in
      let channelPoints := [p0; p1; p2] in
      Returns
        (ToneCurves.mk
           (calculateToneCurveFromPoints channelPoints channels)
           (calculateChannelToneCurveFromPoints p0)
           (calculateChannelToneCurveFromPoints p1)
           (calculateChannelToneCurveFromPoints p2))
  | _, _, _ => Throws
  end.

(** A curve as the engine emits them: pairs, from input 0 to input 255 with
    strictly increasing inputs, outputs between 0 and 255, at most 20
    points. *)
Definition engineCurve (curve : ToneCurve) : Prop :=
  validateToneCurvePoints curve = true /\
  (2 <= length curve <= 20)%nat /\
  strictlyIncreasing (curveInputs curve) /\
  hd 0 (curveInputs curve) = 0 /\
  last (curveInputs curve) 0 = 255 /\
  Forall (fun point => 0 <= nth 1 point 0 <= 255) curve.

(* ================================================================= *)
(** ** From the image to the lookup table (extract-xmp-cube-core.ts) *)

(** The part of [extractXMPCubeFromImage] that leads to [cubeContent]: the
    statistics, the sixteen band estimates, the tone curves, the properties
    that the table reads, and the table.  The outer [None] stands for a band
    estimate that is NaN, which the record of properties cannot hold.  The
    calls that read the metadata and write the XMP text are left out. *)
Definition extractXMPCubeFromImage {Buffer : Type} `{Sharp Buffer} `{SharpStats Buffer}
    (buffer : Buffer) : option (Outcome (list (ColorPoint.t (option R)))) :=
  match stats buffer with
  | None => Some Throws
  | Some channels =>
      if (length channels <? 3)%nat then Some Throws
      else
        redHue <- calculateColorHue red buffer ;;
        orangeHue <- calculateColorHue orange buffer ;;
        yellowHue <- calculateColorHue yellow buffer ;;
        greenHue <- calculateColorHue green buffer ;;
        aquaHue <- calculateColorHue aqua buffer ;;
        blueHue <- calculateColorHue blue buffer ;;
        purpleHue <- calculateColorHue purple buffer ;;
        magentaHue <- calculateColorHue magenta buffer ;;
        redSaturation <- calculateColorSaturation red buffer ;;
        orangeSaturation <- calculateColorSaturation orange buffer ;;
        yellowSaturation <- calculateColorSaturation yellow buffer ;;
        greenSaturation <- calculateColorSaturation green buffer ;;
        aquaSaturation <- calculateColorSaturation aqua buffer ;;
        blueSaturation <- calculateColorSaturation blue buffer ;;
        purpleSaturation <- calculateColorSaturation purple buffer ;;
        magentaSaturation <- calculateColorSaturation magenta buffer ;;
        match calculateAllToneCurves channels buffer with
        | Throws => Some Throws
        | Returns curves =>
            let imageProperties :=
              ImageProperties.mk
                (Some (Some (calculateExposure channels)))
                (Some (Some (IZR (calculateContrast channels))))
                (Some (Some (ToneCurves.toneCurveRed curves)))
                (Some (Some (ToneCurves.toneCurveGreen curves)))
                (Some (Some (ToneCurves.toneCurveBlue curves)))
                (IZR redHue) (IZR redSaturation)
                (IZR orangeHue) (IZR orangeSaturation)
                (IZR yellowHue) (IZR yellowSaturation)
                (IZR greenHue) (IZR greenSaturation)
                (IZR aquaHue) (IZR aquaSaturation)
                (IZR blueHue) (IZR blueSaturation)
                (IZR purpleHue) (IZR purpleSaturation)
                (IZR magentaHue) (IZR magentaSaturation) in
            Some (generateCUBELUT imageProperties)
        end
  end.

(** An image given by what the decoder finds in it: the raw planes of its
    channels and their statistics. *)
Module DecodedImage.
Record t : Type := mk {
  planes : list (list byte);
  channels : option (list SharpChannel.t)
}.
End DecodedImage.

#[export] Instance decodedPlanes : Sharp DecodedImage.t :=
  fun image k => nth_error (DecodedImage.planes image) k.

#[export] Instance decodedStats : SharpStats DecodedImage.t :=
  DecodedImage.channels.

(** A picture of two pixels, one dark and one light. *)
Definition twoPixels : DecodedImage.t :=
  DecodedImage.mk
    [[x10; xf0]; [x20; xe0]; [x30; xd0]]
    (Some [SharpChannel.mk (Some 128) (Some 112) (Some 16) (Some 240);
           SharpChannel.mk (Some 128) (Some 96) (Some 32) (Some 224);
           SharpChannel.mk (Some 128) (Some 80) (Some 48) (Some 208)]).

(** The number of samples of a channel whose value is [v]. *)
Definition occurrences (v : nat) (channelData : list byte) : nat :=
  length (filter (fun value => (byteIndex value =? v)%nat) channelData).

(** The order of the peaks of a histogram: the higher peak first. *)
Definition byHeight (p q : HistogramPeak.t) : Prop :=
  HistogramPeak.height q <= HistogramPeak.height p.

(** The order of a list of tone points: the smaller input first. *)
Definition byInput (p q : TonePoint.t) : Prop :=
  TonePoint.input p <= TonePoint.input q.

(* ================================================================= *)
(** * Properties *)

(** ** The numeric library *)

Lemma Rgtb_true x y : (x >? y) = true <-> x > y.
Proof. unfold Rgtb; destruct (Rlt_dec y x); split; (lra || discriminate || auto). Qed.

Lemma Rltb_true x y : (x <? y) = true <-> x < y.
Proof. unfold Rltb; destruct (Rlt_dec x y); split; (lra || discriminate || auto). Qed.

Lemma Rgeb_true x y : (x >=? y) = true <-> x >= y.
Proof. unfold Rgeb; destruct (Rle_dec y x); split; (lra || discriminate || auto). Qed.

Lemma Rleb_true x y : (x <=? y) = true <-> x <= y.
Proof. unfold Rleb; destruct (Rle_dec x y); split; (lra || discriminate || auto). Qed.

Lemma Rgtb_false x y : (x >? y) = false <-> x <= y.
Proof. unfold Rgtb; destruct (Rlt_dec y x); split; (lra || discriminate || auto). Qed.

Lemma Rltb_false x y : (x <? y) = false <-> y <= x.
Proof. unfold Rltb; destruct (Rlt_dec x y); split; (lra || discriminate || auto). Qed.

Lemma Rgeb_false x y : (x >=? y) = false <-> x < y.
Proof. unfold Rgeb; destruct (Rle_dec y x); split; (lra || discriminate || auto). Qed.

Lemma Rleb_false x y : (x <=? y) = false <-> y < x.
Proof. unfold Rleb; destruct (Rle_dec x y); split; (lra || discriminate || auto). Qed.

Lemma Reqb_true x y : (x =? y) = true <-> x = y.
Proof. unfold Reqb; destruct (Req_dec_T x y); split; (congruence || discriminate || auto). Qed.

Lemma Reqb_false x y : (x =? y) = false <-> x <> y.
Proof. unfold Reqb; destruct (Req_dec_T x y); split; (congruence || discriminate || auto). Qed.

(** Decides the comparisons of the goal that linear arithmetic settles. *)
Ltac cmp :=
  repeat match goal with
         | |- context [?x >? ?y] =>
             first [ replace (x >? y) with true by (symmetry; apply Rgtb_true; lra)
                   | replace (x >? y) with false by (symmetry; apply Rgtb_false; lra) ]
         | |- context [?x <? ?y] =>
             first [ replace (x <? y) with true by (symmetry; apply Rltb_true; lra)
                   | replace (x <? y) with false by (symmetry; apply Rltb_false; lra) ]
         | |- context [?x >=? ?y] =>
             first [ replace (x >=? y) with true by (symmetry; apply Rgeb_true; lra)
                   | replace (x >=? y) with false by (symmetry; apply Rgeb_false; lra) ]
         | |- context [?x <=? ?y] =>
             first [ replace (x <=? y) with true by (symmetry; apply Rleb_true; lra)
                   | replace (x <=? y) with false by (symmetry; apply Rleb_false; lra) ]
         | |- context [?x =? ?y] =>
             first [ replace (x =? y) with true by (symmetry; apply Reqb_true; lra)
                   | replace (x =? y) with false by (symmetry; apply Reqb_false; lra) ]
         end.

Lemma Rdiv_between (x y k : R) :
  0 < y -> 0 <= x <= k * y -> 0 <= x / y <= k.
Proof.
  intros Hy [Hlo Hhi].
  assert (Hi : 0 < / y) by now apply Rinv_0_lt_compat.
  unfold Rdiv. split.
  - apply Rmult_le_pos; lra.
  - apply Rmult_le_reg_r with y; [assumption |].
    rewrite Rmult_assoc, Rinv_l by lra. lra.
Qed.

(** ** Matrices *)

(** C8: the identity matrix is neutral for [multiplyMatrices] on both sides:
    for every 3x3 matrix [m], [multiplyMatrices IDENTITY_MATRIX m = m] and
    [multiplyMatrices m IDENTITY_MATRIX = m], exactly. *)
Theorem multiplyMatrices_identity (m : Matrix3x3) :
  multiplyMatrices IDENTITY_MATRIX m = m /\
  multiplyMatrices m IDENTITY_MATRIX = m.
Proof.
  destruct m as [[[[m00 m01] m02] [[m10 m11] m12]] [[m20 m21] m22]].
  unfold multiplyMatrices, IDENTITY_MATRIX, at_; cbn [nth3 fst snd].
  split; repeat apply f_equal2; ring.
Qed.

(** ** Hue angle *)

Lemma Math_atan2_bound (y x : R) : - PI < Math_atan2 y x <= PI.
Proof.
  pose proof PI_RGT_0 as Hpi.
  pose proof (atan_bound (y / x)) as Hb.
  unfold Math_atan2.
  destruct (Rlt_dec 0 x) as [Hx | Hx]; [lra |].
  destruct (Rlt_dec x 0) as [Hx' | Hx'].
  - destruct (Rle_dec 0 y) as [Hy | Hy].
    + assert (Hq : y / x <= 0).
      { unfold Rdiv. assert (/ x < 0) by now apply Rinv_lt_0_compat. nra. }
      assert (atan (y / x) <= 0).
      { destruct Hq as [Hq | Hq].
        - apply atan_increasing in Hq. rewrite atan_0 in Hq. lra.
        - rewrite Hq, atan_0. lra. }
      lra.
    + assert (Hq : 0 < y / x).
      { unfold Rdiv. assert (/ x < 0) by now apply Rinv_lt_0_compat. nra. }
      apply atan_increasing in Hq. rewrite atan_0 in Hq. lra.
  - destruct (Rlt_dec 0 y); [lra |]. destruct (Rlt_dec y 0); lra.
Qed.

Lemma Math_atan2_PI_iff (y x : R) : Math_atan2 y x = PI <-> x < 0 /\ y = 0.
Proof.
  pose proof PI_RGT_0 as Hpi.
  pose proof (atan_bound (y / x)) as Hb.
  unfold Math_atan2.
  destruct (Rlt_dec 0 x) as [Hx | Hx]; [split; lra |].
  destruct (Rlt_dec x 0) as [Hx' | Hx'].
  - destruct (Rle_dec 0 y) as [Hy | Hy].
    + split.
      * intros He. split; [assumption |].
        destruct Hy as [Hy | Hy]; [| now symmetry].
        assert (Hq : y / x < 0).
        { unfold Rdiv. assert (/ x < 0) by now apply Rinv_lt_0_compat. nra. }
        apply atan_increasing in Hq. rewrite atan_0 in Hq. lra.
      * intros [_ ->]. unfold Rdiv. rewrite Rmult_0_l, atan_0. lra.
    + split; lra.
  - destruct (Rlt_dec 0 y); [split; lra |]. destruct (Rlt_dec y 0); split; lra.
Qed.

Lemma Math_atan2_0_0 : Math_atan2 0 0 = 0.
Proof.
  unfold Math_atan2.
  destruct (Rlt_dec 0 0); [lra |]. destruct (Rlt_dec 0 0); [lra | reflexivity].
Qed.

Lemma hueFromLab_scale (t : R) : (t * 180) / PI + 180 = 180 * (t / PI + 1).
Proof. pose proof PI_RGT_0. field. lra. Qed.

Lemma hueFromLab_bound (a b : R) : 0 < hueFromLab a b <= 360.
Proof.
  pose proof PI_RGT_0 as Hpi.
  pose proof (Math_atan2_bound b a) as [Hlo Hhi].
  unfold hueFromLab. rewrite hueFromLab_scale.
  assert (Hk : -1 < Math_atan2 b a / PI <= 1).
  { split.
    - apply Rmult_lt_reg_r with PI; [assumption |].
      unfold Rdiv. rewrite Rmult_assoc, Rinv_l by lra. lra.
    - apply Rmult_le_reg_r with PI; [assumption |].
      unfold Rdiv. rewrite Rmult_assoc, Rinv_l by lra. lra. }
  lra.
Qed.

Lemma hueFromLab_360_iff (a b : R) : hueFromLab a b = 360 <-> a < 0 /\ b = 0.
Proof.
  pose proof PI_RGT_0 as Hpi.
  rewrite <- Math_atan2_PI_iff.
  unfold hueFromLab. rewrite hueFromLab_scale.
  split.
  - intros He.
    assert (Hk : Math_atan2 b a / PI = 1) by lra.
    apply (f_equal (fun v => v * PI)) in Hk.
    unfold Rdiv in Hk. rewrite Rmult_assoc, Rinv_l in Hk by lra. lra.
  - intros ->. unfold Rdiv. rewrite Rinv_r by lra. lra.
Qed.

Lemma hueFromLab_0_0 : hueFromLab 0 0 = 180.
Proof.
  unfold hueFromLab. rewrite Math_atan2_0_0. unfold Rdiv.
  rewrite !Rmult_0_l. lra.
Qed.

(** C1 (as the code has it): for every chrominance pair [(a, b)] the hue
    [atan2(b, a) * 180 / PI + 180] lies in the closed interval from 0 to 360;
    it is 360 exactly when [a < 0] and [b = 0], and strictly below 360
    otherwise; the achromatic pair [a = b = 0] has hue 180. *)
Theorem hueFromLab_closed_range (a b : R) :
  0 <= hueFromLab a b <= 360 /\
  (hueFromLab a b = 360 <-> a < 0 /\ b = 0) /\
  (~ (a < 0 /\ b = 0) <-> hueFromLab a b < 360) /\
  hueFromLab 0 0 = 180.
Proof.
  pose proof (hueFromLab_bound a b) as [Hlo Hhi].
  pose proof (hueFromLab_360_iff a b) as H360.
  split; [lra |]. split; [assumption |]. split.
  - split.
    + intros Hn. destruct Hhi as [Hlt | He]; [assumption | tauto].
    + intros Hlt Hab. apply H360 in Hab. lra.
  - apply hueFromLab_0_0.
Qed.

(** C1 fails as stated: at [a = -1], [b = 0] the hue is 360, which is not
    strictly below 360. *)
Lemma hueFromLab_not_below_360 : ~ (0 <= hueFromLab (-1) 0 < 360).
Proof.
  assert (H : hueFromLab (-1) 0 = 360) by (apply hueFromLab_360_iff; lra).
  rewrite H. lra.
Qed.

(** ** Hue bands *)

Lemma inRange_wrap (range : ColorRange.t) (hue : R) :
  ColorRange.start range > ColorRange.end_ range ->
  (inRange range hue = true <->
   hue >= ColorRange.start range \/ hue <= ColorRange.end_ range).
Proof.
  intros Hw. unfold inRange.
  apply Rgtb_true in Hw. rewrite Hw.
  rewrite orb_true_iff, Rgeb_true, Rleb_true. tauto.
Qed.

Lemma inRange_plain (range : ColorRange.t) (hue : R) :
  ~ ColorRange.start range > ColorRange.end_ range ->
  (inRange range hue = true <->
   hue >= ColorRange.start range /\ hue <= ColorRange.end_ range).
Proof.
  intros Hw. unfold inRange.
  assert (Hf : (ColorRange.start range >? ColorRange.end_ range) = false)
    by (apply Rgtb_false; lra).
  rewrite Hf, andb_true_iff, Rgeb_true, Rleb_true. tauto.
Qed.

(** C6: membership of a hue in a band is wrap-aware.  For a range with
    [start > end] a hue is in range iff [hue >= start] or [hue <= end];
    otherwise iff [hue >= start] and [hue <= end].  For the red range
    (345 to 15) the hues 350 and 10 are in range and the hue 200 is not. *)
Theorem inRange_wrap_aware :
  (forall (range : ColorRange.t) (hue : R),
      inRange range hue = true <->
      (ColorRange.start range > ColorRange.end_ range /\
       (hue >= ColorRange.start range \/ hue <= ColorRange.end_ range)) \/
      (~ ColorRange.start range > ColorRange.end_ range /\
       hue >= ColorRange.start range /\ hue <= ColorRange.end_ range)) /\
  COLOR_RANGES red = ColorRange.mk 345 15 0 /\
  inRange (COLOR_RANGES red) 350 = true /\
  inRange (COLOR_RANGES red) 10 = true /\
  inRange (COLOR_RANGES red) 200 = false.
Proof.
  split.
  - intros range hue.
    destruct (Rgt_dec (ColorRange.start range) (ColorRange.end_ range)) as [Hw | Hw].
    + rewrite (inRange_wrap range hue Hw). tauto.
    + rewrite (inRange_plain range hue Hw). tauto.
  - split; [reflexivity |].
    assert (Hw : ColorRange.start (COLOR_RANGES red) > ColorRange.end_ (COLOR_RANGES red))
      by (simpl; lra).
    repeat split.
    + apply (inRange_wrap _ _ Hw). simpl. lra.
    + apply (inRange_wrap _ _ Hw). simpl. lra.
    + destruct (inRange (COLOR_RANGES red) 200) eqn:E; [| reflexivity].
      apply (inRange_wrap _ _ Hw) in E. simpl in E. lra.
Qed.

(** ** Lightness of a pixel *)

Lemma byteR_range (c : byte) : 0 <= byteR c <= 255.
Proof.
  unfold byteR.
  pose proof (Byte.to_N_bounded c) as Hb.
  split; apply IZR_le; lia.
Qed.

Lemma Math_pow_1_l (y : R) : Math_pow 1 y = 1.
Proof. unfold Math_pow, Rpower. rewrite ln_1, Rmult_0_r. apply exp_0. Qed.

Lemma Math_pow_unit (x y : R) : 0 < x <= 1 -> 0 <= y -> 0 < Math_pow x y <= 1.
Proof.
  intros Hx Hy. split.
  - unfold Math_pow, Rpower. apply exp_pos.
  - rewrite <- (Math_pow_1_l y). unfold Math_pow.
    apply Rle_Rpower_l; [assumption | lra].
Qed.

Lemma Math_pow_cube_root (x : R) : 0 < x -> Math_pow (x * x * x) (1 / 3) = x.
Proof.
  intros Hx. unfold Math_pow.
  replace (x * x * x) with (x ^ 3) by ring.
  rewrite <- (Rpower_pow 3 x Hx), Rpower_mult.
  replace (INR 3 * (1 / 3)) with 1 by (simpl; lra).
  now apply Rpower_1.
Qed.

Lemma gammaDecode_unit (c : R) : 0 <= c <= 1 -> 0 <= gammaDecode c <= 1.
Proof.
  intros Hc. unfold gammaDecode.
  destruct (c >? 0.04045) eqn:E.
  - apply Rgtb_true in E.
    assert (Hb : 0 < (c + 0.055) / 1.055 <= 1).
    { split.
      - apply Rdiv_lt_0_compat; lra.
      - apply Rmult_le_reg_r with 1.055; [lra |].
        unfold Rdiv. rewrite Rmult_assoc, Rinv_l by lra. lra. }
    pose proof (Math_pow_unit _ 2.4 Hb ltac:(lra)). lra.
  - apply Rgtb_false in E. lra.
Qed.

Lemma labF_unit (t : R) : 0 <= t <= 1 -> 16 / 116 <= labF t <= 1.
Proof.
  intros Ht. unfold labF.
  destruct (t >? 0.008856) eqn:E.
  - apply Rgtb_true in E. split.
    + set (c := 16 / 116).
      assert (Hc : 0 < c) by (unfold c; lra).
      rewrite <- (Math_pow_cube_root c Hc). unfold Math_pow.
      apply Rle_Rpower_l; [lra |].
      split; [unfold c; lra |]. unfold c. lra.
    + apply (Math_pow_unit t (1 / 3)); lra.
  - apply Rgtb_false in E. lra.
Qed.

Lemma rgbToLab_l_range (r g b : R) :
  0 <= r <= 255 -> 0 <= g <= 255 -> 0 <= b <= 255 ->
  0 <= LabColor.l (rgbToLab r g b) <= 100.
Proof.
  intros Hr Hg Hb. unfold rgbToLab. cbn [LabColor.l].
  pose proof (gammaDecode_unit (r / 255) ltac:(lra)) as Hrr.
  pose proof (gammaDecode_unit (g / 255) ltac:(lra)) as Hgg.
  pose proof (gammaDecode_unit (b / 255) ltac:(lra)) as Hbb.
  set (rr := gammaDecode (r / 255)) in *.
  set (gg := gammaDecode (g / 255)) in *.
  set (bb := gammaDecode (b / 255)) in *.
  assert (Hy : 0 <= (rr * 0.2126 + gg * 0.7152 + bb * 0.0722) * 100 / 100.0 <= 1) by lra.
  pose proof (labF_unit _ Hy). lra.
Qed.

Lemma luminanceWeight_unit (lab : LabColor.t) :
  0 <= LabColor.l lab <= 100 -> 0 <= luminanceWeight lab <= 1.
Proof.
  intros Hl. unfold luminanceWeight.
  assert (0 <= Rabs (LabColor.l lab - 50) <= 50).
  { split; [apply Rabs_pos |]. apply Rabs_le. lra. }
  lra.
Qed.

Lemma hueWeight_unit (lab : LabColor.t) : 0 <= hueWeight lab <= 1.
Proof.
  unfold hueWeight. split.
  - apply Rmin_glb; [lra |]. unfold chroma.
    pose proof (sqrt_pos (LabColor.a lab * LabColor.a lab + LabColor.b lab * LabColor.b lab)).
    lra.
  - apply Rmin_l.
Qed.

Create HintDb fractions.

#[local] Hint Resolve byteR_range rgbToLab_l_range luminanceWeight_unit
  hueWeight_unit : fractions.

(** ** The pixel loop and the means *)

Lemma fold_left_invariant {A B : Type} (P : A -> Prop) (f : A -> B -> A)
    (xs : list B) (init : A) :
  P init -> (forall acc x, In x xs -> P acc -> P (f acc x)) ->
  P (fold_left f xs init).
Proof.
  revert init. induction xs as [| x xs IH]; intros init Hinit Hstep; simpl.
  - assumption.
  - apply IH.
    + apply Hstep; [now left | assumption].
    + intros acc y Hy. apply Hstep. now right.
Qed.

Lemma fold_left_fixed {A B : Type} (f : A -> B -> A) (xs : list B) (init : A) :
  (forall x, In x xs -> f init x = init) -> fold_left f xs init = init.
Proof.
  intros Hfix. apply (fold_left_invariant (fun acc => acc = init)); [reflexivity |].
  intros acc x Hx ->. now apply Hfix.
Qed.

Lemma fold_left_grows {A B C : Type} (f : list A * C -> B -> list A * C)
    (xs : list B) (init : list A * C) :
  (forall acc x, (length (fst (f acc x)) <= S (length (fst acc)))%nat) ->
  (length (fst (fold_left f xs init)) <= length (fst init) + length xs)%nat.
Proof.
  intros Hstep. revert init.
  induction xs as [| x xs IH]; intros init; simpl; [lia |].
  specialize (IH (f init x)). specialize (Hstep init x). lia.
Qed.

Lemma scanPixels_no_match (range : ColorRange.t) (ch0 ch1 ch2 : list byte) :
  (forall i r g b,
      nth_error ch0 i = Some r -> nth_error ch1 i = Some g ->
      nth_error ch2 i = Some b ->
      inRange range (hueOf (rgbToLab (byteR r) (byteR g) (byteR b))) = false) ->
  scanPixels range ch0 ch1 ch2 = ([], repeat (Some 0) 360).
Proof.
  intros Hout. unfold scanPixels. apply fold_left_fixed.
  intros i _.
  destruct (nth_error ch0 i) as [r |] eqn:E0; [| reflexivity].
  destruct (nth_error ch1 i) as [g |] eqn:E1; [| reflexivity].
  destruct (nth_error ch2 i) as [b |] eqn:E2; [| reflexivity].
  now rewrite (Hout i r g b E0 E1 E2).
Qed.

Lemma scanPixels_lightness (range : ColorRange.t) (ch0 ch1 ch2 : list byte) :
  Forall lightnessInRange (fst (scanPixels range ch0 ch1 ch2)).
Proof.
  unfold scanPixels.
  apply (fold_left_invariant (fun acc => Forall lightnessInRange (fst acc))).
  - constructor.
  - intros [pixels histogram] i _ Hacc. simpl in Hacc.
    destruct (nth_error ch0 i) as [r |]; [| assumption].
    destruct (nth_error ch1 i) as [g |]; [| assumption].
    destruct (nth_error ch2 i) as [b |]; [| assumption].
    destruct (inRange range _); [| assumption].
    simpl. apply Forall_app. split; [assumption |].
    constructor; [| constructor].
    unfold lightnessInRange. auto with fractions.
Qed.

Lemma scanPixels_length (range : ColorRange.t) (ch0 ch1 ch2 : list byte) :
  (length (fst (scanPixels range ch0 ch1 ch2)) <= length ch0)%nat.
Proof.
  unfold scanPixels.
  match goal with
  | |- context [fold_left ?f ?xs ?init] =>
      pose proof (fold_left_grows f xs init) as Hg
  end.
  rewrite length_seq in Hg. simpl in Hg. apply Hg.
  intros [pixels histogram] i.
  destruct (nth_error ch0 i) as [r |]; [| simpl; lia].
  destruct (nth_error ch1 i) as [g |]; [| simpl; lia].
  destruct (nth_error ch2 i) as [b |]; [| simpl; lia].
  destruct (inRange range _); simpl; [| lia].
  rewrite length_app. simpl. lia.
Qed.

Lemma labSum_l_bound (pixels : list LabColor.t) :
  Forall lightnessInRange pixels ->
  0 <= LabColor.l (labSum pixels) <= 100 * INR (length pixels).
Proof.
  intros Hall. unfold labSum.
  assert (Hgen : forall acc,
             LabColor.l acc
             <= LabColor.l
                  (fold_left
                     (fun acc lab =>
                        LabColor.mk (LabColor.l acc + LabColor.l lab)
                                    (LabColor.a acc + LabColor.a lab)
                                    (LabColor.b acc + LabColor.b lab))
                     pixels acc)
             <= LabColor.l acc + 100 * INR (length pixels)).
  { induction Hall as [| lab rest Hlab _ IH]; intros acc.
    - simpl. lra.
    - cbn [fold_left]. rewrite length_cons, S_INR.
      specialize (IH (LabColor.mk (LabColor.l acc + LabColor.l lab)
                                  (LabColor.a acc + LabColor.a lab)
                                  (LabColor.b acc + LabColor.b lab))).
      cbn [LabColor.l] in IH. unfold lightnessInRange in Hlab. lra. }
  specialize (Hgen (LabColor.mk 0 0 0)). cbn [LabColor.l] in Hgen. lra.
Qed.

Lemma jsdiv_some (x y : R) : y <> 0 -> jsdiv x y = Some (x / y).
Proof. intros Hy. unfold jsdiv. now destruct (Req_dec_T y 0). Qed.

Lemma labMean_nonempty (pixels : list LabColor.t) :
  pixels <> [] -> Forall lightnessInRange pixels ->
  exists mean, labMean pixels = Some mean /\ lightnessInRange mean.
Proof.
  intros Hne Hall.
  assert (Hn : 0 < INR (length pixels)).
  { apply lt_0_INR. destruct pixels; [contradiction | simpl; lia]. }
  unfold labMean. rewrite !jsdiv_some by lra. cbn [bind].
  eexists. split; [reflexivity |].
  unfold lightnessInRange. cbn [LabColor.l].
  pose proof (labSum_l_bound pixels Hall) as [Hlo Hhi].
  apply Rdiv_between; [assumption | lra].
Qed.

Lemma peakLab_some (pixels : list LabColor.t) (mean : LabColor.t)
    (peak : HistogramPeak.t) :
  Forall lightnessInRange pixels -> lightnessInRange mean ->
  exists lab, peakLab pixels mean peak = Some lab /\ lightnessInRange lab.
Proof.
  intros Hall Hmean. unfold peakLab.
  match goal with |- context [filter ?f pixels] => set (keep := f) end.
  destruct (filter keep pixels) as [| p ps] eqn:E.
  - now exists mean.
  - apply labMean_nonempty; [discriminate |].
    rewrite <- E. apply Forall_forall. intros lab Hin.
    apply filter_In in Hin. rewrite Forall_forall in Hall. now apply Hall.
Qed.

Lemma mapM_peakLab_some (pixels : list LabColor.t) (mean : LabColor.t)
    (histogramPeaks : list HistogramPeak.t) :
  Forall lightnessInRange pixels -> lightnessInRange mean ->
  exists peaks,
    mapM (peakLab pixels mean) histogramPeaks = Some peaks /\
    Forall lightnessInRange peaks.
Proof.
  intros Hall Hmean.
  induction histogramPeaks as [| peak rest (peaks & Hrest & Hpeaks)]; simpl.
  - exists []. now split.
  - destruct (peakLab_some pixels mean peak Hall Hmean) as (lab & -> & Hlab).
    rewrite Hrest. cbn [bind]. exists (lab :: peaks). split; [reflexivity |].
    now constructor.
Qed.

(** ** Histogram peaks *)

Lemma fold_left_Rmax_upper (rest : list R) (acc : R) :
  acc <= fold_left Rmax rest acc /\
  forall x, In x rest -> x <= fold_left Rmax rest acc.
Proof.
  revert acc. induction rest as [| h rest IH]; intros acc; simpl.
  - split; [lra | contradiction].
  - destruct (IH (Rmax acc h)) as [Hacc Hin].
    pose proof (Rmax_l acc h). pose proof (Rmax_r acc h).
    split; [lra |].
    intros x [<- | Hx]; [lra | now apply Hin].
Qed.

Lemma maxHeightOf_upper (histogram : list R) (i : nat) :
  (i < length histogram)%nat -> nth i histogram 0 <= maxHeightOf histogram.
Proof.
  intros Hi. destruct histogram as [| h0 rest]; [simpl in Hi; lia |].
  unfold maxHeightOf.
  destruct (fold_left_Rmax_upper rest h0) as [Hh0 Hrest].
  destruct i as [| i]; simpl; [assumption |].
  apply Hrest, nth_In. simpl in Hi. lia.
Qed.

(** A cell above one percent of the maximum is divided by a positive maximum,
    and the quotient is a fraction. *)
Lemma peak_height_unit (current maxHeight : R) :
  current > maxHeight * 0.01 -> current <= maxHeight ->
  0 < maxHeight /\ 0 <= current / maxHeight <= 1.
Proof.
  intros Hmin Hmax.
  assert (Hpos : 0 < maxHeight) by lra.
  split; [assumption |]. apply Rdiv_between; lra.
Qed.

Lemma derivativePeak_height (histogram : list R) (mean stdev : R) (i : nat)
    (peak : HistogramPeak.t) :
  (i < length histogram)%nat ->
  In peak (derivativePeak histogram (maxHeightOf histogram) mean stdev i) ->
  0 <= HistogramPeak.height peak <= 1.
Proof.
  intros Hi. unfold derivativePeak.
  destruct (nth i histogram 0 >? maxHeightOf histogram * 0.01) eqn:Emin;
    [| contradiction].
  apply Rgtb_true in Emin.
  pose proof (peak_height_unit _ _ Emin (maxHeightOf_upper histogram i Hi)) as [_ Hu].
  match goal with |- In _ (if ?c then _ else _) -> _ => destruct c end;
    [| contradiction].
  destruct (jsdiv _ stdev) as [q |]; [| contradiction].
  match goal with |- In _ (if ?c then _ else _) -> _ => destruct c end;
    [| contradiction].
  intros [<- | []]. exact Hu.
Qed.

Lemma localPeak_height (histogram : list R) (i : nat) (peak : HistogramPeak.t) :
  (i < length histogram)%nat ->
  In peak (localPeak histogram (maxHeightOf histogram) i) ->
  0 <= HistogramPeak.height peak <= 1.
Proof.
  intros Hi. unfold localPeak.
  destruct (nth i histogram 0 >? maxHeightOf histogram * 0.01) eqn:Emin;
    [| contradiction].
  apply Rgtb_true in Emin.
  pose proof (peak_height_unit _ _ Emin (maxHeightOf_upper histogram i Hi)) as [_ Hu].
  match goal with |- In _ (if ?c then _ else _) -> _ => destruct c end;
    [| contradiction].
  match goal with |- context [fold_left ?f ?w (0, 0)] =>
    destruct (fold_left f w (0, 0)) as [localSum localCount] end.
  destruct (localCount >? 0); [| contradiction].
  intros [<- | []]. exact Hu.
Qed.

Lemma findHistogramPeaks_height (histogram : list R) (mean stdev : option R)
    (peaks : list HistogramPeak.t) (peak : HistogramPeak.t) :
  findHistogramPeaks histogram mean stdev = Returns peaks ->
  In peak peaks -> 0 <= HistogramPeak.height peak <= 1.
Proof.
  assert (Hidx : forall i, In i (seq 1 (length histogram - 2)) ->
                           (i < length histogram)%nat).
  { intros i Hin. apply in_seq in Hin. lia. }
  unfold findHistogramPeaks. intros Hret Hin.
  assert (Hcases :
    In peak (flat_map (localPeak histogram (maxHeightOf histogram))
                      (seq 1 (length histogram - 2))) \/
    exists m s, In peak (flat_map (derivativePeak histogram (maxHeightOf histogram) m s)
                                  (seq 1 (length histogram - 2)))).
  { destruct mean as [m |], stdev as [s |];
      try (left; injection Hret as <-; exact Hin).
    destruct (length histogram <? 2)%nat; [discriminate |].
    right. exists m, s. injection Hret as <-. exact Hin. }
  destruct Hcases as [Hl | (m & s & Hd)].
  - apply in_flat_map in Hl as (i & Hi & Hp).
    exact (localPeak_height histogram i peak (Hidx i Hi) Hp).
  - apply in_flat_map in Hd as (i & Hi & Hp).
    exact (derivativePeak_height histogram m s i peak (Hidx i Hi) Hp).
Qed.

(** A lone count between two empty cells is a peak of full height; its
    local window holds nothing else, so its width is 0. *)
Example findHistogramPeaks_single_peak :
  findHistogramPeaks [0; 1; 0] None None = Returns [HistogramPeak.mk 1 1 0].
Proof.
  unfold findHistogramPeaks, maxHeightOf.
  cbn [length Nat.sub seq flat_map fold_left app].
  replace (Rmax (Rmax 0 1) 0) with 1
    by (rewrite (Rmax_right 0 1), Rmax_left; lra).
  unfold localPeak. cbn [nth Nat.sub Nat.add length].
  cmp. cbn [andb].
  change (zrange _ _) with [0%Z; 1%Z; 2%Z].
  cbn [fold_left].
  change (Z.to_nat 0) with 0%nat. change (Z.to_nat 1) with 1%nat.
  change (Z.to_nat 2) with 2%nat. cbn [nth].
  cmp. cbn [app]. f_equal. f_equal. f_equal; [lra |].
  match goal with |- sqrt ?e = 0 => replace e with 0 by (field; lra) end.
  apply sqrt_0.
Qed.

(** Derivative mode allocates an array of negative length on a histogram of
    one cell. *)
Example findHistogramPeaks_range_error :
  findHistogramPeaks [1] (Some 0) (Some 1) = Throws.
Proof. reflexivity. Qed.

(** Smoothing divides by the weights it used: a single cell is unchanged. *)
Example smoothArray_single_cell : smoothArray [Some 1] 2 = [1].
Proof.
  unfold smoothArray. cbn [length seq map].
  assert (Hw : Math_ceil (2 * 6) = 12%Z).
  { unfold Math_ceil. apply Zceil_eq. lra. }
  rewrite Hw. unfold smoothAt. cbn [length].
  change (zrange _ _) with [0%Z].
  cbn [fold_left Z.to_nat nth_error].
  replace (IZR (Z.of_nat 0 - 0)) with 0 by reflexivity.
  replace (- (0 * 0) / (2 * 2 * 2)) with 0 by lra.
  rewrite exp_0. cmp. f_equal. lra.
Qed.

(** A cell that holds NaN is left out of the smoothing. *)
Example smoothArray_skips_NaN : smoothArray [None] 2 = [0].
Proof.
  unfold smoothArray. cbn [length seq map].
  assert (Hw : Math_ceil (2 * 6) = 12%Z).
  { unfold Math_ceil. apply Zceil_eq. lra. }
  rewrite Hw. unfold smoothAt. cbn [length].
  change (zrange _ _) with [0%Z].
  cbn [fold_left Z.to_nat nth_error]. cmp. reflexivity.
Qed.

(** A hue of 360 indexes the cell after the last of the 360 bins: the
    increment extends the array by a cell that holds NaN. *)
Example incrementBin_past_the_end :
  incrementBin (repeat (Some 0) 360) 360 = repeat (Some 0) 360 ++ [None].
Proof. reflexivity. Qed.

(** ** A black pixel *)

Lemma gammaDecode_0 : gammaDecode (0 / 255) = 0.
Proof.
  unfold gammaDecode. cmp. lra.
Qed.

Lemma labF_0 : labF 0 = 16 / 116.
Proof.
  unfold labF. cmp. lra.
Qed.

Lemma rgbToLab_black : rgbToLab 0 0 0 = zeroLab.
Proof.
  unfold rgbToLab. rewrite gammaDecode_0.
  replace ((0 * 0.4124 + 0 * 0.3576 + 0 * 0.1805) * 100 / 95.047) with 0 by lra.
  replace ((0 * 0.2126 + 0 * 0.7152 + 0 * 0.0722) * 100 / 100.0) with 0 by lra.
  replace ((0 * 0.0193 + 0 * 0.1192 + 0 * 0.9505) * 100 / 108.883) with 0 by lra.
  rewrite labF_0. unfold zeroLab. f_equal; lra.
Qed.

Lemma byteR_x00 : byteR x00 = 0.
Proof. reflexivity. Qed.

Lemma hueOf_zeroLab : hueOf zeroLab = 180.
Proof. exact hueFromLab_0_0. Qed.

Lemma inRange_red_180 : inRange (COLOR_RANGES red) 180 = false.
Proof.
  unfold inRange. simpl. cmp. reflexivity.
Qed.

Lemma inRange_aqua_180 : inRange (COLOR_RANGES aqua) 180 = true.
Proof.
  unfold inRange. simpl. cmp. reflexivity.
Qed.

Lemma blackPixel_out_of_red (i : nat) (r g b : byte) :
  nth_error [x00] i = Some r -> nth_error [x00] i = Some g ->
  nth_error [x00] i = Some b ->
  inRange (COLOR_RANGES red) (hueOf (rgbToLab (byteR r) (byteR g) (byteR b))) = false.
Proof.
  destruct i as [| i]; simpl.
  - intros [= <-] [= <-] [= <-].
    rewrite byteR_x00, rgbToLab_black, hueOf_zeroLab. apply inRange_red_180.
  - destruct i; discriminate.
Qed.

Lemma labMean_zero (pixels : list LabColor.t) :
  pixels <> [] -> Forall (eq zeroLab) pixels -> labMean pixels = Some zeroLab.
Proof.
  intros Hne Hall.
  assert (Hn : 0 < INR (length pixels)).
  { apply lt_0_INR. destruct pixels; [contradiction | simpl; lia]. }
  assert (Hsum : labSum pixels = zeroLab).
  { unfold labSum. fold zeroLab.
    apply (fold_left_invariant (fun acc => acc = zeroLab)); [reflexivity |].
    intros acc lab Hin ->. rewrite Forall_forall in Hall.
    rewrite <- (Hall lab Hin). unfold zeroLab. simpl. f_equal; lra. }
  unfold labMean. rewrite Hsum, !jsdiv_some by lra. cbn [bind].
  unfold zeroLab. simpl. f_equal. f_equal; lra.
Qed.

Lemma mapM_peakLab_zero (pixels : list LabColor.t)
    (histogramPeaks : list HistogramPeak.t) :
  Forall (eq zeroLab) pixels ->
  exists peaks,
    mapM (peakLab pixels zeroLab) histogramPeaks = Some peaks /\
    Forall (eq zeroLab) peaks.
Proof.
  intros Hall.
  induction histogramPeaks as [| peak rest (peaks & Hrest & Hpeaks)]; simpl.
  - exists []. now split.
  - assert (Hp : peakLab pixels zeroLab peak = Some zeroLab).
    { unfold peakLab.
      match goal with |- context [filter ?f pixels] => set (keep := f) end.
      destruct (filter keep pixels) as [| p ps] eqn:E; [reflexivity |].
      apply labMean_zero; [discriminate |].
      rewrite <- E. apply Forall_forall. intros lab Hin.
      apply filter_In in Hin. rewrite Forall_forall in Hall. now apply Hall. }
    rewrite Hp, Hrest. cbn [bind]. exists (zeroLab :: peaks).
    split; [reflexivity | now constructor].
Qed.

(** The black pixel has hue 180, which lies in the aqua band: the whole
    image matches, and every Lab value of the distribution is zero. *)
Lemma analyzeColorDistribution_black_aqua :
  exists peaks histogram,
    analyzeColorDistribution blackPixel (COLOR_RANGES aqua)
    = Some (ColorDistribution.mk zeroLab peaks histogram 1) /\
    Forall (eq zeroLab) peaks.
Proof.
  unfold analyzeColorDistribution, extractChannel, rawPlanes, blackPixel.
  cbn [nth3 fst snd].
  unfold scanPixels. cbn [length seq fold_left nth_error].
  rewrite byteR_x00, rgbToLab_black, hueOf_zeroLab, inRange_aqua_180.
  cbn [app].
  rewrite (labMean_zero [zeroLab]) by (discriminate || (constructor; auto)).
  cbn [bind]. unfold findHistogramPeaks.
  match goal with
  | |- context [mapM _ ?hp] =>
      destruct (mapM_peakLab_zero [zeroLab] hp ltac:(constructor; auto))
        as (peaks & -> & Hpeaks)
  end.
  cbn [bind length]. rewrite jsdiv_some by (simpl; lra). cbn [bind].
  exists peaks. eexists. split; [| assumption].
  f_equal. f_equal. simpl. lra.
Qed.

Lemma analyzeColorDistribution_black_red :
  analyzeColorDistribution blackPixel (COLOR_RANGES red)
  = Some (zeroDistribution (repeat (Some 0) 360)).
Proof.
  unfold analyzeColorDistribution, extractChannel, rawPlanes, blackPixel.
  cbn [nth3 fst snd].
  now rewrite (scanPixels_no_match _ _ _ _ blackPixel_out_of_red).
Qed.

(** ** The hue distribution and the estimators *)

Section Analyzer.

Context {Buffer : Type} `{Sharp Buffer}.

(** What every call of [analyzeColorDistribution] returns: a record of finite
    numbers, its weight a fraction, its Lab values of lightness 0 to 100. *)
Lemma analyzeColorDistribution_returns
    (buffer : Buffer) (range : ColorRange.t) :
  exists distribution,
    analyzeColorDistribution buffer range = Some distribution /\
    0 <= ColorDistribution.weight distribution <= 1 /\
    Forall lightnessInRange
      (ColorDistribution.mean distribution :: ColorDistribution.peaks distribution).
Proof.
  assert (Hzero : forall histogram,
             0 <= ColorDistribution.weight (zeroDistribution histogram) <= 1 /\
             Forall lightnessInRange
               (ColorDistribution.mean (zeroDistribution histogram)
                :: ColorDistribution.peaks (zeroDistribution histogram))).
  { intros histogram. simpl. split; [lra |].
    constructor; [unfold lightnessInRange; simpl; lra | constructor]. }
  unfold analyzeColorDistribution.
  destruct (extractChannel buffer 0%nat) as [ch0 |]; [| eexists; split; [reflexivity | apply Hzero]].
  destruct (extractChannel buffer 1%nat) as [ch1 |]; [| eexists; split; [reflexivity | apply Hzero]].
  destruct (extractChannel buffer 2%nat) as [ch2 |]; [| eexists; split; [reflexivity | apply Hzero]].
  pose proof (scanPixels_lightness range ch0 ch1 ch2) as Hall.
  pose proof (scanPixels_length range ch0 ch1 ch2) as Hlen.
  destruct (scanPixels range ch0 ch1 ch2) as [pixels histogram]. simpl in Hall, Hlen.
  destruct pixels as [| p ps]; [eexists; split; [reflexivity | apply Hzero] |].
  destruct (labMean_nonempty (p :: ps) ltac:(discriminate) Hall) as (mean & -> & Hmean).
  cbn [bind]. unfold findHistogramPeaks.
  match goal with
  | |- context [mapM _ ?hp] =>
      destruct (mapM_peakLab_some (p :: ps) mean hp Hall Hmean) as (peaks & -> & Hpeaks)
  end.
  cbn [bind].
  assert (Hp : 0 < INR (length (p :: ps))) by (apply lt_0_INR; simpl; lia).
  assert (Hc : INR (length (p :: ps)) <= INR (length ch0)) by now apply le_INR.
  rewrite jsdiv_some by lra. cbn [bind].
  eexists. split; [reflexivity |]. cbn [ColorDistribution.weight
    ColorDistribution.mean ColorDistribution.peaks]. split.
  - apply Rdiv_between; lra.
  - now constructor.
Qed.

(** C2: when no pixel of the image has its hue inside the range,
    [analyzeColorDistribution] returns a finite record (no quotient of the call
    has a zero divisor) whose weight is 0, whose list of peaks is empty and
    whose mean is the Lab value (0, 0, 0).  The same holds when the decoder
    fails, through the exception handler. *)
Theorem analyzeColorDistribution_empty_match
    (buffer : Buffer) (range : ColorRange.t) :
  (forall ch0 ch1 ch2 i r g b,
      extractChannel buffer 0%nat = Some ch0 ->
      extractChannel buffer 1%nat = Some ch1 ->
      extractChannel buffer 2%nat = Some ch2 ->
      nth_error ch0 i = Some r -> nth_error ch1 i = Some g ->
      nth_error ch2 i = Some b ->
      inRange range (hueOf (rgbToLab (byteR r) (byteR g) (byteR b))) = false) ->
  exists distribution,
    analyzeColorDistribution buffer range = Some distribution /\
    ColorDistribution.weight distribution = 0 /\
    ColorDistribution.peaks distribution = [] /\
    ColorDistribution.mean distribution = LabColor.mk 0 0 0 /\
    ColorDistribution.histogram distribution = repeat (Some 0) 360.
Proof.
  intros Hout.
  exists (zeroDistribution (repeat (Some 0) 360)).
  split; [| repeat split].
  unfold analyzeColorDistribution.
  destruct (extractChannel buffer 0%nat) as [ch0 |]; [| reflexivity].
  destruct (extractChannel buffer 1%nat) as [ch1 |]; [| reflexivity].
  destruct (extractChannel buffer 2%nat) as [ch2 |]; [| reflexivity].
  rewrite (scanPixels_no_match range ch0 ch1 ch2); [reflexivity |].
  intros i r g b. now apply Hout.
Qed.

(** C7: for every band and image, [calculateColorHue] and
    [calculateColorSaturation] return 0 when the weight of the band's
    distribution is 0, and each returns 0 when its total weight, accumulated
    over the mean and all the peaks, is 0. *)
Theorem estimators_return_zero
    (color : ColorChannel) (buffer : Buffer) (distribution : ColorDistribution.t) :
  analyzeColorDistribution buffer (COLOR_RANGES color) = Some distribution ->
  (ColorDistribution.weight distribution = 0 ->
   calculateColorHue color buffer = Some 0%Z /\
   calculateColorSaturation color buffer = Some 0%Z) /\
  (snd (hueTotals (ColorRange.center (COLOR_RANGES color)) distribution) = 0 ->
   calculateColorHue color buffer = Some 0%Z) /\
  (snd (saturationTotals distribution) = 0 ->
   calculateColorSaturation color buffer = Some 0%Z).
Proof.
  intros Hd. unfold calculateColorHue, calculateColorSaturation.
  rewrite Hd. cbn [bind].
  split; [| split].
  - intros Hw. apply Reqb_true in Hw. now rewrite Hw.
  - intros Ht.
    destruct (ColorDistribution.weight distribution =? 0); [reflexivity |].
    destruct (hueTotals _ distribution) as [totalAdjustment totalWeight].
    simpl in Ht. apply Reqb_true in Ht. now rewrite Ht.
  - intros Ht.
    destruct (ColorDistribution.weight distribution =? 0); [reflexivity |].
    destruct (saturationTotals distribution) as [totalAdjustment totalWeight].
    simpl in Ht. apply Reqb_true in Ht. now rewrite Ht.
Qed.

End Analyzer.

Lemma analyzeColorDistribution_empty_match_witness :
  exists distribution,
    analyzeColorDistribution blackPixel (COLOR_RANGES red) = Some distribution /\
    ColorDistribution.weight distribution = 0 /\
    ColorDistribution.peaks distribution = [] /\
    ColorDistribution.mean distribution = LabColor.mk 0 0 0 /\
    ColorDistribution.histogram distribution = repeat (Some 0) 360.
Proof.
  apply (analyzeColorDistribution_empty_match blackPixel (COLOR_RANGES red)).
  intros ch0 ch1 ch2 i r g b [= <-] [= <-] [= <-].
  apply blackPixel_out_of_red.
Defined.

(** C5: the fractions of the analysis lie between 0 and 1: the height of
    every histogram peak that [findHistogramPeaks] returns, the weight of every
    distribution that [analyzeColorDistribution] returns, and, for the mean and
    every peak of such a distribution, the confidence weight of the hue
    estimate, the luminance-centring weight [1 - |L - 50| / 50] and the weight
    of the term in the saturation estimate. *)
Theorem fractions_in_unit_interval :
  (forall (histogram : list R) (mean stdev : option R)
          (peaks : list HistogramPeak.t) (peak : HistogramPeak.t),
      findHistogramPeaks histogram mean stdev = Returns peaks ->
      In peak peaks -> 0 <= HistogramPeak.height peak <= 1) /\
  (forall (Buffer : Type) (decoder : Sharp Buffer) (buffer : Buffer)
          (range : ColorRange.t) (distribution : ColorDistribution.t),
      analyzeColorDistribution buffer range = Some distribution ->
      0 <= ColorDistribution.weight distribution <= 1 /\
      forall lab,
        In lab (ColorDistribution.mean distribution
                :: ColorDistribution.peaks distribution) ->
        0 <= hueWeight lab <= 1 /\
        0 <= luminanceWeight lab <= 1 /\
        0 <= saturationWeight distribution lab <= 1).
Proof.
  split; [exact findHistogramPeaks_height |].
  intros Buffer decoder buffer range distribution Hd.
  destruct (analyzeColorDistribution_returns buffer range) as (d & Hd' & Hw & Hall).
  rewrite Hd in Hd'. injection Hd' as <-.
  split; [assumption |].
  intros lab Hin. rewrite Forall_forall in Hall.
  assert (Hl : 0 <= luminanceWeight lab <= 1)
    by (apply luminanceWeight_unit, Hall, Hin).
  split; [auto with fractions |]. split; [assumption |].
  unfold saturationWeight. nra.
Qed.

Lemma fractions_in_unit_interval_witness :
  exists distribution,
    analyzeColorDistribution blackPixel (COLOR_RANGES aqua) = Some distribution /\
    ColorDistribution.weight distribution = 1 /\
    0 <= ColorDistribution.weight distribution <= 1 /\
    0 <= luminanceWeight (ColorDistribution.mean distribution) <= 1.
Proof.
  destruct analyzeColorDistribution_black_aqua as (peaks & histogram & Hd & _).
  eexists. split; [exact Hd |]. split; [reflexivity |].
  destruct (proj2 fractions_in_unit_interval _ _ _ _ _ Hd) as [Hw Hterms].
  split; [exact Hw |].
  apply (Hterms (ColorDistribution.mean (ColorDistribution.mk zeroLab peaks histogram 1))).
  now left.
Defined.

Lemma hueTotals_zero (center : R) (peaks : list LabColor.t)
    (histogram : list Bin) (weight : R) :
  Forall (eq zeroLab) peaks ->
  snd (hueTotals center (ColorDistribution.mk zeroLab peaks histogram weight)) = 0.
Proof.
  intros Hall. unfold hueTotals. cbn [ColorDistribution.mean ColorDistribution.peaks].
  apply (fold_left_invariant (fun acc => snd acc = 0)); [reflexivity |].
  intros [totalAdjustment totalWeight] lab Hin Hacc. simpl in *.
  assert (lab = zeroLab) as ->.
  { destruct Hin as [<- | Hin]; [reflexivity |].
    rewrite Forall_forall in Hall. symmetry. now apply Hall. }
  unfold hueWeight, chroma, zeroLab. simpl.
  replace (0 * 0 + 0 * 0) with 0 by lra. rewrite sqrt_0.
  unfold Rdiv. rewrite Rmult_0_l, Rmin_right by lra. lra.
Qed.

Lemma saturationTotals_zero (peaks : list LabColor.t) (histogram : list Bin)
    (weight : R) :
  Forall (eq zeroLab) peaks ->
  snd (saturationTotals (ColorDistribution.mk zeroLab peaks histogram weight)) = 0.
Proof.
  intros Hall. unfold saturationTotals.
  cbn [ColorDistribution.mean ColorDistribution.peaks].
  apply (fold_left_invariant (fun acc => snd acc = 0)); [reflexivity |].
  intros [totalAdjustment totalWeight] lab Hin Hacc. simpl in *.
  assert (lab = zeroLab) as ->.
  { destruct Hin as [<- | Hin]; [reflexivity |].
    rewrite Forall_forall in Hall. symmetry. now apply Hall. }
  unfold saturationWeight, luminanceWeight, zeroLab. cbn [LabColor.l].
  rewrite (Rabs_left (0 - 50)) by lra. lra.
Qed.

Lemma estimators_return_zero_witness :
  (calculateColorHue red blackPixel = Some 0%Z /\
   calculateColorSaturation red blackPixel = Some 0%Z) /\
  (calculateColorHue aqua blackPixel = Some 0%Z /\
   calculateColorSaturation aqua blackPixel = Some 0%Z).
Proof.
  split.
  - apply (estimators_return_zero red blackPixel _ analyzeColorDistribution_black_red).
    reflexivity.
  - destruct analyzeColorDistribution_black_aqua as (peaks & histogram & Hd & Hall).
    destruct (estimators_return_zero aqua blackPixel _ Hd) as (_ & Hhue & Hsat).
    split.
    + apply Hhue. now apply hueTotals_zero.
    + apply Hsat. now apply saturationTotals_zero.
Defined.

(** ** Rounding *)

Lemma Math_round_IZR (z : Z) : Math_round (IZR z) = z.
Proof. unfold Math_round. apply Zfloor_eq. lra. Qed.

Lemma Math_round_le (x y : R) : x <= y -> (Math_round x <= Math_round y)%Z.
Proof. intros Hxy. unfold Math_round. apply Zfloor_le. lra. Qed.

(** Two numbers at least 1 apart round to different integers. *)
Lemma Math_round_gap (x y : R) : x + 1 <= y -> (Math_round x < Math_round y)%Z.
Proof.
  intros Hxy. unfold Math_round.
  assert (Hs : (Zfloor (x + / 2) + 1 <= Zfloor (y + / 2))%Z).
  { rewrite <- Zfloor_addz. apply Zfloor_le. lra. }
  lia.
Qed.

Lemma Math_round_clamp (lo hi : Z) (x : R) :
  IZR lo <= x <= IZR hi -> IZR lo <= IZR (Math_round x) <= IZR hi.
Proof.
  intros [Hlo Hhi].
  apply Math_round_le in Hlo, Hhi. rewrite Math_round_IZR in Hlo, Hhi.
  split; apply IZR_le; assumption.
Qed.

(** ** The synthesized tone curve *)

Lemma numPointsOf_range (points : list TonePoint.t) :
  (5 <= numPointsOf points <= 20)%Z.
Proof. unfold numPointsOf. lia. Qed.

Lemma curvePointAt_shape (numPoints : Z) (sCurveStrength : R)
    (allPoints : list TonePoint.t) (i : nat) :
  exists y,
    curvePointAt numPoints sCurveStrength allPoints i
    = [IZR (Math_round ((INR i / (IZR numPoints - 1)) * 255)); y] /\
    0 <= y <= 255.
Proof.
  unfold curvePointAt. eexists. split; [reflexivity |].
  apply (Math_round_clamp 0 255).
  split; [apply Rmax_l |].
  apply Rmax_lub; [lra |]. apply Rmin_l.
Qed.

Lemma position_increasing (numPoints : Z) (i j : nat) :
  (5 <= numPoints <= 20)%Z -> (i < j)%nat ->
  (INR i / (IZR numPoints - 1)) * 255 + 1
  <= (INR j / (IZR numPoints - 1)) * 255.
Proof.
  intros [Hlo Hhi] Hij.
  apply IZR_le in Hlo, Hhi.
  assert (Hd : 0 < IZR numPoints - 1 <= 19) by lra.
  assert (Hstep : INR i + 1 <= INR j).
  { rewrite <- S_INR. apply le_INR. lia. }
  assert (Hinv : / 19 <= / (IZR numPoints - 1)).
  { apply Rinv_le_contravar; lra. }
  unfold Rdiv.
  assert (Hpos : 0 < / (IZR numPoints - 1)) by (apply Rinv_0_lt_compat; lra).
  nra.
Qed.

Lemma map_seq_increasing (f : nat -> R) (start len : nat) :
  (forall i j, (i < j)%nat -> f i < f j) ->
  strictlyIncreasing (map f (seq start len)).
Proof.
  intros Hmono. unfold strictlyIncreasing. revert start.
  induction len as [| len IH]; intros start; simpl; constructor.
  - apply IH.
  - apply Forall_forall. intros y Hy.
    apply in_map_iff in Hy as (j & <- & Hj). apply in_seq in Hj.
    apply Hmono. lia.
Qed.

(** C3: for a non-empty list of tone points the curve of [smoothToneCurve]
    has between 5 and 20 entries, its inputs are strictly increasing, its
    first entry is [[0, y0]] and its last entry [[255, y1]] with [y0] and [y1]
    between 0 and 255, and every entry is a pair whose output lies between 0
    and 255. *)
Theorem smoothToneCurve_shape (points : list TonePoint.t) :
  points <> [] ->
  let curve := smoothToneCurve points in
  (5 <= length curve <= 20)%nat /\
  strictlyIncreasing (curveInputs curve) /\
  (exists y0, nth_error curve 0 = Some [0; y0] /\ 0 <= y0 <= 255) /\
  (exists y1, nth_error curve (length curve - 1) = Some [255; y1] /\ 0 <= y1 <= 255) /\
  (forall point, In point curve ->
     exists x y, point = [x; y] /\ 0 <= y <= 255).
Proof.
  intros Hne. destruct points as [| first others]; [contradiction |].
  cbv zeta. unfold smoothToneCurve.
  set (points := first :: others).
  set (numPoints := numPointsOf points).
  pose proof (numPointsOf_range points) as Hn. fold numPoints in Hn.
  match goal with
  | |- context [curvePointAt numPoints ?s ?a] =>
      set (sCurveStrength := s); set (allPoints := a)
  end.
  set (curve := map (curvePointAt numPoints sCurveStrength allPoints)
                    (seq 0 (Z.to_nat numPoints))).
  assert (Hlen : length curve = Z.to_nat numPoints)
    by (unfold curve; now rewrite length_map, length_seq).
  assert (Hnth : forall i, (i < Z.to_nat numPoints)%nat ->
             nth_error curve i
             = Some (curvePointAt numPoints sCurveStrength allPoints i)).
  { intros i Hi. unfold curve.
    rewrite nth_error_map, nth_error_nth' with (d := O) by now rewrite length_seq.
    now rewrite seq_nth. }
  split; [rewrite Hlen; lia |]. split; [| split; [| split]].
  - unfold curveInputs, curve. rewrite map_map.
    apply map_seq_increasing. intros i j Hij.
    destruct (curvePointAt_shape numPoints sCurveStrength allPoints i) as (yi & -> & _).
    destruct (curvePointAt_shape numPoints sCurveStrength allPoints j) as (yj & -> & _).
    cbn [nth]. apply IZR_lt, Math_round_gap.
    now apply position_increasing.
  - rewrite Hnth by lia.
    destruct (curvePointAt_shape numPoints sCurveStrength allPoints 0) as (y0 & -> & Hy0).
    exists y0. split; [| assumption].
    replace (INR 0 / (IZR numPoints - 1) * 255) with (IZR 0)
      by (simpl; unfold Rdiv; ring).
    now rewrite Math_round_IZR.
  - rewrite Hlen, Hnth by lia.
    destruct (curvePointAt_shape numPoints sCurveStrength allPoints
                (Z.to_nat numPoints - 1)) as (y1 & -> & Hy1).
    exists y1. split; [| assumption].
    replace (INR (Z.to_nat numPoints - 1) / (IZR numPoints - 1) * 255)
      with (IZR 255).
    + now rewrite Math_round_IZR.
    + rewrite minus_INR, INR_IZR_INZ, Z2Nat.id by lia.
      destruct Hn as [Hn5 _]. apply IZR_le in Hn5.
      simpl. field. lra.
  - intros point Hin. unfold curve in Hin.
    apply in_map_iff in Hin as (i & <- & _).
    destruct (curvePointAt_shape numPoints sCurveStrength allPoints i) as (y & -> & Hy).
    now exists (IZR (Math_round (INR i / (IZR numPoints - 1) * 255))), y.
Qed.

Lemma smoothToneCurve_shape_witness :
  let curve := smoothToneCurve anchorPoints in
  (5 <= length curve <= 20)%nat /\
  strictlyIncreasing (curveInputs curve) /\
  (exists y0, nth_error curve 0 = Some [0; y0] /\ 0 <= y0 <= 255) /\
  (exists y1, nth_error curve (length curve - 1) = Some [255; y1] /\ 0 <= y1 <= 255) /\
  (forall point, In point curve ->
     exists x y, point = [x; y] /\ 0 <= y <= 255).
Proof.
  apply (smoothToneCurve_shape anchorPoints). discriminate.
Defined.

(** The anchors alone give a curve of 15 points. *)
Example numPointsOf_anchorPoints : numPointsOf anchorPoints = 15%Z.
Proof.
  unfold numPointsOf, anchorPoints, sumOf. cbn [filter fold_left TonePoint.weight].
  cmp. cbn [length].
  replace (Rmin (INR 2 * (0 + 1 + 1) / INR 2) 3) with 2
    by (simpl; rewrite Rmin_left; lra).
  replace (5 + 2 * 5) with (IZR 15) by lra.
  now rewrite Math_round_IZR.
Qed.

(** Without points there is no curve. *)
Example smoothToneCurve_empty : smoothToneCurve [] = [].
Proof. reflexivity. Qed.

(** ** Tone curve as a matrix row *)

(** With four non-zero coordinates the row is the average slope. *)
Lemma convertToneCurveToMatrix_slope (x0 y0 xn yn : R) (middle : ToneCurve) :
  x0 <> 0 -> y0 <> 0 -> xn <> 0 -> yn <> 0 -> xn <> x0 ->
  convertToneCurveToMatrix (Some ([x0; y0] :: middle ++ [[xn; yn]]))
  = Some ((yn - y0) / (xn - x0), 0, 0).
Proof.
  intros Hx0 Hy0 Hxn Hyn Hd. unfold convertToneCurveToMatrix.
  assert (Hlen : length ([x0; y0] :: middle ++ [[xn; yn]]) = S (S (length middle))).
  { simpl. rewrite length_app. simpl. lia. }
  rewrite Hlen. cbn [Nat.ltb Nat.leb].
  replace (S (S (length middle)) - 1)%nat with (S (length middle)) by lia.
  cbn [nth]. rewrite app_nth2, Nat.sub_diag by lia. cbn [nth nth_error falsy].
  apply Reqb_false in Hx0, Hy0, Hxn, Hyn. rewrite Hx0, Hy0, Hxn, Hyn.
  cbn [orb]. rewrite jsdiv_some by lra. reflexivity.
Qed.

(** A curve that starts at input 0 is answered with the identity row,
    whatever its slope. *)
Lemma convertToneCurveToMatrix_zero_input (y0 : R) (second : list R)
    (others : ToneCurve) :
  convertToneCurveToMatrix (Some ([0; y0] :: second :: others)) = Some (1, 0, 0).
Proof.
  unfold convertToneCurveToMatrix. cbn [length Nat.ltb Nat.leb nth nth_error falsy].
  cmp. reflexivity.
Qed.

(** C4 fails on the code: the curve [[0, 10], [255, 200]] has average slope
    190 / 255, and [convertToneCurveToMatrix] answers [[1, 0, 0]], because
    its test for invalid points takes the coordinate 0 for a missing one. *)
Theorem convertToneCurveToMatrix_ignores_slope :
  convertToneCurveToMatrix (Some [[0; 10]; [255; 200]]) = Some (1, 0, 0) /\
  (200 - 10) / (255 - 0) <> 1.
Proof.
  split; [apply convertToneCurveToMatrix_zero_input | lra].
Qed.

(** ** The lookup table *)

Lemma flat_map_seq_length {B : Type} (f : nat -> list B) (len : nat) :
  (forall k, length (f k) = len) ->
  forall n start, length (flat_map f (seq start n)) = (n * len)%nat.
Proof.
  intros Hlen. induction n as [| n IH]; intros start; simpl; [reflexivity |].
  now rewrite length_app, Hlen, IH.
Qed.

(** Blocks of equal length, one per index: entry [i] of block [k] sits at
    position [k * len + i]. *)
Lemma flat_map_seq_nth_error {B : Type} (f : nat -> list B) (len : nat) :
  (forall k, length (f k) = len) ->
  forall n start k i, (k < n)%nat -> (i < len)%nat ->
    nth_error (flat_map f (seq start n)) (k * len + i)
    = nth_error (f (start + k)%nat) i.
Proof.
  intros Hlen. induction n as [| n IH]; intros start k i Hk Hi; [lia |].
  simpl. destruct k as [| k].
  - rewrite nth_error_app1 by (rewrite Hlen; lia).
    now rewrite Nat.add_0_r.
  - rewrite nth_error_app2 by (rewrite Hlen; simpl; lia).
    rewrite Hlen.
    replace (S k * len + i - len)%nat with (k * len + i)%nat by (simpl; lia).
    rewrite IH by lia. f_equal. f_equal. lia.
Qed.

Lemma lutPoint_grid (properties : ImageProperties.t) (r g b : nat) :
  lutPoint properties r g b
  = applyFactors
      (applyToneCurves
         (applyColorMatrix
            (ColorPoint.mk (INR r / 31) (INR g / 31) (INR b / 31))
            (calculateColorMatrixFromProperties properties))
         properties)
      (calculateProcessingFactors properties).
Proof.
  unfold lutPoint.
  assert (Hstep : forall k, INR k * (1 / (INR LUT_SIZE - 1)) = INR k / 31).
  { intros k. unfold LUT_SIZE.
    replace (INR 32) with 32 by (rewrite INR_IZR_INZ; reflexivity). lra. }
  now rewrite !Hstep.
Qed.

(** C9: for a record that passes [validateImageProperties], [generateCUBELUT]
    emits exactly 32 * 32 * 32 = 32768 entries; the entry at position
    [b * 32 * 32 + g * 32 + r] is the one of the grid point
    [(r / 31, g / 31, b / 31)], for [r], [g], [b] from 0 to 31: [b] is the
    outermost loop and [r] the innermost, so [r] varies fastest. *)
Theorem generateCUBELUT_grid (properties : ImageProperties.t) :
  validateImageProperties properties = true ->
  exists lut,
    generateCUBELUT properties = Returns lut /\
    length lut = (32 * 32 * 32)%nat /\
    forall r g b, (r < 32)%nat -> (g < 32)%nat -> (b < 32)%nat ->
      nth_error lut (b * 32 * 32 + g * 32 + r)
      = Some
          (applyFactors
             (applyToneCurves
                (applyColorMatrix
                   (ColorPoint.mk (INR r / 31) (INR g / 31) (INR b / 31))
                   (calculateColorMatrixFromProperties properties))
                properties)
             (calculateProcessingFactors properties)).
Proof.
  intros Hvalid. unfold generateCUBELUT. rewrite Hvalid.
  eexists. split; [reflexivity |].
  set (row := fun b g => map (fun r => lutPoint properties r g b) (seq 0 LUT_SIZE)).
  set (plane := fun b => flat_map (row b) (seq 0 LUT_SIZE)).
  assert (Hrow : forall b g, length (row b g) = 32%nat).
  { intros b g. unfold row. now rewrite length_map, length_seq. }
  assert (Hplane : forall b, length (plane b) = (32 * 32)%nat).
  { intros b. unfold plane. now rewrite (flat_map_seq_length _ 32 (Hrow b)). }
  split.
  - now rewrite (flat_map_seq_length _ (32 * 32) Hplane).
  - intros r g b Hr Hg Hb.
    replace (b * 32 * 32 + g * 32 + r)%nat with (b * (32 * 32) + (g * 32 + r))%nat by lia.
    rewrite (flat_map_seq_nth_error _ (32 * 32) Hplane) by (unfold LUT_SIZE; lia).
    unfold plane. rewrite (flat_map_seq_nth_error _ 32 (Hrow (0 + b)%nat))
      by (unfold LUT_SIZE; lia).
    unfold row. rewrite nth_error_map, nth_error_nth' with (d := O)
      by (rewrite length_seq; unfold LUT_SIZE; lia).
    rewrite seq_nth by (unfold LUT_SIZE; lia).
    cbn [option_map Nat.add]. now rewrite lutPoint_grid.
Qed.

Lemma neutralProperties_valid : validateImageProperties neutralProperties = true.
Proof. reflexivity. Qed.

Lemma generateCUBELUT_grid_witness :
  exists lut,
    generateCUBELUT neutralProperties = Returns lut /\
    length lut = (32 * 32 * 32)%nat /\
    forall r g b, (r < 32)%nat -> (g < 32)%nat -> (b < 32)%nat ->
      nth_error lut (b * 32 * 32 + g * 32 + r)
      = Some
          (applyFactors
             (applyToneCurves
                (applyColorMatrix
                   (ColorPoint.mk (INR r / 31) (INR g / 31) (INR b / 31))
                   (calculateColorMatrixFromProperties neutralProperties))
                neutralProperties)
             (calculateProcessingFactors neutralProperties)).
Proof.
  apply (generateCUBELUT_grid neutralProperties). reflexivity.
Defined.

(** On a curve whose inputs strictly increase no segment has equal ends, so
    the interpolation never forms [0 / 0]. *)
Lemma applySegments_finite (value : R) (toneCurve : ToneCurve) :
  strictlyIncreasing (curveInputs toneCurve) ->
  exists v, applySegments value toneCurve = Some v.
Proof.
  unfold strictlyIncreasing.
  induction toneCurve as [| p1 rest IH]; intros Hinc; [now exists value |].
  destruct rest as [| p2 rest]; [now exists value |].
  cbn [applySegments].
  simpl in Hinc. inversion Hinc as [| ? ? Hrest Hhead]; subst.
  inversion Hhead as [| ? ? Hlt _]; subst.
  destruct ((value >=? nth 0 p1 0 / 255) && (value <=? nth 0 p2 0 / 255)).
  - rewrite jsdiv_some by lra. cbn [bind]. eexists. reflexivity.
  - apply IH. exact Hrest.
Qed.

Lemma DEFAULT_TONE_CURVE_increasing :
  strictlyIncreasing (curveInputs DEFAULT_TONE_CURVE).
Proof.
  unfold strictlyIncreasing, DEFAULT_TONE_CURVE. simpl.
  repeat constructor. lra.
Qed.

Lemma applyToneCurve_finite (value : R) (curve : option ToneCurve) :
  (forall c, curve = Some c -> strictlyIncreasing (curveInputs c)) ->
  exists v, applyToneCurve value curve = Some v.
Proof.
  intros Hinc. unfold applyToneCurve. apply applySegments_finite.
  unfold effectiveCurve. destruct curve as [c |].
  - destruct (validateToneCurvePoints c);
      [now apply Hinc | apply DEFAULT_TONE_CURVE_increasing].
  - apply DEFAULT_TONE_CURVE_increasing.
Qed.

Lemma applyFactor_inDomain (factors : ProcessingFactors.t) (v : R) :
  inDomain (applyFactor factors (Some v)).
Proof.
  unfold inDomain, applyFactor. cbn [option_map].
  eexists. split; [reflexivity |]. split; [apply Rmax_l |].
  apply Rmax_lub; [lra | apply Rmin_l].
Qed.

Lemma generateCUBELUT_entry (properties : ImageProperties.t) (r g b : nat) :
  (r < 32)%nat -> (g < 32)%nat -> (b < 32)%nat ->
  nth_error
    (flat_map
       (fun b =>
          flat_map
            (fun g => map (fun r => lutPoint properties r g b) (seq 0 LUT_SIZE))
            (seq 0 LUT_SIZE))
       (seq 0 LUT_SIZE))
    (b * 32 * 32 + g * 32 + r)
  = Some (lutPoint properties r g b).
Proof.
  intros Hr Hg Hb.
  set (row := fun b g => map (fun r => lutPoint properties r g b) (seq 0 LUT_SIZE)).
  set (plane := fun b => flat_map (row b) (seq 0 LUT_SIZE)).
  assert (Hrow : forall b g, length (row b g) = 32%nat).
  { intros b' g'. unfold row. now rewrite length_map, length_seq. }
  assert (Hplane : forall b, length (plane b) = (32 * 32)%nat).
  { intros b'. unfold plane. now rewrite (flat_map_seq_length _ 32 (Hrow b')). }
  replace (b * 32 * 32 + g * 32 + r)%nat with (b * (32 * 32) + (g * 32 + r))%nat by lia.
  rewrite (flat_map_seq_nth_error _ (32 * 32) Hplane) by (unfold LUT_SIZE; lia).
  unfold plane. rewrite (flat_map_seq_nth_error _ 32 (Hrow (0 + b)%nat))
    by (unfold LUT_SIZE; lia).
  unfold row. rewrite nth_error_map, nth_error_nth' with (d := O)
    by (rewrite length_seq; unfold LUT_SIZE; lia).
  rewrite seq_nth by (unfold LUT_SIZE; lia).
  reflexivity.
Qed.

(** C10: for a record that passes [validateImageProperties] and whose tone
    curves have strictly increasing inputs, the table of [generateCUBELUT]
    has its 32 * 32 * 32 entries.  At every grid point the colour matrix and
    the tone curves give three finite numbers [vr], [vg], [vb], which may lie
    outside the unit interval; the entry of the table holds each of them
    multiplied by the exposure and the contrast factor and then clamped by
    [Math.max(0, Math.min(1, .))], the last step of the pipeline.  Hence
    every component of every entry is a number between 0 and 1. *)
Theorem generateCUBELUT_in_domain (properties : ImageProperties.t) :
  validateImageProperties properties = true ->
  (forall curve,
      In (Some curve)
         [valueOf (ImageProperties.toneCurveRed properties);
          valueOf (ImageProperties.toneCurveGreen properties);
          valueOf (ImageProperties.toneCurveBlue properties)] ->
      strictlyIncreasing (curveInputs curve)) ->
  let factors := calculateProcessingFactors properties in
  let clamped (v : R) :=
    Rmax 0 (Rmin 1 (v * ProcessingFactors.exposure factors
                      * ProcessingFactors.contrast factors)) in
  exists lut,
    generateCUBELUT properties = Returns lut /\
    length lut = (32 * 32 * 32)%nat /\
    (forall r g b, (r < 32)%nat -> (g < 32)%nat -> (b < 32)%nat ->
       exists vr vg vb,
         applyToneCurves
           (applyColorMatrix
              (ColorPoint.mk (INR r / 31) (INR g / 31) (INR b / 31))
              (calculateColorMatrixFromProperties properties))
           properties
         = ColorPoint.mk (Some vr) (Some vg) (Some vb) /\
         nth_error lut (b * 32 * 32 + g * 32 + r)
         = Some (ColorPoint.mk (Some (clamped vr)) (Some (clamped vg))
                               (Some (clamped vb)))) /\
    (forall point, In point lut ->
       inDomain (ColorPoint.r point) /\
       inDomain (ColorPoint.g point) /\
       inDomain (ColorPoint.b point)).
Proof.
  intros Hvalid Hinc. cbv zeta. unfold generateCUBELUT. rewrite Hvalid.
  assert (Hfinite : forall v curve,
             In curve
                [valueOf (ImageProperties.toneCurveRed properties);
                 valueOf (ImageProperties.toneCurveGreen properties);
                 valueOf (ImageProperties.toneCurveBlue properties)] ->
             exists w, applyToneCurve v curve = Some w).
  { intros v curve Hin. apply applyToneCurve_finite.
    intros c Hc. apply Hinc. now rewrite <- Hc. }
  eexists. split; [reflexivity |]. split; [| split].
  - rewrite (flat_map_seq_length _ (32 * 32)); [reflexivity |].
    intros b. rewrite (flat_map_seq_length _ 32); [reflexivity |].
    intros g. now rewrite length_map, length_seq.
  - intros r g b Hr Hg Hb.
    rewrite (generateCUBELUT_entry properties r g b Hr Hg Hb), lutPoint_grid.
    unfold applyToneCurves. cbn [ColorPoint.r ColorPoint.g ColorPoint.b].
    match goal with
    | |- context [ColorPoint.mk (applyToneCurve ?x ?cr) (applyToneCurve ?y ?cg)
                                (applyToneCurve ?z ?cb)] =>
        destruct (Hfinite x cr) as (vr & ->); [simpl; tauto |];
        destruct (Hfinite y cg) as (vg & ->); [simpl; tauto |];
        destruct (Hfinite z cb) as (vb & ->); [simpl; tauto |]
    end.
    exists vr, vg, vb. split; reflexivity.
  - intros point Hin.
    apply in_flat_map in Hin as (b & _ & Hin).
    apply in_flat_map in Hin as (g & _ & Hin).
    apply in_map_iff in Hin as (r & <- & _).
    unfold lutPoint, applyFactors, applyToneCurves.
    cbn [ColorPoint.r ColorPoint.g ColorPoint.b].
    repeat split;
      match goal with
      | |- context [applyToneCurve ?v ?c] =>
          destruct (Hfinite v c) as (w & ->);
          [simpl; tauto | apply applyFactor_inDomain]
      end.
Qed.

Lemma overdrivenProperties_factors :
  calculateProcessingFactors overdrivenProperties = ProcessingFactors.mk 2 1.
Proof.
  unfold calculateProcessingFactors, overdrivenProperties.
  cbn [ImageProperties.exposure ImageProperties.contrast valueOf orZero].
  replace (Rmax (-10) (Rmin 10 2)) with 2
    by (rewrite Rmin_right, Rmax_right; lra).
  replace (Rmax (-100) (Rmin 100 0)) with 0
    by (rewrite Rmin_right, Rmax_right; lra).
  cmp.
  replace ((0 + 100) * PI / 400) with (PI / 4) by lra. rewrite tan_PI4.
  unfold MAX_CONTRAST_FACTOR. rewrite Rmin_right by lra.
  replace (2 / 2) with 1 by lra.
  unfold Math_pow. rewrite Rpower_1 by lra. reflexivity.
Qed.

(** At the grid point (0, 1, 0) the colour matrix of the overdriven record
    gives a negative red, a green above 1 and a negative blue, and the
    default curves leave them as they are. *)
Lemma overdrivenProperties_green :
  applyToneCurves
    (applyColorMatrix
       (ColorPoint.mk (INR 0 / 31) (INR 31 / 31) (INR 0 / 31))
       (calculateColorMatrixFromProperties overdrivenProperties))
    overdrivenProperties
  = ColorPoint.mk (Some (-0.213)) (Some 1.285) (Some (-0.072)).
Proof.
  replace (INR 31) with 31 by (rewrite INR_IZR_INZ; reflexivity).
  replace (INR 0) with 0 by reflexivity.
  unfold calculateColorMatrixFromProperties, overdrivenProperties, colorRangesOf.
  cbn [ImageProperties.redHue ImageProperties.redSaturation
       ImageProperties.orangeHue ImageProperties.orangeSaturation
       ImageProperties.yellowHue ImageProperties.yellowSaturation
       ImageProperties.greenHue ImageProperties.greenSaturation
       ImageProperties.aquaHue ImageProperties.aquaSaturation
       ImageProperties.blueHue ImageProperties.blueSaturation
       ImageProperties.purpleHue ImageProperties.purpleSaturation
       ImageProperties.magentaHue ImageProperties.magentaSaturation
       fold_left].
  cmp. cbn [negb orb].
  unfold applyToneCurves.
  cbn [ImageProperties.toneCurveRed ImageProperties.toneCurveGreen
       ImageProperties.toneCurveBlue valueOf].
  unfold calculateHueSaturationMatrix, multiplyMatrices, IDENTITY_MATRIX,
    applyColorMatrix, at_.
  cbn [nth3 fst snd ColorPoint.r ColorPoint.g ColorPoint.b].
  replace (0 * PI / 180) with 0 by lra. rewrite cos_0, sin_0.
  unfold applyToneCurve, effectiveCurve.
  change (validateToneCurvePoints DEFAULT_TONE_CURVE) with true. cbv iota.
  unfold DEFAULT_TONE_CURVE. cbn [applySegments nth].
  cmp. cbn [andb].
  f_equal; f_equal; lra.
Qed.

Lemma generateCUBELUT_in_domain_witness :
  exists lut,
    generateCUBELUT overdrivenProperties = Returns lut /\
    length lut = (32 * 32 * 32)%nat /\
    applyToneCurves
      (applyColorMatrix
         (ColorPoint.mk (INR 0 / 31) (INR 31 / 31) (INR 0 / 31))
         (calculateColorMatrixFromProperties overdrivenProperties))
      overdrivenProperties
    = ColorPoint.mk (Some (-0.213)) (Some 1.285) (Some (-0.072)) /\
    nth_error lut (0 * 32 * 32 + 31 * 32 + 0)
    = Some (ColorPoint.mk (Some 0) (Some 1) (Some 0)) /\
    (forall point, In point lut ->
       inDomain (ColorPoint.r point) /\
       inDomain (ColorPoint.g point) /\
       inDomain (ColorPoint.b point)).
Proof.
  destruct (generateCUBELUT_in_domain overdrivenProperties) as
    (lut & Hlut & Hlen & Hclamped & Hdomain).
  - reflexivity.
  - intros curve [Hc | [Hc | [Hc | []]]]; injection Hc as <-;
      apply DEFAULT_TONE_CURVE_increasing.
  - exists lut. split; [exact Hlut |]. split; [exact Hlen |].
    split; [exact overdrivenProperties_green |]. split; [| exact Hdomain].
    destruct (Hclamped 0%nat 31%nat 0%nat) as (vr & vg & vb & Hv & Hentry);
      [lia | lia | lia |].
    rewrite overdrivenProperties_green in Hv. injection Hv as <- <- <-.
    rewrite Hentry, overdrivenProperties_factors.
    cbn [ProcessingFactors.exposure ProcessingFactors.contrast].
    f_equal. f_equal; f_equal.
    + rewrite Rmin_right, Rmax_left; lra.
    + rewrite Rmin_left, Rmax_right; lra.
    + rewrite Rmin_right, Rmax_left; lra.
Defined.

(** A curve with a repeated input does produce NaN, at the repeated input. *)
Example applyToneCurve_repeated_input :
  applyToneCurve 0 (Some [[0; 0]; [0; 255]]) = None.
Proof.
  unfold applyToneCurve, effectiveCurve. cbn [validateToneCurvePoints forallb length Nat.eqb andb].
  cbn [applySegments nth]. cmp.
  cbn [andb]. unfold jsdiv.
  destruct (Req_dec_T (0 / 255 - 0 / 255) 0) as [_ | Hn]; [reflexivity | lra].
Qed.

(* ================================================================= *)
(** * Further properties of the code *)

(** Every pixel of 8-bit channels has a lightness between 0 and 100. *)
Theorem rgbToLab_lightness (r g b : byte) :
  0 <= LabColor.l (rgbToLab (byteR r) (byteR g) (byteR b)) <= 100.
Proof. auto with fractions. Qed.

(** [analyzeColorDistribution] never divides by zero: the mean, the peaks and
    the weight of its record are finite numbers for every image and range. *)
Theorem analyzeColorDistribution_finite (Buffer : Type) (decoder : Sharp Buffer)
    (buffer : Buffer) (range : ColorRange.t) :
  exists distribution, analyzeColorDistribution buffer range = Some distribution.
Proof.
  destruct (analyzeColorDistribution_returns buffer range) as (d & Hd & _).
  now exists d.
Qed.

(** When the four end coordinates of a curve are non-zero and its end inputs
    differ, [convertToneCurveToMatrix] does return the average slope. *)
Theorem convertToneCurveToMatrix_average_slope (x0 y0 xn yn : R)
    (middle : ToneCurve) :
  x0 <> 0 -> y0 <> 0 -> xn <> 0 -> yn <> 0 -> xn <> x0 ->
  convertToneCurveToMatrix (Some ([x0; y0] :: middle ++ [[xn; yn]]))
  = Some ((yn - y0) / (xn - x0), 0, 0).
Proof. apply convertToneCurveToMatrix_slope. Qed.

Lemma convertToneCurveToMatrix_average_slope_witness :
  convertToneCurveToMatrix (Some ([1; 2] :: [[128; 140]] ++ [[255; 250]]))
  = Some ((250 - 2) / (255 - 1), 0, 0).
Proof.
  apply (convertToneCurveToMatrix_average_slope 1 2 255 250 [[128; 140]]); lra.
Defined.

(** Every curve whose first input is 0 gets the identity row from
    [convertToneCurveToMatrix], whatever its outputs. *)
Theorem convertToneCurveToMatrix_identity_at_zero (y0 : R) (second : list R)
    (others : ToneCurve) :
  convertToneCurveToMatrix (Some ([0; y0] :: second :: others)) = Some (1, 0, 0).
Proof. apply convertToneCurveToMatrix_zero_input. Qed.

(** ** Estimators on channel statistics *)

Lemma falsy_false (x : option R) :
  falsy x = false -> exists v, x = Some v /\ v <> 0.
Proof.
  destruct x as [v |]; simpl; [| discriminate].
  intros Hv. exists v. split; [reflexivity |]. now apply Reqb_false.
Qed.

Lemma truthy3_some (x y z : option R) (a b c : R) :
  truthy3 x y z = Some (a, b, c) ->
  (x = Some a /\ y = Some b /\ z = Some c) /\ a <> 0 /\ b <> 0 /\ c <> 0.
Proof.
  unfold truthy3.
  destruct (falsy x) eqn:Ex; [discriminate |].
  destruct (falsy y) eqn:Ey; [discriminate |].
  destruct (falsy z) eqn:Ez; [discriminate |].
  apply falsy_false in Ex as (vx & -> & Hx).
  apply falsy_false in Ey as (vy & -> & Hy).
  apply falsy_false in Ez as (vz & -> & Hz).
  simpl. intros [= <- <- <-]. auto.
Qed.

Lemma truthy3_intro (a b c : R) :
  a <> 0 -> b <> 0 -> c <> 0 ->
  truthy3 (Some a) (Some b) (Some c) = Some (a, b, c).
Proof.
  intros Ha Hb Hc. unfold truthy3. simpl.
  apply Reqb_false in Ha, Hb, Hc. now rewrite Ha, Hb, Hc.
Qed.

(** What the guards on three statistics let through. *)
Lemma guarded_some (field : SharpChannel.t -> option R)
    (channels : list SharpChannel.t) (a b c : R) :
  (rgb <- firstThree channels ;;
   let '(r, g, b) := rgb in truthy3 (field r) (field g) (field b))
  = Some (a, b, c) ->
  exists r g b' rest,
    channels = r :: g :: b' :: rest /\
    field r = Some a /\ field g = Some b /\ field b' = Some c /\
    a <> 0 /\ b <> 0 /\ c <> 0.
Proof.
  destruct channels as [| r [| g [| b' rest]]]; simpl; try discriminate.
  intros Ht. apply truthy3_some in Ht as ((Hr & Hg & Hb) & Ha & Hb' & Hc).
  exists r, g, b', rest. auto 10.
Qed.

Lemma Rmax3_cases (a b c : R) :
  let m := Rmax (Rmax a b) c in
  (m = a \/ m = b \/ m = c) /\ a <= m /\ b <= m /\ c <= m.
Proof.
  cbv zeta. unfold Rmax.
  destruct (Rle_dec a b); destruct (Rle_dec _ c); repeat split; auto; lra.
Qed.

Lemma Rmin3_cases (a b c : R) :
  let m := Rmin (Rmin a b) c in
  (m = a \/ m = b \/ m = c) /\ m <= a /\ m <= b /\ m <= c.
Proof.
  cbv zeta. unfold Rmin.
  destruct (Rle_dec a b); destruct (Rle_dec _ c); repeat split; auto; lra.
Qed.

(** Rounding the distance of a number to its own rounding gives 0. *)
Lemma Math_round_remainder (x : R) : Math_round (x - IZR (Math_round x)) = 0%Z.
Proof.
  unfold Math_round at 1. apply Zfloor_eq.
  unfold Math_round. pose proof (Zfloor_bound (x + / 2)). simpl. lra.
Qed.

Lemma Math_round_between (lo hi : Z) (x : R) :
  IZR lo <= x <= IZR hi -> (lo <= Math_round x <= hi)%Z.
Proof.
  intros [Hlo Hhi].
  apply Math_round_le in Hlo, Hhi. now rewrite Math_round_IZR in Hlo, Hhi.
Qed.

(** [calculateVibrance] subtracts from the colourfulness its own rounding
    ([calculateSaturation]) and rounds the difference: it returns 0 for every
    list of channel statistics. *)
Theorem calculateVibrance_is_zero (channels : list SharpChannel.t) :
  calculateVibrance channels = 0%Z.
Proof.
  unfold calculateVibrance, calculateSaturation.
  destruct (meansOf channels) as [[[r g] b] |]; [| reflexivity].
  apply Math_round_remainder.
Qed.

(** An image whose three channels have the same non-zero mean is neutral:
    temperature 5500, tint 0, saturation 0. *)
Theorem gray_image_is_neutral (r g b : SharpChannel.t)
    (rest : list SharpChannel.t) (m : R) :
  SharpChannel.mean r = Some m -> SharpChannel.mean g = Some m ->
  SharpChannel.mean b = Some m -> m <> 0 ->
  calculateColorTemperature (r :: g :: b :: rest) = Some 5500 /\
  calculateTint (r :: g :: b :: rest) = Some 0%Z /\
  calculateSaturation (r :: g :: b :: rest) = 0%Z.
Proof.
  intros Hr Hg Hb Hm.
  assert (Hmeans : meansOf (r :: g :: b :: rest) = Some (m, m, m)).
  { unfold meansOf. simpl. rewrite Hr, Hg, Hb. now apply truthy3_intro. }
  unfold calculateColorTemperature, calculateTint, calculateSaturation.
  rewrite Hmeans.
  assert (Hq : jsdiv m ((m + m) / 2) = Some 1).
  { rewrite jsdiv_some by lra. f_equal. field. lra. }
  rewrite Hq. cbn [bind]. repeat split.
  - f_equal. lra.
  - f_equal. replace ((1 - 1) * 20) with (IZR 0) by (simpl; lra).
    apply Math_round_IZR.
  - unfold Rmax, Rmin. destruct (Rle_dec m m); [| lra].
    destruct (Rle_dec m m); [| lra].
    replace ((m - m) / m * 100) with (IZR 0) by (simpl; field; lra).
    apply Math_round_IZR.
Qed.

Lemma gray_image_is_neutral_witness :
  calculateColorTemperature [grayChannel; grayChannel; grayChannel] = Some 5500 /\
  calculateTint [grayChannel; grayChannel; grayChannel] = Some 0%Z /\
  calculateSaturation [grayChannel; grayChannel; grayChannel] = 0%Z.
Proof.
  apply (gray_image_is_neutral grayChannel grayChannel grayChannel [] 128);
    (reflexivity || lra).
Defined.

(** For statistics with no negative mean, [calculateSaturation] is a
    percentage. *)
Lemma calculateSaturation_percentage (channels : list SharpChannel.t) :
  (forall channel m,
      In channel channels -> SharpChannel.mean channel = Some m -> 0 <= m) ->
  (0 <= calculateSaturation channels <= 100)%Z.
Proof.
  intros Hpos. unfold calculateSaturation.
  destruct (meansOf channels) as [[[r g] b] |] eqn:E; [| lia].
  apply guarded_some in E
    as (cr & cg & cb & rest & -> & Hr & Hg & Hb & Hr0 & Hg0 & Hb0).
  assert (0 < r) by (pose proof (Hpos cr r ltac:(simpl; auto) Hr); lra).
  assert (0 < g) by (pose proof (Hpos cg g ltac:(simpl; auto) Hg); lra).
  assert (0 < b) by (pose proof (Hpos cb b ltac:(simpl; auto) Hb); lra).
  pose proof (Rmax3_cases r g b) as (_ & Hxr & Hxg & Hxb).
  pose proof (Rmin3_cases r g b) as (Hn & Hnr & Hng & Hnb).
  cbv zeta in *.
  set (mx := Rmax (Rmax r g) b) in *. set (mn := Rmin (Rmin r g) b) in *.
  assert (Hmn : 0 < mn) by (destruct Hn as [-> | [-> | ->]]; assumption).
  apply Math_round_between. simpl.
  assert (Hq : 0 <= (mx - mn) / mx <= 1) by (apply Rdiv_between; lra).
  lra.
Qed.

Lemma eightBit_first_three (field : SharpChannel.t -> option R)
    (lo hi : R) (channels : list SharpChannel.t) (a b c : R) :
  (forall channel v, In channel channels -> field channel = Some v -> lo <= v <= hi) ->
  (rgb <- firstThree channels ;;
   let '(r, g, b) := rgb in truthy3 (field r) (field g) (field b))
  = Some (a, b, c) ->
  lo <= a <= hi /\ lo <= b <= hi /\ lo <= c <= hi.
Proof.
  intros Hall E.
  apply guarded_some in E as (cr & cg & cb & rest & -> & Hr & Hg & Hb & _).
  split; [| split].
  - apply (Hall cr a); simpl; auto.
  - apply (Hall cg b); simpl; auto.
  - apply (Hall cb c); simpl; auto.
Qed.

(** On statistics of 8-bit samples the three basic estimators stay in their
    ranges: exposure between -5 and 5, brightness between 0 and 100, contrast
    between 0 and 50; the tone-map strength is between 0 and 100 for every
    input. *)
Theorem basic_tone_ranges (channels : list SharpChannel.t) :
  Forall eightBit channels ->
  -5 <= calculateExposure channels <= 5 /\
  (0 <= calculateBrightness channels <= 100)%Z /\
  (0 <= calculateContrast channels <= 50)%Z /\
  (0 <= calculateToneMapStrength channels <= 100)%Z.
Proof.
  intros Hall. rewrite Forall_forall in Hall.
  assert (Hmean : forall channel v, In channel channels ->
             SharpChannel.mean channel = Some v -> 0 <= v <= 255).
  { intros channel v Hin. now apply (Hall channel Hin). }
  assert (Hstdev : forall channel v, In channel channels ->
             SharpChannel.stdev channel = Some v -> 0 <= v <= 128).
  { intros channel v Hin. now apply (Hall channel Hin). }
  unfold calculateExposure, calculateBrightness, calculateContrast.
  split; [| split; [| split]].
  - destruct (meansOf channels) as [[[r g] b] |] eqn:E; [| lra].
    apply (eightBit_first_three _ 0 255 _ _ _ _ Hmean) in E. lra.
  - destruct (meansOf channels) as [[[r g] b] |] eqn:E; [| lia].
    apply (eightBit_first_three _ 0 255 _ _ _ _ Hmean) in E.
    apply Math_round_between. simpl. lra.
  - destruct (stdevsOf channels) as [[[r g] b] |] eqn:E; [| lia].
    apply (eightBit_first_three _ 0 128 _ _ _ _ Hstdev) in E.
    apply Math_round_between. simpl. lra.
  - unfold calculateToneMapStrength.
    destruct (meansOf channels) as [[[? ?] ?] |]; [| lia].
    destruct (maxsOf channels) as [[[? ?] ?] |]; [| lia].
    destruct (minsOf channels) as [[[? ?] ?] |]; [| lia].
    destruct (stdevsOf channels) as [[[? ?] ?] |]; lia.
Qed.

Lemma grayChannel_eightBit : eightBit grayChannel.
Proof.
  unfold eightBit, grayChannel; simpl.
  split; [| split; [| split]]; intros ? [= <-]; lra.
Qed.

Lemma fullChannel_eightBit : eightBit fullChannel.
Proof.
  unfold eightBit, fullChannel; simpl.
  split; [| split; [| split]]; intros ? [= <-]; lra.
Qed.

Lemma blackChannel_eightBit : eightBit blackChannel.
Proof.
  unfold eightBit, blackChannel; simpl.
  split; [| split; [| split]]; intros ? [= <-]; lra.
Qed.

Lemma basic_tone_ranges_witness :
  -5 <= calculateExposure [fullChannel; grayChannel; fullChannel] <= 5 /\
  (0 <= calculateBrightness [fullChannel; grayChannel; fullChannel] <= 100)%Z /\
  (0 <= calculateContrast [fullChannel; grayChannel; fullChannel] <= 50)%Z /\
  (0 <= calculateToneMapStrength [fullChannel; grayChannel; fullChannel] <= 100)%Z.
Proof.
  apply (basic_tone_ranges [fullChannel; grayChannel; fullChannel]).
  auto using Forall_cons, Forall_nil, fullChannel_eightBit, grayChannel_eightBit.
Defined.

(** Rounding a number that is off by less than one half stays within the
    integer bounds of the exact number. *)
Lemma Math_round_near (lo hi : Z) (y err : R) :
  IZR lo <= y <= IZR hi -> Rabs err < / 2 ->
  (lo <= Math_round (y + err) <= hi)%Z.
Proof.
  intros [Hlo Hhi] Herr. apply Rabs_def2 in Herr as [Hup Hdown].
  unfold Math_round. split.
  - apply Zfloor_lub. lra.
  - pose proof (Zfloor_bound (y + err + / 2)) as [Hfloor _].
    assert (Hlt : IZR (Zfloor (y + err + / 2)) < IZR (hi + 1))
      by (rewrite plus_IZR; lra).
    apply lt_IZR in Hlt. lia.
Qed.

(** Two numbers [k] apart, each off by less than one half, round to integers
    between [k - 1] and [k + 1] apart. *)
Lemma Math_round_apart (k : Z) (y e1 e2 : R) :
  Rabs e1 < / 2 -> Rabs e2 < / 2 ->
  (k - 1 <= Math_round (IZR k + y + e2) - Math_round (y + e1) <= k + 1)%Z.
Proof.
  intros H1 H2. apply Rabs_def2 in H1 as [H1u H1d]. apply Rabs_def2 in H2 as [H2u H2d].
  unfold Math_round.
  replace (IZR k + y + e2 + / 2) with (y + e2 + / 2 + IZR k) by lra.
  rewrite Zfloor_addz.
  pose proof (Zfloor_bound (y + e1 + / 2)) as [Ha Ha'].
  pose proof (Zfloor_bound (y + e2 + / 2)) as [Hb Hb'].
  assert (Hlow : IZR (Zfloor (y + e1 + / 2)) < IZR (Zfloor (y + e2 + / 2) + 2))
    by (rewrite plus_IZR; lra).
  assert (Hhigh : IZR (Zfloor (y + e2 + / 2)) < IZR (Zfloor (y + e1 + / 2) + 2))
    by (rewrite plus_IZR; lra).
  apply lt_IZR in Hlow, Hhigh. lia.
Qed.

(** On statistics of 8-bit samples, and whatever the rounding errors of the
    three evaluations (each below one half), the splits stay in the ranges
    the source comments give, 15 to 35, 40 to 60 and 65 to 85, and two
    neighbouring splits are between 24 and 26 apart: the curve built from
    them never has two equal inputs. *)
Theorem parametric_splits_ranges (channels : list SharpChannel.t)
    (e1 e2 e3 : R) :
  Forall eightBit channels ->
  Rabs e1 < / 2 -> Rabs e2 < / 2 -> Rabs e3 < / 2 ->
  let shadow := calculateParametricShadowSplit channels e1 in
  let midtone := calculateParametricMidtoneSplit channels e2 in
  let highlight := calculateParametricHighlightSplit channels e3 in
  (15 <= shadow <= 35)%Z /\ (40 <= midtone <= 60)%Z /\
  (65 <= highlight <= 85)%Z /\
  (24 <= midtone - shadow <= 26)%Z /\ (24 <= highlight - midtone <= 26)%Z.
Proof.
  intros Hall H1 H2 H3. cbv zeta. rewrite Forall_forall in Hall.
  assert (Hmean : forall channel v, In channel channels ->
             SharpChannel.mean channel = Some v -> 0 <= v <= 255).
  { intros channel v Hin. now apply (Hall channel Hin). }
  unfold calculateParametricShadowSplit, calculateParametricMidtoneSplit,
    calculateParametricHighlightSplit.
  destruct (meansOf channels) as [[[r g] b] |] eqn:E; [| lia].
  apply (eightBit_first_three _ 0 255 _ _ _ _ Hmean) in E.
  set (d := ((r + g + b) / 3 / 255 - 0.5) * 20).
  assert (Hd : -10 <= d <= 10) by (unfold d; lra).
  split; [apply Math_round_near; [simpl; lra | assumption] |].
  split; [apply Math_round_near; [simpl; lra | assumption] |].
  split; [apply Math_round_near; [simpl; lra | assumption] |].
  split.
  - replace (50 + d + e2) with (IZR 25 + (25 + d) + e2) by (simpl; lra).
    now apply (Math_round_apart 25).
  - replace (75 + d + e3) with (IZR 25 + (50 + d) + e3) by (simpl; lra).
    now apply (Math_round_apart 25).
Qed.

Lemma parametric_splits_ranges_witness :
  let channels := [fullChannel; grayChannel; fullChannel] in
  let shadow := calculateParametricShadowSplit channels (- / 1000) in
  let midtone := calculateParametricMidtoneSplit channels 0 in
  let highlight := calculateParametricHighlightSplit channels (/ 1000) in
  (15 <= shadow <= 35)%Z /\ (40 <= midtone <= 60)%Z /\
  (65 <= highlight <= 85)%Z /\
  (24 <= midtone - shadow <= 26)%Z /\ (24 <= highlight - midtone <= 26)%Z.
Proof.
  apply (parametric_splits_ranges [fullChannel; grayChannel; fullChannel]
           (- / 1000) 0 (/ 1000)).
  - auto using Forall_cons, Forall_nil, fullChannel_eightBit, grayChannel_eightBit.
  - rewrite Rabs_Ropp, Rabs_right; lra.
  - rewrite Rabs_R0; lra.
  - rewrite Rabs_right; lra.
Defined.

Lemma fold_left_Rmax_between (lo hi : R) (rest : list R) (x : R) :
  lo <= x <= hi -> Forall (fun v => lo <= v <= hi) rest ->
  lo <= fold_left Rmax rest x <= hi.
Proof.
  intros Hx Hrest.
  apply (fold_left_invariant (fun acc => lo <= acc <= hi)); [assumption |].
  intros acc v Hin Hacc. rewrite Forall_forall in Hrest.
  specialize (Hrest v Hin). unfold Rmax. destruct (Rle_dec acc v); lra.
Qed.

Lemma fold_left_Rmin_between (lo hi : R) (rest : list R) (x : R) :
  lo <= x <= hi -> Forall (fun v => lo <= v <= hi) rest ->
  lo <= fold_left Rmin rest x <= hi.
Proof.
  intros Hx Hrest.
  apply (fold_left_invariant (fun acc => lo <= acc <= hi)); [assumption |].
  intros acc v Hin Hacc. rewrite Forall_forall in Hrest.
  specialize (Hrest v Hin). unfold Rmin. destruct (Rle_dec acc v); lra.
Qed.

Lemma maxOfList_between (lo hi : R) (xs : list R) :
  xs <> [] -> Forall (fun v => lo <= v <= hi) xs ->
  exists m, maxOfList xs = Some m /\ lo <= m <= hi.
Proof.
  intros Hne Hall. destruct xs as [| x rest]; [contradiction |].
  inversion Hall; subst. eexists. split; [reflexivity |].
  now apply fold_left_Rmax_between.
Qed.

(** For a non-empty list of 8-bit statistics the shadow and the highlight
    amounts are finite and lie between 0 and 50. *)
Theorem shadows_highlights_ranges (channels : list SharpChannel.t) :
  channels <> [] -> Forall eightBit channels ->
  exists shadows highlights,
    calculateShadows channels = Some shadows /\
    calculateHighlights channels = Some highlights /\
    (0 <= shadows <= 50)%Z /\ (0 <= highlights <= 50)%Z.
Proof.
  intros Hne Hall. unfold calculateShadows, calculateHighlights.
  match goal with
  | |- context [maxOfList (map ?f channels)] =>
      destruct (maxOfList_between 0 1 (map f channels)) as (s & -> & Hs)
  end.
  { destruct channels; [contradiction | discriminate]. }
  { apply Forall_map. eapply Forall_impl; [| exact Hall].
    intros channel (Hmean & _). destruct (SharpChannel.mean channel) as [m |]; [| lra].
    specialize (Hmean m eq_refl).
    destruct (m <? 64) eqn:E; [| lra].
    apply Rltb_true in E. apply Rdiv_between; lra. }
  match goal with
  | |- context [maxOfList (map ?f channels)] =>
      destruct (maxOfList_between 0 1 (map f channels)) as (h & -> & Hh)
  end.
  { destruct channels; [contradiction | discriminate]. }
  { apply Forall_map. eapply Forall_impl; [| exact Hall].
    intros channel (Hmean & _). destruct (SharpChannel.mean channel) as [m |]; [| lra].
    specialize (Hmean m eq_refl).
    destruct (m >? 192) eqn:E; [| lra].
    apply Rgtb_true in E. apply Rdiv_between; lra. }
  cbn [bind]. eexists. eexists. split; [reflexivity |]. split; [reflexivity |].
  split; apply Math_round_between; simpl; lra.
Qed.

Lemma shadows_highlights_ranges_witness :
  exists shadows highlights,
    calculateShadows [fullChannel; grayChannel; blackChannel] = Some shadows /\
    calculateHighlights [fullChannel; grayChannel; blackChannel] = Some highlights /\
    (0 <= shadows <= 50)%Z /\ (0 <= highlights <= 50)%Z.
Proof.
  apply (shadows_highlights_ranges [fullChannel; grayChannel; blackChannel]).
  - discriminate.
  - auto using Forall_cons, Forall_nil, fullChannel_eightBit,
      grayChannel_eightBit, blackChannel_eightBit.
Defined.

Lemma vignetteStep_none (channels : list SharpChannel.t) :
  fold_left vignetteStep channels None = None.
Proof.
  induction channels as [| channel rest IH]; [reflexivity |].
  simpl. unfold vignetteStep at 2.
  destruct (SharpChannel.mean channel), (SharpChannel.min channel); exact IH.
Qed.

Lemma jsdiv_zero (x : R) : jsdiv x 0 = None.
Proof. unfold jsdiv. destruct (Req_dec_T 0 0); [reflexivity | contradiction]. Qed.

(** A channel of mean 0 makes the vignette amount a non-finite number: the
    darkening of that channel is a quotient by its mean. *)
Theorem calculateVignetteAmount_black_channel (channels : list SharpChannel.t)
    (channel : SharpChannel.t) (edge : R) :
  In channel channels ->
  SharpChannel.mean channel = Some 0 -> SharpChannel.min channel = Some edge ->
  calculateVignetteAmount channels = None.
Proof.
  intros Hin Hmean Hmin. unfold calculateVignetteAmount.
  assert (Hsum : forall acc, fold_left vignetteStep channels acc = None).
  { induction channels as [| c rest IH]; [contradiction |].
    intros acc. simpl. destruct Hin as [-> | Hin].
    - unfold vignetteStep at 2. rewrite Hmean, Hmin, jsdiv_zero.
      destruct acc; apply vignetteStep_none.
    - now apply IH. }
  now rewrite Hsum.
Qed.

Lemma calculateVignetteAmount_black_channel_witness :
  calculateVignetteAmount [fullChannel; blackChannel; fullChannel] = None.
Proof.
  apply (calculateVignetteAmount_black_channel
           [fullChannel; blackChannel; fullChannel] blackChannel 0);
    simpl; auto.
Defined.

(** When every channel that has a mean and a minimum has a positive mean and
    a minimum between 0 and the mean, the vignette amount of a non-empty list
    is finite and lies between 0 and 50. *)
Theorem calculateVignetteAmount_range (channels : list SharpChannel.t) :
  channels <> [] ->
  (forall channel center edge,
      In channel channels ->
      SharpChannel.mean channel = Some center ->
      SharpChannel.min channel = Some edge ->
      0 < center /\ 0 <= edge <= center) ->
  exists amount,
    calculateVignetteAmount channels = Some amount /\ (0 <= amount <= 50)%Z.
Proof.
  intros Hne Hok. unfold calculateVignetteAmount.
  assert (Hsum : forall acc a,
             acc = Some a ->
             exists a', fold_left vignetteStep channels acc = Some a' /\
                        a <= a' <= a + INR (length channels)).
  { clear Hne. induction channels as [| c rest IH]; intros acc a ->.
    - exists a. simpl. split; [reflexivity | lra].
    - cbn [fold_left]. rewrite length_cons, S_INR.
      assert (Hstep : exists a1, vignetteStep (Some a) c = Some a1 /\ a <= a1 <= a + 1).
      { unfold vignetteStep.
        destruct (SharpChannel.mean c) as [center |] eqn:Ec; [| exists a; split; [reflexivity | lra]].
        destruct (SharpChannel.min c) as [edge |] eqn:Ee; [| exists a; split; [reflexivity | lra]].
        destruct (Hok c center edge ltac:(now left) Ec Ee) as [Hc He].
        cbn [bind]. rewrite jsdiv_some by lra. cbn [bind].
        eexists. split; [reflexivity |].
        assert (0 <= (center - edge) / center <= 1) by (apply Rdiv_between; lra).
        lra. }
      destruct Hstep as (a1 & Hs & Ha1).
      destruct (IH ltac:(intros; eapply Hok; eauto; now right) _ a1 Hs)
        as (a' & Hf & Ha').
      exists a'. split; [assumption | lra]. }
  destruct (Hsum (Some 0) 0 eq_refl) as (sum & -> & Hs). cbn [bind].
  assert (Hn : 0 < INR (length channels)).
  { apply lt_0_INR. destruct channels; [contradiction | simpl; lia]. }
  rewrite jsdiv_some by lra. cbn [bind].
  eexists. split; [reflexivity |].
  assert (0 <= sum / INR (length channels) <= 1) by (apply Rdiv_between; lra).
  apply Math_round_between. simpl. lra.
Qed.

Lemma calculateVignetteAmount_range_witness :
  exists amount,
    calculateVignetteAmount [fullChannel; grayChannel] = Some amount /\
    (0 <= amount <= 50)%Z.
Proof.
  apply (calculateVignetteAmount_range [fullChannel; grayChannel]).
  - discriminate.
  - intros channel center edge [<- | [<- | []]] [= <-] [= <-]; lra.
Defined.

Lemma fold_left_Rmax_zero (rest : list R) :
  Forall (eq 0) rest -> fold_left Rmax rest 0 = 0.
Proof.
  intros Hall.
  apply (fold_left_invariant (fun acc => acc = 0)); [reflexivity |].
  intros acc v Hin ->. rewrite Forall_forall in Hall. rewrite <- (Hall v Hin).
  apply Rmax_left. lra.
Qed.

(** When no channel has a non-zero minimum (an image with a black pixel in
    every channel), the shadow saturation of the split toning is the quotient
    of 0 by 0: not a finite number. *)
Theorem calculateSplitToningShadowSaturation_black_point
    (channels : list SharpChannel.t) :
  (forall channel, In channel channels ->
     SharpChannel.min channel = None \/ SharpChannel.min channel = Some 0) ->
  calculateSplitToningShadowSaturation channels = None.
Proof.
  intros Hzero. unfold calculateSplitToningShadowSaturation.
  assert (Hall : Forall (eq 0) (shadowColorsOf channels)).
  { unfold shadowColorsOf. apply Forall_map, Forall_forall.
    intros channel Hin. destruct (Hzero channel Hin) as [-> | ->]; reflexivity. }
  destruct (shadowColorsOf channels) as [| x rest]; [reflexivity |].
  inversion Hall as [| ? ? <- Hrest]; subst.
  cbn [maxOfList minOfList bind]. rewrite (fold_left_Rmax_zero rest Hrest).
  now rewrite jsdiv_zero.
Qed.

Lemma calculateSplitToningShadowSaturation_black_point_witness :
  calculateSplitToningShadowSaturation [fullChannel; blackChannel; fullChannel] = None.
Proof.
  apply (calculateSplitToningShadowSaturation_black_point
           [fullChannel; blackChannel; fullChannel]).
  intros channel [<- | [<- | [<- | []]]]; now right.
Defined.

(** ** Colour matrices *)

(** Opens the matrices of the context and settles an equation between
    matrices or colour points entry by entry. *)
Ltac entrywise :=
  repeat match goal with
         | m : Matrix3x3 |- _ =>
             destruct m as [[[[? ?] ?] [[? ?] ?]] [[? ?] ?]]
         | p : ColorPoint.t R |- _ => destruct p
         end;
  unfold multiplyMatrices, applyColorMatrix, IDENTITY_MATRIX, at_;
  cbn [nth3 fst snd ColorPoint.r ColorPoint.g ColorPoint.b];
  repeat apply (f_equal2 (@pair _ _));
  try (apply (f_equal3 (@ColorPoint.mk R)));
  ring.

Lemma multiplyMatrices_identity_r (m : Matrix3x3) :
  multiplyMatrices m IDENTITY_MATRIX = m.
Proof. entrywise. Qed.

Lemma applyColorMatrix_identity (point : ColorPoint.t R) :
  applyColorMatrix point IDENTITY_MATRIX = point.
Proof. entrywise. Qed.

Lemma calculateHueSaturationMatrix_neutral :
  calculateHueSaturationMatrix 0 0 = IDENTITY_MATRIX.
Proof.
  unfold calculateHueSaturationMatrix, IDENTITY_MATRIX. cbv zeta.
  replace (0 * PI / 180) with 0 by lra. rewrite cos_0, sin_0.
  repeat apply f_equal2; lra.
Qed.

(** [multiplyMatrices] is associative. *)
Lemma multiplyMatrices_assoc (a b c : Matrix3x3) :
  multiplyMatrices (multiplyMatrices a b) c
  = multiplyMatrices a (multiplyMatrices b c).
Proof. entrywise. Qed.

(** Applying the product of two matrices to a colour point is applying the
    right factor first and the left factor to the result. *)
Lemma applyColorMatrix_product (point : ColorPoint.t R) (a b : Matrix3x3) :
  applyColorMatrix point (multiplyMatrices a b)
  = applyColorMatrix (applyColorMatrix point b) a.
Proof. entrywise. Qed.

Lemma bandStep_unskipped (resultMatrix : Matrix3x3) (hue saturation : R) :
  (if negb (hue =? 0) || negb (saturation =? 0)
   then multiplyMatrices resultMatrix (calculateHueSaturationMatrix hue saturation)
   else resultMatrix)
  = multiplyMatrices resultMatrix (calculateHueSaturationMatrix hue saturation).
Proof.
  destruct (hue =? 0) eqn:Eh; destruct (saturation =? 0) eqn:Es;
    cbn [negb orb]; try reflexivity.
  apply Reqb_true in Eh, Es. subst.
  now rewrite calculateHueSaturationMatrix_neutral, multiplyMatrices_identity_r.
Qed.

(** The colour stage of the lookup table applies the eight band matrices to
    the grid point one after the other, magenta first and red last; the
    bands that the code skips (hue and saturation both 0) are the ones whose
    matrix is the identity, so skipping them changes nothing. *)
Theorem calculateColorMatrixFromProperties_bands
    (properties : ImageProperties.t) (point : ColorPoint.t R) :
  applyColorMatrix point (calculateColorMatrixFromProperties properties)
  = applyBands (colorRangesOf properties) point.
Proof.
  unfold calculateColorMatrixFromProperties.
  rewrite <- (applyColorMatrix_identity (applyBands _ point)).
  generalize IDENTITY_MATRIX as m.
  induction (colorRangesOf properties) as [| [hue saturation] bands IH];
    intros m; [reflexivity |].
  cbn [fold_left]. rewrite bandStep_unskipped, IH.
  unfold applyBands. cbn [fold_right]. entrywise.
Qed.

(** Without hue shift the band matrix blends every colour point, by the
    saturation factor [1 + saturation / 100], with the split of the sum of
    its components in the proportions 0.213 : 0.715 : 0.072; the sum of the
    components is kept.  At saturation -100 the result is that split, which
    is not a gray. *)
Theorem calculateHueSaturationMatrix_without_hue_shift (saturation : R)
    (point : ColorPoint.t R) :
  let satFactor := 1 + saturation / 100 in
  let total := ColorPoint.r point + ColorPoint.g point + ColorPoint.b point in
  let q := applyColorMatrix point (calculateHueSaturationMatrix 0 saturation) in
  q = ColorPoint.mk
        (satFactor * ColorPoint.r point + (1 - satFactor) * (0.213 * total))
        (satFactor * ColorPoint.g point + (1 - satFactor) * (0.715 * total))
        (satFactor * ColorPoint.b point + (1 - satFactor) * (0.072 * total)) /\
  ColorPoint.r q + ColorPoint.g q + ColorPoint.b q = total.
Proof.
  destruct point as [r g b].
  unfold calculateHueSaturationMatrix, applyColorMatrix, at_. cbv zeta.
  replace (0 * PI / 180) with 0 by lra. rewrite cos_0, sin_0.
  cbn [nth3 fst snd ColorPoint.r ColorPoint.g ColorPoint.b].
  split; [f_equal; lra | lra].
Qed.

(** ** Tone curve interpolation *)

Lemma applySegments_knot (curve : ToneCurve) :
  strictlyIncreasing (curveInputs curve) ->
  forall (i : nat) (x y : R),
    (2 <= length curve)%nat ->
    nth_error curve i = Some [x; y] ->
    applySegments (x / 255) curve = Some (y / 255).
Proof.
  unfold strictlyIncreasing.
  induction curve as [| p1 rest IH]; intros Hinc i x y Hlen Hi; [simpl in Hlen; lia |].
  destruct rest as [| p2 rest]; [simpl in Hlen; lia |].
  simpl in Hinc. inversion Hinc as [| ? ? Hrest Hhead]; subst.
  inversion Hhead as [| ? ? Hlt Hlater]; subst.
  cbn [applySegments].
  destruct i as [| [| i]].
  - injection Hi as ->. cbn [nth] in *. cmp. cbn [andb].
    rewrite jsdiv_some by lra. cbn [bind]. f_equal. field. lra.
  - injection Hi as ->. cbn [nth] in *. cmp. cbn [andb].
    rewrite jsdiv_some by lra. cbn [bind]. f_equal. field. lra.
  - cbn [nth_error] in Hi.
    assert (Hx : nth 0 p2 0 < x).
    { inversion Hrest as [| ? ? _ Hafter]; subst.
      rewrite Forall_forall in Hafter. apply Hafter.
      pose proof (nth_error_In _ _ Hi) as Hmem.
      apply (in_map (fun point => nth 0 point 0)) in Hmem. exact Hmem. }
    replace (x / 255 <=? nth 0 p2 0 / 255) with false
      by (symmetry; apply Rleb_false; lra).
    rewrite andb_false_r.
    apply (IH Hrest (S i)).
    + destruct rest; [destruct i; discriminate | simpl; lia].
    + exact Hi.
Qed.

(** On a valid curve of at least two points whose inputs strictly increase,
    [applyToneCurve] passes through every point of the curve: at the input
    [x / 255] of a point [[x, y]] it returns [y / 255]. *)
Theorem applyToneCurve_through_points (curve : ToneCurve) (i : nat) (x y : R) :
  validateToneCurvePoints curve = true ->
  (2 <= length curve)%nat ->
  strictlyIncreasing (curveInputs curve) ->
  nth_error curve i = Some [x; y] ->
  applyToneCurve (x / 255) (Some curve) = Some (y / 255).
Proof.
  intros Hvalid Hlen Hinc Hi. unfold applyToneCurve, effectiveCurve.
  rewrite Hvalid. now apply (applySegments_knot curve Hinc i).
Qed.

Lemma increasing_example : strictlyIncreasing (curveInputs [[0; 10]; [128; 140]; [255; 250]]).
Proof.
  unfold strictlyIncreasing. simpl.
  repeat first [apply SSorted_nil | apply SSorted_cons | apply Forall_nil | apply Forall_cons];
    lra.
Qed.

Lemma applyToneCurve_through_points_witness :
  applyToneCurve (128 / 255) (Some [[0; 10]; [128; 140]; [255; 250]])
  = Some (140 / 255).
Proof.
  apply (applyToneCurve_through_points [[0; 10]; [128; 140]; [255; 250]] 1 128 140).
  - reflexivity.
  - simpl. lia.
  - apply increasing_example.
  - reflexivity.
Defined.

Lemma applySegments_below (value : R) (curve : ToneCurve) :
  Forall (fun x => value < x / 255) (curveInputs curve) ->
  applySegments value curve = Some value.
Proof.
  induction curve as [| p1 rest IH]; intros Hall; [reflexivity |].
  destruct rest as [| p2 rest]; [reflexivity |].
  cbn [applySegments]. simpl in Hall.
  inversion Hall as [| ? ? H1 Hrest]; subst.
  replace (value >=? nth 0 p1 0 / 255) with false
    by (symmetry; apply Rgeb_false; lra).
  cbn [andb]. now apply IH.
Qed.

Lemma applySegments_above (value : R) (curve : ToneCurve) :
  Forall (fun x => x / 255 < value) (curveInputs curve) ->
  applySegments value curve = Some value.
Proof.
  induction curve as [| p1 rest IH]; intros Hall; [reflexivity |].
  destruct rest as [| p2 rest]; [reflexivity |].
  cbn [applySegments]. simpl in Hall.
  inversion Hall as [| ? ? H1 Hrest]; subst.
  inversion Hrest as [| ? ? H2 _]; subst.
  replace (value <=? nth 0 p2 0 / 255) with false
    by (symmetry; apply Rleb_false; lra).
  rewrite andb_false_r. now apply IH.
Qed.

Lemma increasing_first_least (x : R) (xs : list R) :
  StronglySorted Rlt (x :: xs) -> Forall (fun v => x <= v) (x :: xs).
Proof.
  intros Hs. inversion Hs as [| ? ? _ Hall]; subst.
  constructor; [lra |].
  eapply Forall_impl; [| exact Hall]. intros v Hv. lra.
Qed.

Lemma increasing_last_greatest (xs : list R) :
  StronglySorted Rlt xs -> Forall (fun v => v <= last xs 0) xs.
Proof.
  induction xs as [| x rest IH]; intros Hs; [constructor |].
  inversion Hs as [| ? ? Hrest Hall]; subst.
  destruct rest as [| x2 rest].
  - constructor; [simpl; lra | constructor].
  - change (last (x :: x2 :: rest) 0) with (last (x2 :: rest) 0).
    specialize (IH Hrest). constructor; [| exact IH].
    inversion IH as [| ? ? H2 _]; subst.
    inversion Hall as [| ? ? Hx _]; subst. lra.
Qed.

(** Outside the range of its inputs a curve changes nothing: a value below
    the first input or above the last one (both taken over 255) comes back as
    it is, when the inputs strictly increase. *)
Theorem applyToneCurve_outside_range (curve : ToneCurve) (value : R) :
  validateToneCurvePoints curve = true ->
  strictlyIncreasing (curveInputs curve) ->
  value < hd 0 (curveInputs curve) / 255
  \/ last (curveInputs curve) 0 / 255 < value ->
  applyToneCurve value (Some curve) = Some value.
Proof.
  intros Hvalid Hinc Hout. unfold applyToneCurve, effectiveCurve.
  rewrite Hvalid. unfold strictlyIncreasing in Hinc.
  destruct Hout as [Hlow | Hhigh].
  - apply applySegments_below.
    destruct (curveInputs curve) as [| x xs] eqn:E; [constructor |].
    apply increasing_first_least in Hinc. cbn [hd] in Hlow.
    eapply Forall_impl; [| exact Hinc]. intros v Hv. cbv beta in *. lra.
  - apply applySegments_above.
    apply increasing_last_greatest in Hinc.
    eapply Forall_impl; [| exact Hinc]. intros v Hv. cbv beta in *. lra.
Qed.

Lemma applyToneCurve_outside_range_witness :
  applyToneCurve (- (1 / 10)) (Some [[0; 10]; [128; 140]; [255; 250]])
  = Some (- (1 / 10)).
Proof.
  apply (applyToneCurve_outside_range [[0; 10]; [128; 140]; [255; 250]]).
  - reflexivity.
  - apply increasing_example.
  - left. simpl. lra.
Defined.

Lemma applySegments_between (lo hi value : R) (curve : ToneCurve) :
  StronglySorted Rlt (curveInputs curve) ->
  Forall (fun point => lo <= nth 1 point 0 <= hi) curve ->
  hd 0 (curveInputs curve) / 255 <= value <= last (curveInputs curve) 0 / 255 ->
  (2 <= length curve)%nat ->
  exists v, applySegments value curve = Some v /\ lo / 255 <= v <= hi / 255.
Proof.
  induction curve as [| p1 rest IH]; intros Hinc Hout Hin Hlen; [simpl in Hlen; lia |].
  destruct rest as [| p2 rest]; [simpl in Hlen; lia |].
  simpl in Hinc. inversion Hinc as [| ? ? Hrest Hhead]; subst.
  inversion Hhead as [| ? ? Hlt _]; subst.
  inversion Hout as [| ? ? H1 Hout']; subst.
  inversion Hout' as [| ? ? H2 _]; subst.
  cbn [applySegments].
  cbn [curveInputs map hd] in Hin.
  destruct (value <=? nth 0 p2 0 / 255) eqn:E.
  - apply Rleb_true in E.
    replace (value >=? nth 0 p1 0 / 255) with true
      by (symmetry; apply Rgeb_true; lra).
    cbn [andb]. rewrite jsdiv_some by lra. cbn [bind].
    eexists. split; [reflexivity |].
    set (t := (value - nth 0 p1 0 / 255) / (nth 0 p2 0 / 255 - nth 0 p1 0 / 255)).
    assert (Ht : 0 <= t <= 1) by (apply Rdiv_between; lra).
    nra.
  - apply Rleb_false in E. rewrite andb_false_r.
    destruct rest as [| p3 rest].
    + simpl in Hin. lra.
    + apply IH; [exact Hrest | exact Hout' | | simpl; lia].
      unfold curveInputs in *. cbn [map hd] in *.
      match type of Hin with
      | context [last (?a :: ?b :: ?l) 0] =>
          change (last (a :: b :: l) 0) with (last (b :: l) 0) in Hin
      end.
      lra.
Qed.

(** On a valid curve of at least two points whose inputs strictly increase
    and whose outputs lie between 0 and 255, every value inside the range of
    the inputs is sent to a number between 0 and 1. *)
Theorem applyToneCurve_unit_range (curve : ToneCurve) (value : R) :
  validateToneCurvePoints curve = true ->
  (2 <= length curve)%nat ->
  strictlyIncreasing (curveInputs curve) ->
  Forall (fun point => 0 <= nth 1 point 0 <= 255) curve ->
  hd 0 (curveInputs curve) / 255 <= value <= last (curveInputs curve) 0 / 255 ->
  exists v, applyToneCurve value (Some curve) = Some v /\ 0 <= v <= 1.
Proof.
  intros Hvalid Hlen Hinc Hout Hin. unfold applyToneCurve, effectiveCurve.
  rewrite Hvalid.
  destruct (applySegments_between 0 255 value curve Hinc Hout Hin Hlen)
    as (v & Hv & Hr).
  exists v. split; [exact Hv | lra].
Qed.

Lemma applyToneCurve_unit_range_witness :
  exists v,
    applyToneCurve (1 / 2) (Some [[0; 10]; [128; 140]; [255; 250]]) = Some v
    /\ 0 <= v <= 1.
Proof.
  apply (applyToneCurve_unit_range [[0; 10]; [128; 140]; [255; 250]]).
  - reflexivity.
  - simpl. lia.
  - apply increasing_example.
  - repeat first [apply Forall_nil | apply Forall_cons]; simpl; lra.
  - simpl. lra.
Defined.

(** When the first two points of a valid curve have the same input [x],
    [applyToneCurve] forms [0 / 0] at [x / 255]: the result is not a
    number, whatever the rest of the curve. *)
Theorem applyToneCurve_NaN_at_repeated_input (after : ToneCurve) (x y1 y2 : R) :
  validateToneCurvePoints after = true ->
  applyToneCurve (x / 255) (Some ([x; y1] :: [x; y2] :: after)) = None.
Proof.
  intros Hvalid. unfold applyToneCurve, effectiveCurve.
  cbn [validateToneCurvePoints forallb length Nat.eqb andb].
  unfold validateToneCurvePoints in Hvalid. rewrite Hvalid.
  cbn [applySegments nth]. cmp. cbn [andb].
  unfold jsdiv. destruct (Req_dec_T (x / 255 - x / 255) 0) as [_ | Hn];
    [reflexivity | lra].
Qed.

Lemma applyToneCurve_NaN_at_repeated_input_witness :
  applyToneCurve (0 / 255) (Some ([0; 0] :: [0; 255] :: [[255; 255]])) = None.
Proof.
  apply (applyToneCurve_NaN_at_repeated_input [[255; 255]] 0 0 255).
  reflexivity.
Defined.

(** ** Exposure and contrast factors *)

Lemma Math_pow_2_5 : Math_pow 2 5 = 32.
Proof.
  unfold Math_pow. replace 5 with (INR 5) by (simpl; lra).
  rewrite Rpower_pow by lra. simpl. lra.
Qed.

Lemma Math_pow_2_0 : Math_pow 2 0 = 1.
Proof. unfold Math_pow. apply Rpower_O. lra. Qed.

Lemma clamp_between (lo hi x : R) : lo <= hi -> lo <= Rmax lo (Rmin hi x) <= hi.
Proof.
  intros H. unfold Rmax, Rmin.
  destruct (Rle_dec hi x); destruct (Rle_dec lo _); lra.
Qed.

Lemma calculateProcessingFactors_contrast_range (normalizedContrast : R) :
  -100 <= normalizedContrast <= 100 ->
  0 <= (if normalizedContrast =? 100 then MAX_CONTRAST_FACTOR
        else Rmin MAX_CONTRAST_FACTOR (tan (((normalizedContrast + 100) * PI) / 400)))
    <= MAX_CONTRAST_FACTOR.
Proof.
  intros Hc. unfold MAX_CONTRAST_FACTOR.
  destruct (normalizedContrast =? 100) eqn:E; [lra |].
  apply Reqb_false in E.
  assert (Hpi := PI_RGT_0).
  split; [| eapply Rle_trans; [apply Rmin_l | lra]].
  apply Rmin_glb; [lra |].
  destruct (Req_dec_T normalizedContrast (-100)) as [-> | Hne].
  - replace ((-100 + 100) * PI / 400) with 0 by lra. rewrite tan_0. lra.
  - apply Rlt_le, tan_gt_0; nra.
Qed.

(** Whatever the exposure and the contrast of the record, the exposure
    factor lies between 1/32 and 32 and the contrast factor between 0 and
    [MAX_CONTRAST_FACTOR]. *)
Theorem calculateProcessingFactors_ranges (properties : ImageProperties.t) :
  let factors := calculateProcessingFactors properties in
  / 32 <= ProcessingFactors.exposure factors <= 32 /\
  0 <= ProcessingFactors.contrast factors <= MAX_CONTRAST_FACTOR.
Proof.
  cbv zeta. unfold calculateProcessingFactors.
  cbn [ProcessingFactors.exposure ProcessingFactors.contrast].
  split.
  - set (e := Rmax (-10) (Rmin 10 _)).
    assert (He : -10 <= e <= 10) by (apply clamp_between; lra).
    rewrite <- Math_pow_2_5. unfold Math_pow. rewrite <- Rpower_Ropp.
    split; apply Rle_Rpower; lra.
  - apply calculateProcessingFactors_contrast_range.
    apply clamp_between. lra.
Qed.

Lemma applySegments_default (value : R) :
  applySegments value DEFAULT_TONE_CURVE = Some value.
Proof.
  unfold DEFAULT_TONE_CURVE. cbn [applySegments nth].
  destruct ((value >=? 0 / 255) && (value <=? 255 / 255)); [| reflexivity].
  rewrite jsdiv_some by lra. cbn [bind]. f_equal. field.
Qed.

Lemma applyToneCurve_fallback (value : R) (curve : option ToneCurve) :
  effectiveCurve curve = DEFAULT_TONE_CURVE ->
  applyToneCurve value curve = Some value.
Proof.
  intros Hcurve. unfold applyToneCurve. rewrite Hcurve.
  apply applySegments_default.
Qed.

Lemma calculateColorMatrixFromProperties_neutral (properties : ImageProperties.t) :
  Forall (fun band => band = (0, 0)) (colorRangesOf properties) ->
  calculateColorMatrixFromProperties properties = IDENTITY_MATRIX.
Proof.
  intros Hbands. unfold calculateColorMatrixFromProperties.
  apply fold_left_fixed. intros band Hin.
  rewrite Forall_forall in Hbands. rewrite (Hbands band Hin).
  cmp. reflexivity.
Qed.

Lemma tan_quarter : tan ((0 + 100) * PI / 400) = 1.
Proof. replace ((0 + 100) * PI / 400) with (PI / 4) by lra. apply tan_PI4. Qed.

Lemma calculateProcessingFactors_neutral (properties : ImageProperties.t) :
  orZero (valueOf (ImageProperties.exposure properties)) = 0 ->
  orZero (valueOf (ImageProperties.contrast properties)) = 0 ->
  calculateProcessingFactors properties = ProcessingFactors.mk 1 1.
Proof.
  intros He Hc. unfold calculateProcessingFactors. rewrite He, Hc.
  replace (Rmax (-10) (Rmin 10 0)) with 0
    by (rewrite Rmin_right, Rmax_right; lra).
  replace (Rmax (-100) (Rmin 100 0)) with 0
    by (rewrite Rmin_right, Rmax_right; lra).
  cmp. rewrite tan_quarter. unfold MAX_CONTRAST_FACTOR.
  rewrite Rmin_right by lra.
  replace (0 / 2) with 0 by lra. now rewrite Math_pow_2_0.
Qed.

Lemma grid_fraction (k : nat) : (k < LUT_SIZE)%nat -> 0 <= INR k / 31 <= 1.
Proof.
  unfold LUT_SIZE. intros Hk.
  assert (0 <= INR k) by apply pos_INR.
  assert (INR k <= 31).
  { replace 31 with (INR 31) by (rewrite INR_IZR_INZ; reflexivity).
    apply le_INR. lia. }
  apply Rdiv_between; lra.
Qed.

Lemma lutPoint_neutral (properties : ImageProperties.t) (r g b : nat) :
  neutral properties ->
  (r < LUT_SIZE)%nat -> (g < LUT_SIZE)%nat -> (b < LUT_SIZE)%nat ->
  lutPoint properties r g b
  = ColorPoint.mk (Some (INR r / 31)) (Some (INR g / 31)) (Some (INR b / 31)).
Proof.
  intros (Hbands & He & Hc & Hred & Hgreen & Hblue) Hr Hg Hb.
  rewrite lutPoint_grid.
  rewrite (calculateColorMatrixFromProperties_neutral _ Hbands).
  rewrite (calculateProcessingFactors_neutral _ He Hc).
  rewrite applyColorMatrix_identity.
  unfold applyToneCurves, applyFactors. cbn [ColorPoint.r ColorPoint.g ColorPoint.b].
  rewrite !applyToneCurve_fallback by assumption.
  unfold applyFactor. cbn [option_map ProcessingFactors.exposure ProcessingFactors.contrast].
  apply grid_fraction in Hr, Hg, Hb.
  f_equal; f_equal; rewrite !Rmult_1_r, Rmin_right, Rmax_right; lra.
Qed.

Lemma flat_map_agree {A B : Type} (f g : A -> list B) (xs : list A) :
  (forall x, In x xs -> f x = g x) -> flat_map f xs = flat_map g xs.
Proof.
  induction xs as [| x rest IH]; intros Hfg; [reflexivity |].
  simpl. rewrite (Hfg x) by now left.
  rewrite IH; [reflexivity |]. intros y Hy. apply Hfg. now right.
Qed.

(** For a record without adjustment the lookup table is the identity: the
    entry of each grid point is the grid point itself. *)
Theorem generateCUBELUT_neutral (properties : ImageProperties.t) :
  validateImageProperties properties = true ->
  neutral properties ->
  generateCUBELUT properties = Returns identityLUT.
Proof.
  intros Hvalid Hneutral. unfold generateCUBELUT, identityLUT.
  rewrite Hvalid. f_equal.
  apply flat_map_agree. intros b Hb. apply flat_map_agree. intros g Hg.
  apply map_ext_in. intros r Hr.
  apply in_seq in Hb, Hg, Hr.
  apply lutPoint_neutral; [assumption | lia ..].
Qed.

Lemma neutralProperties_neutral : neutral neutralProperties.
Proof.
  unfold neutral, neutralProperties. simpl.
  repeat split; try reflexivity.
  repeat first [apply Forall_nil | apply Forall_cons]; reflexivity.
Qed.

Lemma generateCUBELUT_neutral_witness :
  generateCUBELUT neutralProperties = Returns identityLUT.
Proof.
  apply (generateCUBELUT_neutral neutralProperties).
  - reflexivity.
  - apply neutralProperties_neutral.
Defined.




(** ** Parametric curve *)

Lemma mapValue_returns (adjustments : ParametricAdjustments.t) (x : R) :
  exists z, mapValue adjustments x = Some (IZR z) /\ (0 <= z <= 255)%Z.
Proof.
  unfold mapValue. cbv zeta.
  set (s1 := withDefault 25 _). set (s2 := withDefault 50 _).
  set (s3 := withDefault 75 _).
  assert (Hy : exists y,
    (if x <=? s1 then
       Some (x + x * (withDefault 0 (ParametricAdjustments.parametricShadows adjustments) / 100))
     else if x <=? s2 then
       t <- jsdiv (x - s1) (s2 - s1) ;;
       Some (x + x * (withDefault 0 (ParametricAdjustments.parametricDarks adjustments) / 100) * (1 - t))
     else if x <=? s3 then
       t <- jsdiv (x - s2) (s3 - s2) ;;
       Some (x + x * (withDefault 0 (ParametricAdjustments.parametricLights adjustments) / 100) * t)
     else
       Some (x + x * (withDefault 0 (ParametricAdjustments.parametricHighlights adjustments) / 100)))
    = Some y).
  { destruct (x <=? s1) eqn:E1; [eexists; reflexivity |].
    apply Rleb_false in E1.
    destruct (x <=? s2) eqn:E2.
    { apply Rleb_true in E2. rewrite jsdiv_some by lra. eexists. reflexivity. }
    apply Rleb_false in E2.
    destruct (x <=? s3) eqn:E3.
    { apply Rleb_true in E3. rewrite jsdiv_some by lra. eexists. reflexivity. }
    eexists. reflexivity. }
  destruct Hy as (y & ->). cbn [bind].
  eexists. split; [reflexivity | lia].
Qed.

Lemma mapValue_0 (adjustments : ParametricAdjustments.t) :
  mapValue adjustments 0 = Some 0.
Proof.
  unfold mapValue. cbv zeta.
  set (s1 := withDefault 25 _). set (s2 := withDefault 50 _).
  set (s3 := withDefault 75 _).
  assert (Hround : forall k, Some (IZR (Z.max 0 (Z.min 255 (Math_round (0 + 0 * k))))) = Some 0).
  { intros k. replace (0 + 0 * k) with (IZR 0) by (simpl; lra).
    now rewrite Math_round_IZR. }
  destruct (0 <=? s1) eqn:E1; [cbn [bind]; apply Hround |].
  apply Rleb_false in E1.
  destruct (0 <=? s2) eqn:E2.
  { apply Rleb_true in E2. rewrite jsdiv_some by lra. cbn [bind].
    rewrite Rmult_assoc. apply Hround. }
  apply Rleb_false in E2.
  destruct (0 <=? s3) eqn:E3.
  { apply Rleb_true in E3. rewrite jsdiv_some by lra. cbn [bind].
    rewrite Rmult_assoc. apply Hround. }
  cbn [bind]. apply Hround.
Qed.

Lemma createParametricCurve_points (adjustments : ParametricAdjustments.t) :
  exists y1 y2 y3 y4 : Z,
    createParametricCurve adjustments
    = Some [ [0; 0];
             [withDefault 25 (ParametricAdjustments.parametricShadowSplit adjustments); IZR y1];
             [withDefault 50 (ParametricAdjustments.parametricMidtoneSplit adjustments); IZR y2];
             [withDefault 75 (ParametricAdjustments.parametricHighlightSplit adjustments); IZR y3];
             [255; IZR y4] ] /\
    (0 <= y1 <= 255)%Z /\ (0 <= y2 <= 255)%Z /\
    (0 <= y3 <= 255)%Z /\ (0 <= y4 <= 255)%Z.
Proof.
  unfold createParametricCurve. cbv zeta. rewrite mapValue_0. cbn [bind].
  repeat match goal with
         | |- context [mapValue adjustments ?x] =>
             let z := fresh "z" in
             let E := fresh "E" in
             let Hz := fresh "Hz" in
             destruct (mapValue_returns adjustments x) as (z & E & Hz);
             rewrite E; clear E; cbn [bind]
         end.
  eexists _, _, _, _. split; [reflexivity |]. auto.
Qed.

Lemma parametricRow_identity (adjustments : ParametricAdjustments.t) :
  parametricRow adjustments = Some (1, 0, 0).
Proof.
  unfold parametricRow.
  destruct (createParametricCurve_points adjustments)
    as (y1 & y2 & y3 & y4 & -> & _).
  cbn [bind]. apply convertToneCurveToMatrix_zero_input.
Qed.

(** For every argument [createParametricCurve] returns five points of finite
    numbers, at the inputs 0, the three splits and 255; the first point is
    [[0, 0]] and every output is an integer between 0 and 255: no quotient
    of [mapValue] has a zero divisor.  The row computed from the curve is
    then always the identity row [1, 0, 0]: the curve starts at input 0,
    which [convertToneCurveToMatrix] takes for an invalid point. *)
Theorem createParametricCurve_shape (adjustments : ParametricAdjustments.t) :
  (exists y1 y2 y3 y4 : Z,
     createParametricCurve adjustments
     = Some [ [0; 0];
              [withDefault 25 (ParametricAdjustments.parametricShadowSplit adjustments); IZR y1];
              [withDefault 50 (ParametricAdjustments.parametricMidtoneSplit adjustments); IZR y2];
              [withDefault 75 (ParametricAdjustments.parametricHighlightSplit adjustments); IZR y3];
              [255; IZR y4] ] /\
     (0 <= y1 <= 255)%Z /\ (0 <= y2 <= 255)%Z /\
     (0 <= y3 <= 255)%Z /\ (0 <= y4 <= 255)%Z) /\
  parametricRow adjustments = Some (1, 0, 0).
Proof.
  split; [apply createParametricCurve_points | apply parametricRow_identity].
Qed.

(** ** Hue circle *)

Lemma Math_trunc_nonneg (x : R) : 0 <= x -> Math_trunc x = Zfloor x.
Proof.
  intros Hx. unfold Math_trunc.
  now replace (x <? 0) with false by (symmetry; apply Rltb_false; lra).
Qed.

Lemma jsmod_nonneg (x y : R) : 0 <= x -> 0 < y -> 0 <= jsmod x y < y.
Proof.
  intros Hx Hy. unfold jsmod.
  assert (Hq : 0 <= x / y) by (apply Rdiv_between with (k := x / y); [lra |];
    split; [lra |]; unfold Rdiv; rewrite Rmult_assoc, Rinv_l by lra; lra).
  rewrite Math_trunc_nonneg by assumption.
  pose proof (Zfloor_bound (x / y)) as [Hlo Hhi].
  assert (Hx' : x = y * (x / y)) by (field; lra).
  split; nra.
Qed.

Lemma jsmod_bounds (x y : R) : 0 < y -> - y < jsmod x y < y.
Proof.
  intros Hy. unfold jsmod, Math_trunc.
  assert (Hx' : x = y * (x / y)) by (field; lra).
  destruct (x / y <? 0) eqn:E.
  - apply Rltb_true in E.
    pose proof (Zceil_bound (x / y)) as [Hlo Hhi].
    assert (Hc : IZR (Zceil (x / y)) <= 0).
    { apply IZR_le. 
      assert (Zceil (x / y) <= Zceil 0)%Z by (apply Zceil_le; lra).
      replace (Zceil 0) with 0%Z in *; [assumption |].
      symmetry. apply Zceil_eq. simpl. lra. }
    split; nra.
  - apply Rltb_false in E.
    pose proof (Zfloor_bound (x / y)) as [Hlo Hhi].
    assert (Hc : 0 <= IZR (Zfloor (x / y))).
    { apply IZR_le. apply Zfloor_lub. simpl. lra. }
    split; nra.
Qed.

Lemma jsmod_integer_multiple (x y : R) :
  exists k : Z, jsmod x y = x - y * IZR k.
Proof. unfold jsmod. eexists. reflexivity. Qed.

(** The double remainder of [hueToRGB] is the remainder of the floored
    division: a hue in the interval from 0 to 360, 360 excluded. *)
Lemma normalized_hue (hue : R) :
  jsmod (jsmod hue 360 + 360) 360 = hue - 360 * IZR (Zfloor (hue / 360)) /\
  0 <= jsmod (jsmod hue 360 + 360) 360 < 360.
Proof.
  pose proof (jsmod_bounds hue 360 ltac:(lra)) as Hb.
  pose proof (jsmod_nonneg (jsmod hue 360 + 360) 360 ltac:(lra) ltac:(lra)) as Hn.
  split; [| exact Hn].
  destruct (jsmod_integer_multiple hue 360) as (k1 & E1).
  destruct (jsmod_integer_multiple (jsmod hue 360 + 360) 360) as (k2 & E2).
  rewrite E2 in *. rewrite E1 in *.
  assert (Hk : Zfloor (hue / 360) = (k1 + k2 - 1)%Z).
  { apply Zfloor_eq. rewrite minus_IZR, plus_IZR.
    assert (hue = 360 * (hue / 360)) by (field; lra). lra. }
  rewrite Hk, minus_IZR, plus_IZR. lra.
Qed.

Lemma hueToRGB_cases (hue : R) :
  exists x, 0 <= x <= 1 /\
    (hueToRGB hue = ColorPoint.mk 1 x 0 \/ hueToRGB hue = ColorPoint.mk x 1 0 \/
     hueToRGB hue = ColorPoint.mk 0 1 x \/ hueToRGB hue = ColorPoint.mk 0 x 1 \/
     hueToRGB hue = ColorPoint.mk x 0 1 \/ hueToRGB hue = ColorPoint.mk 1 0 x).
Proof.
  unfold hueToRGB. cbv zeta.
  destruct (normalized_hue hue) as [_ Hn].
  set (h := jsmod (jsmod hue 360 + 360) 360 / 60).
  assert (Hh : 0 <= h < 6) by (unfold h; lra).
  pose proof (jsmod_nonneg h 2 ltac:(lra) ltac:(lra)) as Hm.
  exists (1 * (1 - Rabs (jsmod h 2 - 1))).
  split.
  { assert (0 <= Rabs (jsmod h 2 - 1) <= 1)
      by (split; [apply Rabs_pos | apply Rabs_le; lra]).
    lra. }
  replace (h >=? 0) with true by (symmetry; apply Rgeb_true; lra).
  destruct (h <? 1) eqn:E1; cbn [andb]; [tauto |]. apply Rltb_false in E1.
  replace (h >=? 1) with true by (symmetry; apply Rgeb_true; lra).
  destruct (h <? 2) eqn:E2; cbn [andb]; [tauto |]. apply Rltb_false in E2.
  replace (h >=? 2) with true by (symmetry; apply Rgeb_true; lra).
  destruct (h <? 3) eqn:E3; cbn [andb]; [tauto |]. apply Rltb_false in E3.
  replace (h >=? 3) with true by (symmetry; apply Rgeb_true; lra).
  destruct (h <? 4) eqn:E4; cbn [andb]; [tauto |]. apply Rltb_false in E4.
  replace (h >=? 4) with true by (symmetry; apply Rgeb_true; lra).
  destruct (h <? 5) eqn:E5; cbn [andb]; [tauto |]. apply Rltb_false in E5.
  replace (h >=? 5) with true by (symmetry; apply Rgeb_true; lra).
  replace (h <=? 6) with true by (symmetry; apply Rleb_true; lra).
  cbn [andb]. tauto.
Qed.

Lemma hueToRGB_saturated (hue : R) :
  let color := hueToRGB hue in
  0 <= ColorPoint.r color <= 1 /\
  0 <= ColorPoint.g color <= 1 /\
  0 <= ColorPoint.b color <= 1 /\
  Rmax (Rmax (ColorPoint.r color) (ColorPoint.g color)) (ColorPoint.b color) = 1 /\
  Rmin (Rmin (ColorPoint.r color) (ColorPoint.g color)) (ColorPoint.b color) = 0.
Proof.
  cbv zeta. destruct (hueToRGB_cases hue) as (x & Hx & Hc).
  destruct Hc as [-> | [-> | [-> | [-> | [-> | ->]]]]];
    cbn [ColorPoint.r ColorPoint.g ColorPoint.b];
    match goal with
    | |- context [Rmax (Rmax ?a ?b) ?c] =>
        destruct (Rmax3_cases a b c) as ([Hmax | [Hmax | Hmax]] & ? & ? & ?);
        destruct (Rmin3_cases a b c) as ([Hmin | [Hmin | Hmin]] & ? & ? & ?)
    end;
    repeat split; lra.
Qed.

Lemma hueToRGB_periodic (hue : R) : hueToRGB (hue + 360) = hueToRGB hue.
Proof.
  unfold hueToRGB.
  destruct (normalized_hue hue) as [-> _].
  destruct (normalized_hue (hue + 360)) as [-> _].
  replace ((hue + 360) / 360) with (hue / 360 + IZR 1) by (simpl; field).
  rewrite Zfloor_addz, plus_IZR.
  replace (hue + 360 - 360 * (IZR (Zfloor (hue / 360)) + 1))
    with (hue - 360 * IZR (Zfloor (hue / 360))) by lra.
  reflexivity.
Qed.

(** For every hue, negative ones included, [hueToRGB] returns a fully
    saturated colour: each component lies between 0 and 1, the largest is 1
    and the smallest is 0; and it has period 360: a hue and the same hue
    plus 360 degrees give the same colour. *)
Theorem hueToRGB_circle (hue : R) :
  let color := hueToRGB hue in
  (0 <= ColorPoint.r color <= 1 /\
   0 <= ColorPoint.g color <= 1 /\
   0 <= ColorPoint.b color <= 1 /\
   Rmax (Rmax (ColorPoint.r color) (ColorPoint.g color)) (ColorPoint.b color) = 1 /\
   Rmin (Rmin (ColorPoint.r color) (ColorPoint.g color)) (ColorPoint.b color) = 0) /\
  hueToRGB (hue + 360) = color.
Proof.
  cbv zeta. split; [apply hueToRGB_saturated | apply hueToRGB_periodic].
Qed.

(** ** Ranges of the colour estimates *)

Lemma COLOR_RANGES_center (color : ColorChannel) :
  0 <= ColorRange.center (COLOR_RANGES color) <= 360.
Proof. destruct color; simpl; lra. Qed.

Lemma hueDiff_bound (center : R) (lab : LabColor.t) :
  0 <= center <= 360 -> -180 <= hueDiff center lab <= 180.
Proof.
  intros Hc. unfold hueDiff, hueOf.
  pose proof (hueFromLab_bound (LabColor.a lab) (LabColor.b lab)) as Hh.
  set (hue := hueFromLab _ _) in *.
  destruct (hue - center >? 180) eqn:E1.
  - apply Rgtb_true in E1.
    replace (hue - center - 360 <? -180) with false
      by (symmetry; apply Rltb_false; lra).
    lra.
  - apply Rgtb_false in E1.
    destruct (hue - center <? -180) eqn:E2.
    + apply Rltb_true in E2. lra.
    + apply Rltb_false in E2. lra.
Qed.

Lemma hueTotals_bound (center : R) (distribution : ColorDistribution.t) :
  0 <= center <= 360 ->
  let '(totalAdjustment, totalWeight) := hueTotals center distribution in
  0 <= totalWeight /\
  -180 * totalWeight <= totalAdjustment <= 180 * totalWeight.
Proof.
  intros Hc. unfold hueTotals.
  apply (fold_left_invariant
           (fun acc : R * R =>
              let '(totalAdjustment, totalWeight) := acc in
              0 <= totalWeight /\
              -180 * totalWeight <= totalAdjustment <= 180 * totalWeight)).
  - lra.
  - intros [adj tw] lab _ (Htw & Hadj).
    pose proof (hueDiff_bound center lab Hc).
    pose proof (hueWeight_unit lab).
    split; nra.
Qed.

Lemma saturationTotals_bound (distribution : ColorDistribution.t) :
  0 <= ColorDistribution.weight distribution ->
  Forall lightnessInRange
    (ColorDistribution.mean distribution :: ColorDistribution.peaks distribution) ->
  let '(totalAdjustment, totalWeight) := saturationTotals distribution in
  0 <= totalWeight /\ -60 * totalWeight <= totalAdjustment.
Proof.
  intros Hw Hall. unfold saturationTotals. cbv zeta.
  apply (fold_left_invariant
           (fun acc : R * R =>
              let '(totalAdjustment, totalWeight) := acc in
              0 <= totalWeight /\ -60 * totalWeight <= totalAdjustment)).
  - lra.
  - intros [adj tw] lab Hin (Htw & Hadj).
    rewrite Forall_forall in Hall.
    pose proof (luminanceWeight_unit lab (Hall lab Hin)) as Hl.
    assert (Hs : 0 <= saturationWeight distribution lab)
      by (unfold saturationWeight; nra).
    assert (Hchroma : 0 <= chroma lab) by (unfold chroma; apply sqrt_pos).
    split; nra.
Qed.

Section Estimates.

Context {Buffer : Type} `{Sharp Buffer}.

Lemma colour_estimates_bounds (color : ColorChannel) (buffer : Buffer) :
  exists hue saturation : Z,
    calculateColorHue color buffer = Some hue /\
    calculateColorSaturation color buffer = Some saturation /\
    (-135 <= hue <= 135)%Z /\ (-75 <= saturation)%Z.
Proof.
  unfold calculateColorHue, calculateColorSaturation. cbv zeta.
  destruct (analyzeColorDistribution_returns buffer (COLOR_RANGES color))
    as (d & -> & Hw & Hall).
  cbn [bind].
  destruct (ColorDistribution.weight d =? 0) eqn:Ew.
  { exists 0%Z, 0%Z. repeat split; lia. }
  apply Reqb_false in Ew.
  pose proof (hueTotals_bound (ColorRange.center (COLOR_RANGES color)) d
                (COLOR_RANGES_center color)) as Hhue.
  pose proof (saturationTotals_bound d ltac:(lra) Hall) as Hsat.
  destruct (hueTotals _ d) as [hadj htw].
  destruct (saturationTotals d) as [sadj stw].
  destruct Hhue as (Hhtw & Hhadj). destruct Hsat as (Hstw & Hsadj).
  assert (Hhue : exists hue, (if htw =? 0 then Some 0%Z
            else Some (Math_round (hadj / htw * (0.75 * ColorDistribution.weight d))))
            = Some hue /\ (-135 <= hue <= 135)%Z).
  { destruct (htw =? 0) eqn:E; [exists 0%Z; split; [reflexivity | lia] |].
    apply Reqb_false in E. eexists. split; [reflexivity |].
    apply Math_round_between.
    assert (Hq : -180 <= hadj / htw <= 180).
    { assert (Hq' : 0 <= (hadj + 180 * htw) / htw <= 360)
        by (apply Rdiv_between; lra).
      replace ((hadj + 180 * htw) / htw) with (hadj / htw + 180) in Hq'
        by (field; lra).
      lra. }
    simpl. nra. }
  assert (Hsat : exists saturation, (if stw =? 0 then Some 0%Z
            else Some (Math_round (sadj / stw * 1.25)))
            = Some saturation /\ (-75 <= saturation)%Z).
  { destruct (stw =? 0) eqn:E; [exists 0%Z; split; [reflexivity | lia] |].
    apply Reqb_false in E. eexists. split; [reflexivity |].
    assert (Hq : -60 <= sadj / stw).
    { assert (Hi : 0 < / stw) by (apply Rinv_0_lt_compat; lra).
      assert (Hq' : 0 <= (sadj + 60 * stw) * / stw)
        by (apply Rmult_le_pos; lra).
      replace ((sadj + 60 * stw) * / stw) with (sadj / stw + 60) in Hq'
        by (field; lra).
      lra. }
    rewrite <- (Math_round_IZR (-75)). apply Math_round_le. simpl. lra. }
  destruct Hhue as (hue & -> & Hh). destruct Hsat as (saturation & -> & Hs).
  exists hue, saturation. auto.
Qed.

(** For every image and every band the hue estimate is an integer between
    -135 and 135 and the saturation estimate an integer of at least -75;
    neither is ever NaN. *)
Theorem colour_estimates_ranges (color : ColorChannel) (buffer : Buffer) :
  exists hue saturation : Z,
    calculateColorHue color buffer = Some hue /\
    calculateColorSaturation color buffer = Some saturation /\
    (-135 <= hue <= 135)%Z /\ (-75 <= saturation)%Z.
Proof. apply colour_estimates_bounds. Qed.

End Estimates.

(** ** Channel histogram *)

Lemma byteIndex_bound (c : byte) : (byteIndex c < 256)%nat.
Proof.
  unfold byteIndex. pose proof (Byte.to_N_bounded c). lia.
Qed.

Lemma incrementBin_cells (cells : list R) (k : nat) :
  (k < length cells)%nat ->
  exists cells',
    incrementBin (map Some cells) k = map Some cells' /\
    length cells' = length cells /\
    forall i, nth i cells' 0 = nth i cells 0 + (if (i =? k)%nat then 1 else 0).
Proof.
  revert k. induction cells as [| c rest IH]; intros k Hk; [simpl in Hk; lia |].
  destruct k as [| k].
  - exists ((c + 1) :: rest). split; [reflexivity |]. split; [reflexivity |].
    intros [| i]; simpl; lra.
  - destruct (IH k ltac:(simpl in Hk; lia)) as (rest' & E & Hlen & Hnth).
    exists (c :: rest'). split; [cbn [map incrementBin]; now rewrite E |].
    split; [simpl; now rewrite Hlen |].
    intros [| i]; [simpl; lra |]. simpl. apply Hnth.
Qed.

Lemma occurrences_cons (v : nat) (value : byte) (rest : list byte) :
  INR (occurrences v (value :: rest))
  = (if (v =? byteIndex value)%nat then 1 else 0) + INR (occurrences v rest).
Proof.
  unfold occurrences. cbn [filter].
  rewrite (Nat.eqb_sym v). destruct (byteIndex value =? v)%nat.
  - cbn [length]. rewrite S_INR. lra.
  - lra.
Qed.

Lemma counts_fold (channelData : list byte) (cells : list R) :
  length cells = 256%nat ->
  exists cells',
    fold_left (fun counts value => incrementBin counts (byteIndex value))
              channelData (map Some cells)
    = map Some cells' /\
    length cells' = 256%nat /\
    forall v, nth v cells' 0 = nth v cells 0 + INR (occurrences v channelData).
Proof.
  revert cells. induction channelData as [| value rest IH]; intros cells Hlen.
  - exists cells. split; [reflexivity |]. split; [assumption |].
    intros v. unfold occurrences. simpl. lra.
  - cbn [fold_left].
    destruct (incrementBin_cells cells (byteIndex value)) as (cells1 & -> & Hlen1 & Hnth1).
    { rewrite Hlen. apply byteIndex_bound. }
    destruct (IH cells1 ltac:(congruence)) as (cells' & -> & Hlen' & Hnth').
    exists cells'. split; [reflexivity |]. split; [assumption |].
    intros v. rewrite Hnth', Hnth1, occurrences_cons. lra.
Qed.

Lemma insertByHeight_In (p x : HistogramPeak.t) (sorted : list HistogramPeak.t) :
  In x (insertByHeight p sorted) <-> x = p \/ In x sorted.
Proof.
  induction sorted as [| q rest IH]; simpl; [intuition congruence |].
  destruct (HistogramPeak.height p >=? HistogramPeak.height q); simpl;
    [intuition congruence |].
  rewrite IH. intuition congruence.
Qed.

Lemma insertByHeight_sorted (p : HistogramPeak.t) (sorted : list HistogramPeak.t) :
  StronglySorted byHeight sorted -> StronglySorted byHeight (insertByHeight p sorted).
Proof.
  induction sorted as [| q rest IH]; intros Hs; simpl.
  - repeat constructor.
  - inversion Hs as [| ? ? Hrest Hall]; subst.
    destruct (HistogramPeak.height p >=? HistogramPeak.height q) eqn:E.
    + apply Rgeb_true in E. constructor; [exact Hs |].
      constructor; [unfold byHeight; lra |].
      eapply Forall_impl; [| exact Hall]. unfold byHeight. intros r Hr. lra.
    + apply Rgeb_false in E. constructor; [now apply IH |].
      apply Forall_forall. intros x Hx. apply insertByHeight_In in Hx.
      destruct Hx as [-> | Hx]; [unfold byHeight; lra |].
      rewrite Forall_forall in Hall. now apply Hall.
Qed.

Lemma sortByHeight_sorted (peaks : list HistogramPeak.t) :
  StronglySorted byHeight (sortByHeight peaks).
Proof.
  induction peaks as [| p rest IH]; simpl; [constructor |].
  now apply insertByHeight_sorted.
Qed.

Lemma sortByHeight_In (x : HistogramPeak.t) (peaks : list HistogramPeak.t) :
  In x (sortByHeight peaks) <-> In x peaks.
Proof.
  induction peaks as [| p rest IH]; simpl; [tauto |].
  rewrite insertByHeight_In, IH. intuition congruence.
Qed.

Lemma derivativePeak_position (histogram : list R) (maxHeight mean stdev : R)
    (i : nat) (peak : HistogramPeak.t) :
  In peak (derivativePeak histogram maxHeight mean stdev i) ->
  HistogramPeak.position peak = i.
Proof.
  unfold derivativePeak. cbv zeta.
  destruct (_ && _ && _); [| contradiction].
  destruct (jsdiv _ stdev); [| contradiction].
  destruct (_ >? 0.1); [| contradiction].
  intros [<- | []]. reflexivity.
Qed.

Lemma smoothArray_length (arr : list Bin) (sigma : R) :
  length (smoothArray arr sigma) = length arr.
Proof. unfold smoothArray. now rewrite length_map, length_seq. Qed.

Section Histograms.

Context {Buffer : Type} `{Sharp Buffer} `{SharpStats Buffer}.

Lemma getChannelHistogram_returns (buffer : Buffer) (channelIndex : nat)
    (channels : list SharpChannel.t) (channelStats : SharpChannel.t)
    (channelData : list byte) :
  stats buffer = Some channels ->
  nth_error channels channelIndex = Some channelStats ->
  extractChannel buffer channelIndex = Some channelData ->
  exists histogram cells,
    getChannelHistogram buffer channelIndex = Returns histogram /\
    Histogram.counts histogram = map Some cells /\
    length cells = 256%nat /\
    (forall v, nth v cells 0 = INR (occurrences v channelData)) /\
    Histogram.total histogram = length channelData /\
    StronglySorted byHeight (Histogram.peaks histogram) /\
    Forall (fun peak =>
              0 <= HistogramPeak.height peak <= 1 /\
              (1 <= HistogramPeak.position peak <= 254)%nat)
           (Histogram.peaks histogram).
Proof.
  intros Hstats Hchannel Hdata. unfold getChannelHistogram.
  rewrite Hstats, Hchannel, Hdata. cbv zeta.
  destruct (counts_fold channelData (repeat 0 256) (repeat_length 0 256))
    as (cells & Hcounts & Hlen & Hnth).
  change (map Some (repeat 0 256)) with (repeat (Some 0) 256) in Hcounts.
  rewrite Hcounts.
  set (mean := match SharpChannel.mean channelStats with
               | Some m => Some m
               | None => _
               end).
  set (stdev := match SharpChannel.stdev channelStats with
                | Some s => Some s
                | None => _
                end).
  set (smoothed := smoothArray (map Some cells) 2).
  assert (Hsmoothed : length smoothed = 256%nat).
  { unfold smoothed. now rewrite smoothArray_length, length_map. }
  assert (Hfound : exists peaks,
    match mean, stdev with
    | Some m, Some s => findHistogramPeaks smoothed (Some m) (Some s)
    | _, _ => if (length smoothed <? 2)%nat then Throws else Returns []
    end = Returns peaks /\
    Forall (fun peak =>
              0 <= HistogramPeak.height peak <= 1 /\
              (1 <= HistogramPeak.position peak <= 254)%nat) peaks).
  { destruct mean as [m |], stdev as [s |];
      try (rewrite Hsmoothed; change (256 <? 2)%nat with false;
           exists []; split; [reflexivity | constructor]).
    pose proof (findHistogramPeaks_height smoothed (Some m) (Some s)) as Hheight.
    unfold findHistogramPeaks in *. rewrite Hsmoothed in *.
    change (256 <? 2)%nat with false in *. cbv iota in *.
    eexists. split; [reflexivity |].
    apply Forall_forall. intros peak Hin.
    split; [exact (Hheight _ peak eq_refl Hin) |].
    apply in_flat_map in Hin as (i & Hi & Hp).
    apply derivativePeak_position in Hp. apply in_seq in Hi. lia. }
  destruct Hfound as (peaks & -> & Hpeaks).
  eexists. exists cells. split; [reflexivity |].
  cbn [Histogram.counts Histogram.total Histogram.peaks].
  split; [reflexivity |]. split; [assumption |].
  split.
  { intros v. rewrite Hnth.
    replace (nth v (repeat 0 256) 0) with 0; [lra |].
    symmetry. apply nth_repeat. }
  split; [reflexivity |]. split; [apply sortByHeight_sorted |].
  apply Forall_forall. intros peak Hin. apply (proj1 (sortByHeight_In _ _)) in Hin.
  rewrite Forall_forall in Hpeaks. exact (Hpeaks peak Hin).
Qed.

(** When the statistics have the channel and the decoder delivers it,
    [getChannelHistogram] returns; the histogram has 256 finite counts, the
    count of a value is the number of samples with that value, the total is
    the number of samples, and the peaks come sorted by decreasing height,
    each of a height between 0 and 1 at a position from 1 to 254. *)
Theorem getChannelHistogram_counts (buffer : Buffer) (channelIndex : nat)
    (channels : list SharpChannel.t) (channelStats : SharpChannel.t)
    (channelData : list byte) :
  stats buffer = Some channels ->
  nth_error channels channelIndex = Some channelStats ->
  extractChannel buffer channelIndex = Some channelData ->
  exists histogram cells,
    getChannelHistogram buffer channelIndex = Returns histogram /\
    Histogram.counts histogram = map Some cells /\
    length cells = 256%nat /\
    (forall v, nth v cells 0 = INR (occurrences v channelData)) /\
    Histogram.total histogram = length channelData /\
    StronglySorted byHeight (Histogram.peaks histogram) /\
    Forall (fun peak =>
              0 <= HistogramPeak.height peak <= 1 /\
              (1 <= HistogramPeak.position peak <= 254)%nat)
           (Histogram.peaks histogram).
Proof. apply getChannelHistogram_returns. Qed.

End Histograms.

Lemma getChannelHistogram_counts_witness :
  exists histogram cells,
    getChannelHistogram twoPixels 0 = Returns histogram /\
    Histogram.counts histogram = map Some cells /\
    length cells = 256%nat /\
    (forall v, nth v cells 0 = INR (occurrences v [x10; xf0])) /\
    Histogram.total histogram = length [x10; xf0] /\
    StronglySorted byHeight (Histogram.peaks histogram) /\
    Forall (fun peak =>
              0 <= HistogramPeak.height peak <= 1 /\
              (1 <= HistogramPeak.position peak <= 254)%nat)
           (Histogram.peaks histogram).
Proof.
  eapply (getChannelHistogram_counts twoPixels 0); reflexivity.
Defined.

(** ** Smoothing *)

Lemma smoothAt_between (arr : list Bin) (sigma lo hi : R) (windowSize i : Z) :
  lo <= 0 <= hi ->
  (forall value, In (Some value) arr -> lo <= value <= hi) ->
  lo <= smoothAt arr sigma windowSize i <= hi.
Proof.
  intros Hzero Hcells. unfold smoothAt.
  match goal with
  | |- context [fold_left ?f ?xs (0, 0)] =>
      assert (Hsums :
        let '(sum, weightSum) := fold_left f xs (0, 0) in
        0 <= weightSum /\ lo * weightSum <= sum <= hi * weightSum);
      [| destruct (fold_left f xs (0, 0)) as [sum weightSum]]
  end.
  { apply (fold_left_invariant
             (fun acc : R * R =>
                let '(sum, weightSum) := acc in
                0 <= weightSum /\ lo * weightSum <= sum <= hi * weightSum)).
    - lra.
    - intros [sum weightSum] j _ (Hw & Hs).
      destruct (nth_error arr (Z.to_nat j)) as [[value |] |] eqn:E;
        try (split; assumption).
      apply nth_error_In in E. specialize (Hcells value E).
      match goal with
      | |- context [exp ?e] => pose proof (exp_pos e) as Hexp; set (weight := exp e) in *
      end.
      split; nra. }
  destruct Hsums as (Hw & Hs).
  destruct (weightSum >? 0) eqn:E; [| lra].
  apply Rgtb_true in E.
  assert (Hq : 0 <= (sum - lo * weightSum) / weightSum <= hi - lo)
    by (apply Rdiv_between; lra).
  replace ((sum - lo * weightSum) / weightSum) with (sum / weightSum - lo) in Hq
    by (field; lra).
  lra.
Qed.

(** Smoothing keeps the length of the array and the range of its values:
    when every finite cell lies between [lo] and [hi], with [lo <= 0 <= hi],
    so does every cell of the smoothed array (a cell without finite
    neighbour becomes 0).  Counts stay non-negative and below their
    maximum. *)
Theorem smoothArray_between (arr : list Bin) (sigma lo hi : R) :
  0 < sigma ->
  lo <= 0 <= hi ->
  (forall value, In (Some value) arr -> lo <= value <= hi) ->
  length (smoothArray arr sigma) = length arr /\
  Forall (fun value => lo <= value <= hi) (smoothArray arr sigma).
Proof.
  intros _ Hzero Hcells. split; [apply smoothArray_length |].
  unfold smoothArray. apply Forall_forall. intros value Hin.
  apply in_map_iff in Hin as (i & <- & _).
  now apply smoothAt_between.
Qed.

Lemma smoothArray_between_witness :
  length (smoothArray [Some 1; None; Some 3] 2) = length [Some 1; None; Some 3] /\
  Forall (fun value => 0 <= value <= 3) (smoothArray [Some 1; None; Some 3] 2).
Proof.
  apply (smoothArray_between [Some 1; None; Some 3] 2 0 3); [lra | lra |].
  intros value [E | [E | [E | []]]]; try discriminate; injection E as <-; lra.
Defined.

(** ** Split toning *)

Lemma hueToRGB_unit (hue : R) :
  0 <= ColorPoint.r (hueToRGB hue) <= 1 /\
  0 <= ColorPoint.g (hueToRGB hue) <= 1 /\
  0 <= ColorPoint.b (hueToRGB hue) <= 1.
Proof.
  destruct (hueToRGB_cases hue) as (x & Hx & Hc).
  destruct Hc as [-> | [-> | [-> | [-> | [-> | ->]]]]];
    cbn [ColorPoint.r ColorPoint.g ColorPoint.b]; repeat split; lra.
Qed.

(** With saturations that are not negative and a balance between 0 and 100
    the split toning matrix is the identity plus one and the same row of
    tints in each of its rows; every tint lies between 0 and the sum of the
    two strengths.  With both saturations at 0 it is the identity. *)
Theorem createSplitToningMatrix_tint
    (shadowHue shadowSaturation highlightHue highlightSaturation balance : R) :
  0 <= shadowSaturation -> 0 <= highlightSaturation -> 0 <= balance <= 100 ->
  let strength :=
    (shadowSaturation / 100) * ((100 - balance) / 100)
    + (highlightSaturation / 100) * (balance / 100) in
  exists tr tg tb,
    createSplitToningMatrix shadowHue shadowSaturation highlightHue
                            highlightSaturation balance
    = ((1 + tr, tg, tb), (tr, 1 + tg, tb), (tr, tg, 1 + tb)) /\
    0 <= tr <= strength /\ 0 <= tg <= strength /\ 0 <= tb <= strength.
Proof.
  intros Hs Hh Hb. cbv zeta. unfold createSplitToningMatrix. cbv zeta.
  destruct (hueToRGB_unit shadowHue) as (Hsr & Hsg & Hsb).
  destruct (hueToRGB_unit highlightHue) as (Hhr & Hhg & Hhb).
  set (shadowStrength := shadowSaturation / 100 * ((100 - balance) / 100)).
  set (highlightStrength := highlightSaturation / 100 * (balance / 100)).
  assert (Hss : 0 <= shadowStrength) by (unfold shadowStrength; nra).
  assert (Hhs : 0 <= highlightStrength) by (unfold highlightStrength; nra).
  eexists _, _, _. split.
  - repeat apply (f_equal2 (@pair _ _)); try reflexivity; ring.
  - repeat split; nra.
Qed.

Lemma createSplitToningMatrix_tint_witness :
  exists tr tg tb,
    createSplitToningMatrix 30 50 200 40 25
    = ((1 + tr, tg, tb), (tr, 1 + tg, tb), (tr, tg, 1 + tb)) /\
    0 <= tr <= (50 / 100) * ((100 - 25) / 100) + (40 / 100) * (25 / 100) /\
    0 <= tg <= (50 / 100) * ((100 - 25) / 100) + (40 / 100) * (25 / 100) /\
    0 <= tb <= (50 / 100) * ((100 - 25) / 100) + (40 / 100) * (25 / 100).
Proof.
  apply (createSplitToningMatrix_tint 30 50 200 40 25); lra.
Defined.

(** ** Tone points *)

Lemma insertByInput_In (p x : TonePoint.t) (sorted : list TonePoint.t) :
  In x (insertByInput p sorted) <-> x = p \/ In x sorted.
Proof.
  induction sorted as [| q rest IH]; simpl; [intuition congruence |].
  destruct (TonePoint.input p <=? TonePoint.input q); simpl;
    [intuition congruence |].
  rewrite IH. intuition congruence.
Qed.

Lemma insertByInput_sorted (p : TonePoint.t) (sorted : list TonePoint.t) :
  StronglySorted byInput sorted -> StronglySorted byInput (insertByInput p sorted).
Proof.
  induction sorted as [| q rest IH]; intros Hs; simpl.
  - repeat constructor.
  - inversion Hs as [| ? ? Hrest Hall]; subst.
    destruct (TonePoint.input p <=? TonePoint.input q) eqn:E.
    + apply Rleb_true in E. constructor; [exact Hs |].
      constructor; [exact E |].
      eapply Forall_impl; [| exact Hall]. unfold byInput. intros r Hr. lra.
    + apply Rleb_false in E. constructor; [now apply IH |].
      apply Forall_forall. intros x Hx.
      apply (proj1 (insertByInput_In _ _ _)) in Hx.
      destruct Hx as [-> | Hx]; [unfold byInput; lra |].
      rewrite Forall_forall in Hall. now apply Hall.
Qed.

Lemma sortByInput_sorted (points : list TonePoint.t) :
  StronglySorted byInput (sortByInput points).
Proof.
  induction points as [| p rest IH]; simpl; [constructor |].
  now apply insertByInput_sorted.
Qed.

Lemma sortByInput_In (x : TonePoint.t) (points : list TonePoint.t) :
  In x (sortByInput points) <-> In x points.
Proof.
  induction points as [| p rest IH]; simpl; [tauto |].
  rewrite insertByInput_In, IH. intuition congruence.
Qed.

Lemma sortByInput_nonempty (points : list TonePoint.t) :
  points <> [] -> sortByInput points <> [].
Proof.
  destruct points as [| p rest]; [contradiction |]. intros _ Hempty.
  assert (Hin : In p (sortByInput (p :: rest)))
    by (apply sortByInput_In; now left).
  rewrite Hempty in Hin. contradiction.
Qed.

(** The list of tone points of a histogram is sorted by input and always
    holds the two anchors. *)
Lemma findSignificantTonePointsFromHistogram_anchored (histogram : Histogram.t) :
  let points := findSignificantTonePointsFromHistogram histogram in
  StronglySorted byInput points /\
  In (TonePoint.mk 0 0 1) points /\
  In (TonePoint.mk 255 255 1) points.
Proof.
  cbv zeta. unfold findSignificantTonePointsFromHistogram.
  split; [apply sortByInput_sorted |].
  split; apply sortByInput_In, in_or_app; left; simpl; tauto.
Qed.

(** The main tone point of a peak of height between 0 and 1 sits at the
    position of the peak and moves it towards the middle gray without
    crossing it: a dark tone (below 128) is lifted and stays below 128, a
    light one is lowered and stays at or above 128. *)
Theorem peakTonePoints_towards_middle (peak : HistogramPeak.t) :
  0 <= HistogramPeak.height peak <= 1 ->
  exists main shoulders,
    peakTonePoints peak = main :: shoulders /\
    TonePoint.input main = INR (HistogramPeak.position peak) /\
    TonePoint.weight main = HistogramPeak.height peak /\
    (TonePoint.input main < 128 ->
       TonePoint.input main <= TonePoint.output main < 128) /\
    (128 <= TonePoint.input main ->
       128 <= TonePoint.output main <= TonePoint.input main).
Proof.
  intros Hh. unfold peakTonePoints. cbv zeta.
  eexists. eexists. split; [reflexivity |].
  cbn [TonePoint.input TonePoint.output TonePoint.weight].
  split; [reflexivity |]. split; [reflexivity |].
  set (input := INR (HistogramPeak.position peak)).
  assert (Hinput : 0 <= input) by apply pos_INR.
  split; intros Hside.
  - replace (input <? 128) with true by (symmetry; apply Rltb_true; lra).
    rewrite (Rmax_right 0 ((128 - input) * 0.3)) by lra.
    rewrite Rmax_right by nra. split; nra.
  - replace (input <? 128) with false by (symmetry; apply Rltb_false; lra).
    rewrite (Rmax_right 0 ((input - 128) * 0.2)) by lra.
    split.
    + apply Rmin_glb; [lra | nra].
    + eapply Rle_trans; [apply Rmin_r | nra].
Qed.

Lemma peakTonePoints_towards_middle_witness :
  exists main shoulders,
    peakTonePoints (HistogramPeak.mk 40 (1 / 2) 6) = main :: shoulders /\
    TonePoint.input main = INR 40 /\
    TonePoint.weight main = 1 / 2 /\
    (TonePoint.input main < 128 ->
       TonePoint.input main <= TonePoint.output main < 128) /\
    (128 <= TonePoint.input main ->
       128 <= TonePoint.output main <= TonePoint.input main).
Proof.
  apply (peakTonePoints_towards_middle (HistogramPeak.mk 40 (1 / 2) 6)).
  simpl. lra.
Defined.

(** ** Tone curves of the engine *)

Lemma last_map_seq {A : Type} (f : nat -> A) (n : nat) (d : A) :
  last (map f (seq 0 (S n))) d = f n.
Proof.
  rewrite seq_S, map_app. simpl. apply last_last.
Qed.

Lemma defaultCurve_engineCurve : engineCurve [[0; 0]; [255; 255]].
Proof.
  unfold engineCurve. split; [reflexivity |]. split; [simpl; lia |].
  split; [apply DEFAULT_TONE_CURVE_increasing |].
  split; [reflexivity |]. split; [reflexivity |].
  repeat first [apply Forall_nil | apply Forall_cons]; simpl; lra.
Qed.

Lemma smoothToneCurve_engineCurve (points : list TonePoint.t) :
  points <> [] -> engineCurve (smoothToneCurve points).
Proof.
  intros Hne. destruct points as [| first others]; [contradiction |].
  unfold smoothToneCurve.
  set (points := first :: others).
  set (numPoints := numPointsOf points).
  pose proof (numPointsOf_range points) as Hn. fold numPoints in Hn.
  match goal with
  | |- context [curvePointAt numPoints ?s ?a] =>
      set (sCurveStrength := s); set (allPoints := a)
  end.
  set (f := curvePointAt numPoints sCurveStrength allPoints).
  assert (Hshape : forall i, exists y,
             f i = [IZR (Math_round ((INR i / (IZR numPoints - 1)) * 255)); y]
             /\ 0 <= y <= 255)
    by (intros i; apply curvePointAt_shape).
  destruct (Z.to_nat numPoints) as [| n] eqn:En; [lia |].
  unfold engineCurve. split; [| split; [| split; [| split; [| split]]]].
  - unfold validateToneCurvePoints. apply forallb_forall. intros point Hin.
    apply in_map_iff in Hin as (i & <- & _).
    destruct (Hshape i) as (y & -> & _). reflexivity.
  - rewrite length_map, length_seq. lia.
  - unfold curveInputs. rewrite map_map.
    apply map_seq_increasing. intros i j Hij.
    destruct (Hshape i) as (yi & -> & _). destruct (Hshape j) as (yj & -> & _).
    cbn [nth]. apply IZR_lt, Math_round_gap.
    now apply position_increasing.
  - cbn [seq map curveInputs hd].
    destruct (Hshape 0%nat) as (y0 & -> & _). cbn [nth].
    replace (INR 0 / (IZR numPoints - 1) * 255) with (IZR 0)
      by (simpl; unfold Rdiv; ring).
    now rewrite Math_round_IZR.
  - unfold curveInputs. rewrite map_map, last_map_seq.
    destruct (Hshape n) as (y1 & -> & _). cbn [nth].
    replace (INR n / (IZR numPoints - 1) * 255) with (IZR 255);
      [now rewrite Math_round_IZR |].
    assert (Hnum : IZR numPoints = INR n + 1).
    { rewrite <- S_INR, <- En, INR_IZR_INZ, Z2Nat.id by lia. reflexivity. }
    rewrite Hnum. destruct Hn as [Hn5 _]. apply IZR_le in Hn5.
    simpl. field. lra.
  - apply Forall_forall. intros point Hin.
    apply in_map_iff in Hin as (i & <- & _).
    destruct (Hshape i) as (y & -> & Hy). exact Hy.
Qed.

Lemma luminancePointsOf_nonempty (p0 : list TonePoint.t)
    (others : list (list TonePoint.t)) :
  p0 <> [] -> luminancePointsOf (p0 :: others) <> [].
Proof.
  intros Hne. unfold luminancePointsOf. cbn [length seq combine fold_left app].
  destruct p0 as [| point rest]; [contradiction |]. cbn [map].
  match goal with
  | |- fold_left ?f _ _ <> [] =>
      assert (Hgrow : forall pairs acc, acc <> [] -> fold_left f pairs acc <> [])
  end.
  { intros pairs. induction pairs as [| [index points] pairs IH]; intros acc Hacc;
      [exact Hacc |].
    cbn [fold_left]. apply IH. destruct acc; [contradiction | discriminate]. }
  apply Hgrow. discriminate.
Qed.

Lemma findSignificantTonePointsFromHistogram_nonempty (histogram : Histogram.t) :
  findSignificantTonePointsFromHistogram histogram <> [].
Proof.
  unfold findSignificantTonePointsFromHistogram.
  apply sortByInput_nonempty. discriminate.
Qed.

Lemma calculateToneCurveFromPoints_engineCurve (p0 : list TonePoint.t)
    (others : list (list TonePoint.t)) (channels : list SharpChannel.t) :
  p0 <> [] -> engineCurve (calculateToneCurveFromPoints (p0 :: others) channels).
Proof.
  intros Hne. unfold calculateToneCurveFromPoints. cbv zeta.
  destruct (length channels <? 3)%nat; [apply defaultCurve_engineCurve |].
  destruct (negb (forallb hasAllStatistics channels));
    [apply defaultCurve_engineCurve |].
  apply smoothToneCurve_engineCurve. now apply luminancePointsOf_nonempty.
Qed.

Section Curves.

Context {Buffer : Type} `{Sharp Buffer} `{SharpStats Buffer}.

Lemma calculateAllToneCurves_returns (channels : list SharpChannel.t)
    (buffer : Buffer) (statistics : list SharpChannel.t) :
  stats buffer = Some statistics ->
  (3 <= length statistics)%nat ->
  (forall k, (k < 3)%nat -> exists data, extractChannel buffer k = Some data) ->
  exists curves,
    calculateAllToneCurves channels buffer = Returns curves /\
    engineCurve (ToneCurves.toneCurve curves) /\
    engineCurve (ToneCurves.toneCurveRed curves) /\
    engineCurve (ToneCurves.toneCurveGreen curves) /\
    engineCurve (ToneCurves.toneCurveBlue curves).
Proof.
  intros Hstats Hlen Hdata. unfold calculateAllToneCurves.
  assert (Hhist : forall k, (k < 3)%nat ->
             exists histogram, getChannelHistogram buffer k = Returns histogram).
  { intros k Hk. destruct (Hdata k Hk) as (data & Hd).
    destruct (nth_error statistics k) as [channelStats |] eqn:E.
    - destruct (getChannelHistogram_returns buffer k statistics channelStats data
                  Hstats E Hd) as (histogram & _ & Hh & _).
      now exists histogram.
    - apply nth_error_None in E. lia. }
  destruct (Hhist 0%nat ltac:(lia)) as (h0 & ->).
  destruct (Hhist 1%nat ltac:(lia)) as (h1 & ->).
  destruct (Hhist 2%nat ltac:(lia)) as (h2 & ->).
  eexists. split; [reflexivity |].
  cbn [ToneCurves.toneCurve ToneCurves.toneCurveRed ToneCurves.toneCurveGreen
       ToneCurves.toneCurveBlue].
  split; [apply calculateToneCurveFromPoints_engineCurve,
            findSignificantTonePointsFromHistogram_nonempty |].
  repeat split; apply smoothToneCurve_engineCurve,
    findSignificantTonePointsFromHistogram_nonempty.
Qed.

(** For an image with at least three channels of statistics whose first
    three channels the decoder delivers, [calculateAllToneCurves] returns,
    and each of its four curves is a list of 2 to 20 pairs that starts at
    input 0, ends at input 255, has strictly increasing inputs and outputs
    between 0 and 255. *)
Theorem calculateAllToneCurves_curves (channels : list SharpChannel.t)
    (buffer : Buffer) (statistics : list SharpChannel.t) :
  stats buffer = Some statistics ->
  (3 <= length statistics)%nat ->
  (forall k, (k < 3)%nat -> exists data, extractChannel buffer k = Some data) ->
  exists curves,
    calculateAllToneCurves channels buffer = Returns curves /\
    engineCurve (ToneCurves.toneCurve curves) /\
    engineCurve (ToneCurves.toneCurveRed curves) /\
    engineCurve (ToneCurves.toneCurveGreen curves) /\
    engineCurve (ToneCurves.toneCurveBlue curves).
Proof. apply calculateAllToneCurves_returns. Qed.

End Curves.

Lemma twoPixels_decodes (k : nat) :
  (k < 3)%nat -> exists data, extractChannel twoPixels k = Some data.
Proof.
  intros Hk. destruct k as [| [| [| k]]]; [| | | lia]; eexists; reflexivity.
Qed.

Lemma calculateAllToneCurves_curves_witness :
  exists curves,
    calculateAllToneCurves [grayChannel; grayChannel; grayChannel] twoPixels
    = Returns curves /\
    engineCurve (ToneCurves.toneCurve curves) /\
    engineCurve (ToneCurves.toneCurveRed curves) /\
    engineCurve (ToneCurves.toneCurveGreen curves) /\
    engineCurve (ToneCurves.toneCurveBlue curves).
Proof.
  eapply (calculateAllToneCurves_curves _ twoPixels).
  - reflexivity.
  - simpl. lia.
  - apply twoPixels_decodes.
Defined.

(** ** From the image to the lookup table *)

Lemma generateCUBELUT_table (properties : ImageProperties.t) :
  validateImageProperties properties = true ->
  (forall curve,
      In (Some curve)
         [valueOf (ImageProperties.toneCurveRed properties);
          valueOf (ImageProperties.toneCurveGreen properties);
          valueOf (ImageProperties.toneCurveBlue properties)] ->
      strictlyIncreasing (curveInputs curve)) ->
  exists lut,
    generateCUBELUT properties = Returns lut /\
    length lut = (32 * 32 * 32)%nat /\
    forall point, In point lut ->
      inDomain (ColorPoint.r point) /\
      inDomain (ColorPoint.g point) /\
      inDomain (ColorPoint.b point).
Proof.
  intros Hvalid Hinc. unfold generateCUBELUT. rewrite Hvalid.
  eexists. split; [reflexivity |]. split.
  - rewrite (flat_map_seq_length _ (32 * 32)); [reflexivity |].
    intros b. rewrite (flat_map_seq_length _ 32); [reflexivity |].
    intros g. now rewrite length_map, length_seq.
  - intros point Hin.
    apply in_flat_map in Hin as (b & _ & Hin).
    apply in_flat_map in Hin as (g & _ & Hin).
    apply in_map_iff in Hin as (r & <- & _).
    unfold lutPoint, applyFactors, applyToneCurves.
    cbn [ColorPoint.r ColorPoint.g ColorPoint.b].
    repeat split;
      match goal with
      | |- context [applyToneCurve ?v ?c] =>
          destruct (applyToneCurve_finite v c) as (w & ->);
          [ intros c' Hc'; apply Hinc; rewrite Hc'; simpl; tauto
          | apply applyFactor_inDomain ]
      end.
Qed.

Section Extraction.

Context {Buffer : Type} `{Sharp Buffer} `{SharpStats Buffer}.

(** For an image with at least three channels of statistics whose first
    three channels the decoder delivers, the table that
    [extractXMPCubeFromImage] generates from the estimates and the curves of
    the image has 32 * 32 * 32 entries, and every component of every entry
    is a number between 0 and 1: no estimate is NaN and no curve of the
    engine makes the interpolation divide by zero. *)
Theorem extractXMPCubeFromImage_table (buffer : Buffer)
    (statistics : list SharpChannel.t) :
  stats buffer = Some statistics ->
  (3 <= length statistics)%nat ->
  (forall k, (k < 3)%nat -> exists data, extractChannel buffer k = Some data) ->
  exists lut,
    extractXMPCubeFromImage buffer = Some (Returns lut) /\
    length lut = (32 * 32 * 32)%nat /\
    forall point, In point lut ->
      inDomain (ColorPoint.r point) /\
      inDomain (ColorPoint.g point) /\
      inDomain (ColorPoint.b point).
Proof.
  intros Hstats Hlen Hdata. unfold extractXMPCubeFromImage. rewrite Hstats.
  replace (length statistics <? 3)%nat with false
    by (symmetry; apply Nat.ltb_ge; lia).
  repeat match goal with
         | |- context [calculateColorHue ?color buffer] =>
             let hue := fresh "hue" in
             let E := fresh "E" in
             destruct (colour_estimates_bounds color buffer) as (hue & _ & E & _);
             rewrite E; clear E; cbn [bind]
         end.
  repeat match goal with
         | |- context [calculateColorSaturation ?color buffer] =>
             let saturation := fresh "saturation" in
             let E := fresh "E" in
             destruct (colour_estimates_bounds color buffer)
               as (_ & saturation & _ & E & _);
             rewrite E; clear E; cbn [bind]
         end.
  destruct (calculateAllToneCurves_returns statistics buffer statistics
              Hstats Hlen Hdata) as (curves & -> & _ & Hred & Hgreen & Hblue).
  cbv zeta.
  match goal with
  | |- context [generateCUBELUT ?p] =>
      destruct (generateCUBELUT_table p) as (lut & -> & Hlut)
  end.
  - reflexivity.
  - cbn [ImageProperties.toneCurveRed ImageProperties.toneCurveGreen
         ImageProperties.toneCurveBlue valueOf].
    intros curve [Hc | [Hc | [Hc | []]]]; injection Hc as <-;
      [apply Hred | apply Hgreen | apply Hblue].
  - exists lut. split; [reflexivity | exact Hlut].
Qed.

End Extraction.

Lemma extractXMPCubeFromImage_table_witness :
  exists lut,
    extractXMPCubeFromImage twoPixels = Some (Returns lut) /\
    length lut = (32 * 32 * 32)%nat /\
    forall point, In point lut ->
      inDomain (ColorPoint.r point) /\
      inDomain (ColorPoint.g point) /\
      inDomain (ColorPoint.b point).
Proof.
  eapply (extractXMPCubeFromImage_table twoPixels).
  - reflexivity.
  - simpl. lia.
  - apply twoPixels_decodes.
Defined.
